(** * SOS game: board engine and heuristic players

    A shallow embedding of the SOS game of this repository:
    - [board.py]  : the base board ([Base]), four scan directions, no history;
    - [main.py]   : the enhanced board with move history and undo
                    ([Enhanced]), the fixed-letter player [EnhancedAI], and
                    the cell under a pixel of the window ([Game]);
    - [ai.py]     : the free-letter player ([AIPlayer]);
    - [player.py] : the session log ([GameSession]).

    Python values are modelled as follows.  Integers are [Z].  A letter is a
    Python [str], here [string].  A Python list is a [list]; indexing follows
    Python (negative indices count from the end, anything else out of range
    raises [IndexError]).  A computation that may raise returns [res].  A
    method of a board is a function of the receiver [self]; one that assigns
    to attributes of [self] returns the receiver after the call.  The
    players receive a board by reference, so their code runs over a store of
    board objects ([World]) that also holds the state of the random source:
    [board.copy()] adds an object to the store, a call that assigns to a
    board replaces the object at its reference, and a helper that only reads
    a board is a function of the object its reference denotes ([read]).
    The random source is a tape of draws: [random.random()] is the next
    draw as a 53-bit fraction, [random.choice(l)] the item of [l] at the
    next draw modulo the length. *)

From stdpp Require Import base ssreflect list strings sorting.
From Stdlib Require Import ZArith Lia.
#[local] Set Warnings "-rewrite-rw,-clear-no-such-hyp".

Local Open Scope string_scope.
Local Open Scope list_scope.
Local Open Scope Z_scope.

(** ** Exceptions *)

Inductive exn : Type :=
| IndexError      (* list index out of range *)
| DanglingRef.    (* a reference outside the store; never built by the code *)

Inductive res (A : Type) : Type :=
| Ok (a : A)
| Raise (e : exn).
Arguments Ok {A} a.
Arguments Raise {A} e.

#[global] Instance res_bind : MBind res := λ A B k m,
  match m with
  | Ok a => k a
  | Raise e => Raise e
  end.

(** A [for] loop whose body may raise and that threads the loop state. *)
Fixpoint for_each {A St} (l : list A) (body : A → St → res St) (st : St)
  : res St :=
  match l with
  | [] => Ok st
  | x :: l' => st' ← body x st; for_each l' body st'
  end.

(** ** Python lists *)

(** The position a Python index denotes in a list of [n] items. *)
Definition py_index (n : nat) (i : Z) : option nat :=
  if (0 <=? i) && (i <? Z.of_nat n) then Some (Z.to_nat i)
  else if (- Z.of_nat n <=? i) && (i <? 0) then Some (Z.to_nat (Z.of_nat n + i))
  else None.

(** [l[i]] *)
Definition py_getitem {A} (l : list A) (i : Z) : res A :=
  match py_index (length l) i with
  | Some k => match l !! k with Some x => Ok x | None => Raise IndexError end
  | None => Raise IndexError
  end.

(** [l[i] = x] *)
Definition py_setitem {A} (l : list A) (i : Z) (x : A) : res (list A) :=
  match py_index (length l) i with
  | Some k => Ok (<[k:=x]> l)
  | None => Raise IndexError
  end.

(** [range(n)] *)
Definition py_range (n : Z) : list Z := Z.of_nat <$> seq 0 (Z.to_nat n).

(** A grid is a list of rows; [g[r][c]] and [g[r][c] = x]. *)
Definition grid_get {A} (g : list (list A)) (r c : Z) : res A :=
  line ← py_getitem g r; py_getitem line c.

Definition grid_set {A} (g : list (list A)) (r c : Z) (x : A)
  : res (list (list A)) :=
  line ← py_getitem g r;
  line' ← py_setitem line c x;
  py_setitem g r line'.

(** A position [(row, col)] and an SOS sequence [[(r0,c0), (r1,c1), (r2,c2)]]. *)
Definition pos : Type := Z * Z.
Definition sequence : Type := list pos.

(** * The enhanced board of [main.py] *)

Module Enhanced.

(** [@dataclass class Move] *)
Module Move.
Record t : Type := mk {
  row : Z;
  col : Z;
  letter : string;
  player : string;
  sos_formed : Z
}.
End Move.

#[global] Instance Move_eq_dec : EqDecision Move.t.
Proof. solve_decision. Defined.

(** A cell holds [None] or a letter. *)
Definition cell : Type := option string.

Record SOSBoard : Type := mkBoard {
  size : Z;
  board : list (list cell);
  sos_sequences : list sequence;
  move_history : list Move.t
}.

#[global] Instance SOSBoard_eq_dec : EqDecision SOSBoard.
Proof. solve_decision. Defined.

(** [SOSBoard(size)] *)
Definition new (size : Z) : SOSBoard :=
  mkBoard size ((fun _ => (fun _ => None) <$> py_range size) <$> py_range size)
          [] [].

Definition set_board (self : SOSBoard) (g : list (list cell)) : SOSBoard :=
  mkBoard (size self) g (sos_sequences self) (move_history self).
Definition set_sos_sequences (self : SOSBoard) (s : list sequence) : SOSBoard :=
  mkBoard (size self) (board self) s (move_history self).
Definition set_move_history (self : SOSBoard) (h : list Move.t) : SOSBoard :=
  mkBoard (size self) (board self) (sos_sequences self) h.

Definition _is_valid_pos (self : SOSBoard) (row col : Z) : bool :=
  (0 <=? row) && (row <? size self) && (0 <=? col) && (col <? size self).

Definition is_valid_move (self : SOSBoard) (row col : Z) : res bool :=
  if (0 <=? row) && (row <? size self) && (0 <=? col) && (col <? size self)
  then c ← grid_get (board self) row col; Ok (bool_decide (c = None))
  else Ok false.

Definition directions : list (Z * Z) :=
  [(-1, -1); (-1, 0); (-1, 1);
   (0, -1);           (0, 1);
   (1, -1);  (1, 0);  (1, 1)].

(** [self._is_valid_pos(r1, c1) and self._is_valid_pos(r2, c2) and
     self.board[r1][c1] == x and self.board[r2][c2] == y] *)
Definition pattern (self : SOSBoard) (r1 c1 r2 c2 : Z) (x y : string)
  : res bool :=
  if _is_valid_pos self r1 c1 && _is_valid_pos self r2 c2 then
    a ← grid_get (board self) r1 c1;
    if bool_decide (a = Some x) then
      b ← grid_get (board self) r2 c2; Ok (bool_decide (b = Some y))
    else Ok false
  else Ok false.

(** The loop state of [_check_sos_sequences]: the receiver and
    [new_sequences]. *)
Definition scan_state : Type := SOSBoard * list sequence.

(** [if sequence not in self.sos_sequences: append to both lists] *)
Definition record_sequence (sq : sequence) (st : scan_state) : scan_state :=
  if bool_decide (sq ∈ sos_sequences st.1) then st
  else (set_sos_sequences st.1 (sos_sequences st.1 ++ [sq]), st.2 ++ [sq]).

Definition check_first (row col : Z) (d : Z * Z) (st : scan_state)
  : res scan_state :=
  cur ← grid_get (board st.1) row col;
  if bool_decide (cur = Some "S") then
    let r1 := row + d.1 in let c1 := col + d.2 in
    let r2 := row + 2 * d.1 in let c2 := col + 2 * d.2 in
    ok ← pattern st.1 r1 c1 r2 c2 "O" "S";
    Ok (if (ok : bool) then record_sequence [(row, col); (r1, c1); (r2, c2)] st else st)
  else Ok st.

Definition check_middle (row col : Z) (d : Z * Z) (st : scan_state)
  : res scan_state :=
  cur ← grid_get (board st.1) row col;
  if bool_decide (cur = Some "O") then
    let r1 := row - d.1 in let c1 := col - d.2 in
    let r2 := row + d.1 in let c2 := col + d.2 in
    ok ← pattern st.1 r1 c1 r2 c2 "S" "S";
    Ok (if (ok : bool) then record_sequence [(r1, c1); (row, col); (r2, c2)] st else st)
  else Ok st.

Definition check_last (row col : Z) (d : Z * Z) (st : scan_state)
  : res scan_state :=
  cur ← grid_get (board st.1) row col;
  if bool_decide (cur = Some "S") then
    let r1 := row - d.1 in let c1 := col - d.2 in
    let r2 := row - 2 * d.1 in let c2 := col - 2 * d.2 in
    ok ← pattern st.1 r1 c1 r2 c2 "O" "S";
    Ok (if (ok : bool) then record_sequence [(r2, c2); (r1, c1); (row, col)] st else st)
  else Ok st.

(** The body of [for dr, dc in directions]. *)
Definition check_direction (row col : Z) (d : Z * Z) (st : scan_state)
  : res scan_state :=
  st ← check_first row col d st;
  st ← check_middle row col d st;
  check_last row col d st.

Definition _check_sos_sequences (self : SOSBoard) (row col : Z)
  : res (Z * SOSBoard) :=
  st ← for_each directions (check_direction row col) (self, []);
  Ok (Z.of_nat (length st.2), st.1).

Definition make_move (self : SOSBoard) (row col : Z) (letter player_name : string)
  : res (Z * SOSBoard) :=
  valid ← is_valid_move self row col;
  if negb (valid : bool) then Ok (0, self)
  else
    g ← grid_set (board self) row col (Some letter);
    '(sos_count, self) ← _check_sos_sequences (set_board self g) row col;
    let move := Move.mk row col letter player_name sos_count in
    Ok (sos_count, set_move_history self (move_history self ++ [move])).

(** The body of [for move in temp_history] in [undo_last_move]. *)
Definition replay (move : Move.t) (self : SOSBoard) : res SOSBoard :=
  g ← grid_set (board self) (Move.row move) (Move.col move)
                (Some (Move.letter move));
  '(_, self) ← _check_sos_sequences (set_board self g)
                                     (Move.row move) (Move.col move);
  Ok (set_move_history self (move_history self ++ [move])).

Definition undo_last_move (self : SOSBoard) : res (option Move.t * SOSBoard) :=
  match last (move_history self) with
  | None => Ok (None, self)
  | Some last_move =>
      let popped := removelast (move_history self) in
      g ← grid_set (board self) (Move.row last_move) (Move.col last_move) None;
      let temp_history := popped in
      self ← for_each temp_history replay (mkBoard (size self) g [] []);
      Ok (Some last_move, self)
  end.

Definition get_cell (self : SOSBoard) (row col : Z) : res (option string) :=
  if _is_valid_pos self row col then grid_get (board self) row col
  else Ok None.

(** [for row in range(size): for col in range(size): if board[row][col] is None] *)
Definition get_empty_cells (self : SOSBoard) : res (list pos) :=
  for_each (py_range (size self))
    (fun row acc =>
       for_each (py_range (size self))
         (fun col acc =>
            c ← grid_get (board self) row col;
            Ok (if bool_decide (c = None) then acc ++ [(row, col)] else acc))
         acc)
    [].

(** [is_full] walks the rows themselves, whatever their number. *)
Definition is_full (self : SOSBoard) : bool :=
  forallb (forallb (fun c : cell => negb (bool_decide (c = None)))) (board self).

(** [copy]: fresh row lists, fresh sequence lists, a fresh history list. *)
Definition copy (self : SOSBoard) : SOSBoard :=
  mkBoard (size self) ((fun line => line) <$> board self)
          ((fun sq => sq) <$> sos_sequences self) (move_history self).

(** [get_possible_sos_moves]: each empty cell is tried with ['S'] and then
    with ['O'], on a copy of the board each time; the receiver is not
    assigned to.  An item is [(row, col, letter, sos_count)]. *)
Definition get_possible_sos_moves (self : SOSBoard)
  : res (list (Z * Z * string * Z)) :=
  empty_cells ← get_empty_cells self;
  for_each empty_cells
    (fun (p : pos) possible_moves =>
       for_each ["S"; "O"]
         (fun letter possible_moves =>
            let test_board := copy self in
            '(sos_count, _) ← make_move test_board p.1 p.2 letter "";
            Ok (if 0 <? sos_count
                then possible_moves ++ [(p.1, p.2, letter, sos_count)]
                else possible_moves))
         possible_moves)
    [].

End Enhanced.

(** * The base board of [board.py] *)

Module Base.

(** A cell holds a string; [''] marks an empty cell. *)
Definition cell : Type := string.

Record SOSBoard : Type := mkBoard {
  size : Z;
  board : list (list cell);
  sos_sequences : list sequence
}.

#[global] Instance SOSBoard_eq_dec : EqDecision SOSBoard.
Proof. solve_decision. Defined.

(** [SOSBoard(size)] *)
Definition new (size : Z) : SOSBoard :=
  mkBoard size ((fun _ => (fun _ => "") <$> py_range size) <$> py_range size) [].

Definition set_board (self : SOSBoard) (g : list (list cell)) : SOSBoard :=
  mkBoard (size self) g (sos_sequences self).
Definition set_sos_sequences (self : SOSBoard) (s : list sequence) : SOSBoard :=
  mkBoard (size self) (board self) s.

Definition _is_valid_pos (self : SOSBoard) (row col : Z) : bool :=
  (0 <=? row) && (row <? size self) && (0 <=? col) && (col <? size self).

Definition is_valid_move (self : SOSBoard) (row col : Z) : res bool :=
  if (0 <=? row) && (row <? size self) && (0 <=? col) && (col <? size self)
  then c ← grid_get (board self) row col; Ok (bool_decide (c = ""))
  else Ok false.

Definition directions : list (Z * Z) :=
  [(0, 1);    (* horizontal *)
   (1, 0);    (* vertical *)
   (1, 1);    (* diagonal down-right *)
   (1, -1)].  (* diagonal down-left *)

(** [self._is_valid_pos(r1, c1) and self._is_valid_pos(r2, c2) and
     self.board[r1][c1] == x and self.board[r2][c2] == y] *)
Definition pattern (self : SOSBoard) (r1 c1 r2 c2 : Z) (x y : string)
  : res bool :=
  if _is_valid_pos self r1 c1 && _is_valid_pos self r2 c2 then
    a ← grid_get (board self) r1 c1;
    if bool_decide (a = x) then
      b ← grid_get (board self) r2 c2; Ok (bool_decide (b = y))
    else Ok false
  else Ok false.

(** [if sos_seq not in self.sos_sequences: append; points += 1] with
    [points = 0] before. *)
Definition add_sequence (self : SOSBoard) (sos_seq : sequence) : Z * SOSBoard :=
  if bool_decide (sos_seq ∈ sos_sequences self) then (0, self)
  else (0 + 1, set_sos_sequences self (sos_sequences self ++ [sos_seq])).

Definition _check_sos_middle (self : SOSBoard) (row col dr dc : Z)
  : res (Z * SOSBoard) :=
  let prev_row := row - dr in let prev_col := col - dc in
  let next_row := row + dr in let next_col := col + dc in
  ok ← pattern self prev_row prev_col next_row next_col "S" "S";
  Ok (if (ok : bool)
      then add_sequence self [(prev_row, prev_col); (row, col); (next_row, next_col)]
      else (0, self)).

Definition _check_sos_start (self : SOSBoard) (row col dr dc : Z)
  : res (Z * SOSBoard) :=
  let mid_row := row + dr in let mid_col := col + dc in
  let end_row := row + 2 * dr in let end_col := col + 2 * dc in
  ok ← pattern self mid_row mid_col end_row end_col "O" "S";
  Ok (if (ok : bool)
      then add_sequence self [(row, col); (mid_row, mid_col); (end_row, end_col)]
      else (0, self)).

Definition _check_sos_end (self : SOSBoard) (row col dr dc : Z)
  : res (Z * SOSBoard) :=
  let mid_row := row - dr in let mid_col := col - dc in
  let start_row := row - 2 * dr in let start_col := col - 2 * dc in
  ok ← pattern self mid_row mid_col start_row start_col "O" "S";
  Ok (if (ok : bool)
      then add_sequence self [(start_row, start_col); (mid_row, mid_col); (row, col)]
      else (0, self)).

(** [if cond: points += check(self, ...)] *)
Definition add_points (cond : bool) (check : SOSBoard → res (Z * SOSBoard))
    (st : Z * SOSBoard) : res (Z * SOSBoard) :=
  if cond then '(k, self) ← check st.2; Ok (st.1 + k, self) else Ok st.

Definition check_sos_formations (self : SOSBoard) (row col : Z)
  : res (Z * SOSBoard) :=
  letter ← grid_get (board self) row col;
  for_each directions
    (fun d st =>
       st ← add_points (bool_decide (letter = "O"))
              (fun self => _check_sos_middle self row col d.1 d.2) st;
       st ← add_points (bool_decide (letter = "S"))
              (fun self => _check_sos_start self row col d.1 d.2) st;
       add_points (bool_decide (letter = "S"))
              (fun self => _check_sos_end self row col d.1 d.2) st)
    (0, self).

Definition make_move (self : SOSBoard) (row col : Z) (letter : string)
  : res (Z * SOSBoard) :=
  valid ← is_valid_move self row col;
  if negb (valid : bool) then Ok (0, self)
  else
    g ← grid_set (board self) row col letter;
    check_sos_formations (set_board self g) row col.

(** [get_cell] returns a string, or [None] off the board. *)
Definition get_cell (self : SOSBoard) (row col : Z) : res (option string) :=
  if _is_valid_pos self row col
  then c ← grid_get (board self) row col; Ok (Some c)
  else Ok None.

Definition is_full (self : SOSBoard) : bool :=
  forallb (forallb (fun c : cell => negb (bool_decide (c = "")))) (board self).

Definition get_empty_cells (self : SOSBoard) : res (list pos) :=
  for_each (py_range (size self))
    (fun i acc =>
       for_each (py_range (size self))
         (fun j acc =>
            c ← grid_get (board self) i j;
            Ok (if bool_decide (c = "") then acc ++ [(i, j)] else acc))
         acc)
    [].

Definition copy (self : SOSBoard) : SOSBoard :=
  mkBoard (size self) ((fun line => line) <$> board self)
          ((fun sq => sq) <$> sos_sequences self).

End Base.

(** * The store of board objects and the random source *)

Section store.
Context {B : Type}.

(** The objects a player can reach, by reference, the draws the random
    source will deliver, and the number of calls made on objects so far: a
    method of a board, or a helper that inspects the grid of a board.
    Reading an attribute (the [size]) is not counted. *)
Record World : Type := mkWorld {
  objs : list B;
  rng : list Z;
  calls : nat
}.

Definition M (A : Type) : Type := World → res (A * World).

#[global] Instance M_ret : MRet M := λ A a w, Ok (a, w).
#[global] Instance M_bind : MBind M := λ A C k m w,
  match m w with
  | Ok (a, w') => k a w'
  | Raise e => Raise e
  end.

Definition lift {A} (r : res A) : M A := λ w,
  match r with Ok a => Ok (a, w) | Raise e => Raise e end.

Definition deref (b : nat) : M B := λ w,
  match objs w !! b with
  | Some self => Ok (self, mkWorld (objs w) (rng w) (S (calls w)))
  | None => Raise DanglingRef
  end.

(** A new object; its reference is returned. *)
Definition alloc (self : B) : M nat := λ w,
  Ok (length (objs w), mkWorld (objs w ++ [self]) (rng w) (calls w)).

(** A call of a method that only reads its receiver. *)
Definition read {A} (b : nat) (meth : B → res A) : M A :=
  self ← deref b; lift (meth self).

(** An attribute of an object. *)
Definition attr {A} (b : nat) (field : B → A) : M A := λ w,
  match objs w !! b with
  | Some self => Ok (field self, w)
  | None => Raise DanglingRef
  end.

(** A call of a method that assigns to its receiver. *)
Definition call {A} (b : nat) (meth : B → res (A * B)) : M A := λ w,
  match objs w !! b with
  | Some self =>
      match meth self with
      | Ok (a, self') =>
          Ok (a, mkWorld (<[b := self']> (objs w)) (rng w) (S (calls w)))
      | Raise e => Raise e
      end
  | None => Raise DanglingRef
  end.

(** The next draw of the random source (0 once the tape is used up). *)
Definition draw : M Z := λ w,
  match rng w with
  | [] => Ok (0, w)
  | k :: rest => Ok (k, mkWorld (objs w) rest (calls w))
  end.

(** [random.random()]: a float [k / 2^53] with [0 <= k < 2^53], given by
    its numerator [k]. *)
Definition random_random : M Z := k ← draw; mret (k `mod` 2 ^ 53).

(** [random.choice(l)]; [IndexError] on an empty list. *)
Definition random_choice {A} (l : list A) : M A :=
  k ← draw; lift (py_getitem l (k `mod` Z.of_nat (length l))).

(** A [for] loop in [M] that threads its state. *)
Fixpoint for_eachM {A St} (l : list A) (body : A → St → M St) (st : St)
  : M St :=
  match l with
  | [] => mret st
  | x :: l' => st' ← body x st; for_eachM l' body st'
  end.

(** A [for] loop whose body may [return]: the first value returned. *)
Fixpoint first_return {A R} (l : list A) (body : A → M (option R))
  : M (option R) :=
  match l with
  | [] => mret None
  | x :: l' =>
      r ← body x;
      match r with
      | Some v => mret (Some v)
      | None => first_return l' body
      end
  end.

End store.
Arguments World : clear implicits.
Arguments M : clear implicits.

(** The floats [0.7], [0.8] and [0.5] as numerators over [2^53]. *)
Definition float_0_7 : Z := 6305039478318694.
Definition float_0_8 : Z := 7205759403792794.
Definition float_0_5 : Z := 4503599627370496.

(** What a player returns: [(row, col, letter)], each possibly [None]. *)
Definition move : Type := option Z * option Z * option string.
Definition some_move (m : Z * Z * string) : move :=
  (Some m.1.1, Some m.1.2, Some m.2).
Definition no_move : move := (None, None, None).

(** * The fixed-letter player of [main.py] *)

Module EnhancedAI.
Import Enhanced.

Inductive Difficulty : Type := EASY | MEDIUM | HARD.

(** [self.letter]: this player always plays ['O']. *)
Definition letter : string := "O".

(** [board.copy()]: a new board object. *)
Definition copy_board (board : nat) : M SOSBoard nat :=
  self ← deref board; alloc (copy self).

Definition _get_random_move (board : nat) : M SOSBoard move :=
  empty_cells ← read board get_empty_cells;
  match empty_cells with
  | [] => mret no_move
  | _ :: _ =>
      p ← random_choice empty_cells;
      mret (Some p.1, Some p.2, Some letter)
  end.

Definition _get_easy_move (board : nat) : M SOSBoard move :=
  empty_cells ← read board get_empty_cells;
  match empty_cells with
  | [] => mret no_move
  | _ :: _ =>
      p ← random_choice empty_cells;
      mret (Some p.1, Some p.2, Some letter)
  end.

Definition _find_sos_move (board : nat) : M SOSBoard (option (Z * Z * string)) :=
  empty_cells ← read board get_empty_cells;
  st ← for_eachM empty_cells
    (fun (p : pos) (st : option (Z * Z * string) * Z) =>
       (* st = (best_move, max_sos) *)
       test_board ← copy_board board;
       sos_count ← call test_board (fun self => make_move self p.1 p.2 letter "");
       mret (if st.2 <? sos_count then (Some (p.1, p.2, letter), sos_count)
             else st))
    (None, 0);
  mret (if 0 <? st.2 then st.1 else None).

Definition _find_blocking_move (board : nat)
  : M SOSBoard (option (Z * Z * string)) :=
  empty_cells ← read board get_empty_cells;
  first_return empty_cells
    (fun p : pos =>
       test_board_opponent ← copy_board board;
       opponent_sos_count ←
         call test_board_opponent (fun self => make_move self p.1 p.2 "S" "");
       mret (if 0 <? opponent_sos_count then Some (p.1, p.2, letter) else None)).

(** [(board[r1][c1] == 'S' and board[r2][c2] is None) or
     (board[r1][c1] is None and board[r2][c2] == 'S')] *)
Definition half_open (self : SOSBoard) (r1 c1 r2 c2 : Z) : res bool :=
  a ← grid_get (board self) r1 c1;
  left ← (if bool_decide (a = Some "S")
          then b ← grid_get (board self) r2 c2; Ok (bool_decide (b = None))
          else Ok false);
  if (left : bool) then Ok true
  else
    a ← grid_get (board self) r1 c1;
    if bool_decide (a = None)
    then b ← grid_get (board self) r2 c2; Ok (bool_decide (b = Some "S"))
    else Ok false.

Definition _count_potential_sos (self : SOSBoard) (row col : Z) : res Z :=
  current_letter ← grid_get (board self) row col;
  for_each directions
    (fun d potential_count =>
       if bool_decide (current_letter = Some "O") then
         let r1 := row - d.1 in let c1 := col - d.2 in
         let r2 := row + d.1 in let c2 := col + d.2 in
         if _is_valid_pos self r1 c1 && _is_valid_pos self r2 c2 then
           h ← half_open self r1 c1 r2 c2;
           Ok (if (h : bool) then potential_count + 1 else potential_count)
         else Ok potential_count
       else Ok potential_count)
    0.

(** Tuples [(score, row, col)] compare lexicographically. *)
Definition tuple_ltb (x y : Z * Z * Z) : bool :=
  (x.1.1 <? y.1.1) ||
  ((x.1.1 =? y.1.1) &&
   ((x.1.2 <? y.1.2) || ((x.1.2 =? y.1.2) && (x.2 <? y.2)))).

(** [l.sort(reverse=True)]: descending, items that compare equal keep
    their order. *)
Fixpoint insert_reverse (x : Z * Z * Z) (l : list (Z * Z * Z))
  : list (Z * Z * Z) :=
  match l with
  | [] => [x]
  | y :: l' => if tuple_ltb y x then x :: y :: l' else y :: insert_reverse x l'
  end.

Definition sort_reverse (l : list (Z * Z * Z)) : list (Z * Z * Z) :=
  foldl (fun sorted x => insert_reverse x sorted) [] l.

(** [test_board.board[row][col] = letter] *)
Definition set_cell (row col : Z) (x : cell) (self : SOSBoard)
  : res (unit * SOSBoard) :=
  g ← grid_set (board self) row col x; Ok (tt, set_board self g).

Definition _find_strategic_move (board : nat)
  : M SOSBoard (option (Z * Z * string)) :=
  empty_cells ← read board get_empty_cells;
  match empty_cells with
  | [] => mret None
  | _ :: _ =>
      n ← attr board size;
      let center := n `div` 2 in
      scored_moves ← for_eachM empty_cells
        (fun (p : pos) (scored_moves : list (Z * Z * Z)) =>
           let score := 0 in
           let distance_from_center :=
             Z.abs (p.1 - center) + Z.abs (p.2 - center) in
           n ← attr board size;
           let score := score + (n - distance_from_center) * 2 in
           test_board ← copy_board board;
           _ ← call test_board (set_cell p.1 p.2 (Some letter));
           potential_sos ←
             read test_board (fun self => _count_potential_sos self p.1 p.2);
           let score := score + potential_sos * 5 in
           mret (scored_moves ++ [(score, p.1, p.2)]))
        [];
      match sort_reverse scored_moves with
      | t :: _ => mret (Some (t.1.2, t.2, letter))
      | [] => mret None
      end
  end.

(** [total_score > best_score], where [best_score] starts at
    [float('-inf')] ([None]). *)
Definition beats (total_score : Z) (best_score : option Z) : bool :=
  match best_score with
  | None => true
  | Some b => b <? total_score
  end.

Definition _find_best_move_with_lookahead (board : nat)
  : M SOSBoard (option (Z * Z * string)) :=
  empty_cells ← read board get_empty_cells;
  match empty_cells with
  | [] => mret None
  | _ :: _ =>
      st ← for_eachM empty_cells
        (fun (p : pos) (st : option (Z * Z * string) * option Z) =>
           (* st = (best_move, best_score) *)
           test_board ← copy_board board;
           immediate_score ←
             call test_board (fun self => make_move self p.1 p.2 letter "AI");
           replies ← read test_board get_empty_cells;
           opponent_best ← for_eachM (take 5 replies)
             (fun (q : pos) (opponent_best : Z) =>
                opp_board ← copy_board test_board;
                opp_score ←
                  call opp_board (fun self => make_move self q.1 q.2 "S" "Human");
                mret (Z.max opponent_best opp_score))
             0;
           let total_score := immediate_score * 10 - opponent_best * 5 in
           mret (if beats total_score st.2
                 then (Some (p.1, p.2, letter), Some total_score)
                 else st))
        (None, None);
      mret st.1
  end.

Definition or_else (found : option (Z * Z * string)) (rest : M SOSBoard move)
  : M SOSBoard move :=
  match found with
  | Some m => mret (some_move m)
  | None => rest
  end.

Definition _get_medium_move (board : nat) : M SOSBoard move :=
  r ← random_random;
  if r <? float_0_7 then _get_random_move board
  else
    sos_move ← _find_sos_move board;
    or_else sos_move (
      block_move ← _find_blocking_move board;
      or_else block_move (
        strategic_move ← _find_strategic_move board;
        or_else strategic_move (_get_random_move board))).

Definition _get_hard_move (board : nat) : M SOSBoard move :=
  r ← random_random;
  if r <? float_0_8 then _get_random_move board
  else
    sos_move ← _find_sos_move board;
    or_else sos_move (
      blocking_move ← _find_blocking_move board;
      or_else blocking_move (
        best_move ← _find_best_move_with_lookahead board;
        or_else best_move (
          strategic_move ← _find_strategic_move board;
          or_else strategic_move (_get_random_move board)))).

Definition get_move (difficulty : Difficulty) (board : nat) : M SOSBoard move :=
  m ← match difficulty with
      | EASY => _get_easy_move board
      | MEDIUM => _get_medium_move board
      | HARD => _get_hard_move board
      end;
  m ← (if bool_decide (m.1.1 = None) || bool_decide (m.1.2 = None)
       then _get_random_move board
       else mret m);
  mret (m.1.1, m.1.2, Some letter).

End EnhancedAI.

(** * The free-letter player of [ai.py] *)

Module AIPlayer.
Import Base.

Definition _valid_and_equals (board : SOSBoard) (row col : Z) (expected : string)
  : res bool :=
  if _is_valid_pos board row col
  then c ← get_cell board row col; Ok (bool_decide (c = Some expected))
  else Ok false.

(** [a and b], where [b] is evaluated only if [a] holds. *)
Definition and_then (a : res bool) (b : res bool) : res bool :=
  x ← a; if (x : bool) then b else Ok false.

Definition _check_sos_pattern (board : SOSBoard) (row col : Z) (letter : string)
    (dr dc : Z) : res bool :=
  if bool_decide (letter = "S") then
    starts ← and_then (_valid_and_equals board (row + dr) (col + dc) "O")
                      (_valid_and_equals board (row + 2 * dr) (col + 2 * dc) "S");
    if (starts : bool) then Ok true
    else
      ends ← and_then (_valid_and_equals board (row - dr) (col - dc) "O")
                      (_valid_and_equals board (row - 2 * dr) (col - 2 * dc) "S");
      if (ends : bool) then Ok true else Ok false
  else if bool_decide (letter = "O") then
    mid ← and_then (_valid_and_equals board (row - dr) (col - dc) "S")
                   (_valid_and_equals board (row + dr) (col + dc) "S");
    if (mid : bool) then Ok true else Ok false
  else Ok false.

Definition directions : list (Z * Z) := [(0, 1); (1, 0); (1, 1); (1, -1)].

(** [for dr, dc in ds: if check(...): return True] then [return False] *)
Fixpoint any_direction (ds : list (Z * Z)) (check : Z → Z → res bool)
  : res bool :=
  match ds with
  | [] => Ok false
  | d :: ds' =>
      hit ← check d.1 d.2;
      if (hit : bool) then Ok true else any_direction ds' check
  end.

Definition _can_win_here (board : SOSBoard) (row col : Z) (letter : string)
  : res bool :=
  any_direction directions (_check_sos_pattern board row col letter).

Definition _should_block_here (board : SOSBoard) (row col : Z) : res bool :=
  s ← _can_win_here board row col "S";
  if (s : bool) then Ok true else _can_win_here board row col "O".

(** The counting loop of [_quick_letter_choice]: [(s_count, o_count)]. *)
Definition neighbour_counts (board : SOSBoard) (row col : Z) : res (Z * Z) :=
  for_each [(-1, 0); (1, 0); (0, -1); (0, 1)]
    (fun d (st : Z * Z) =>
       let nr := row + d.1 in let nc := col + d.2 in
       if _is_valid_pos board nr nc then
         c ← get_cell board nr nc;
         Ok (if bool_decide (c = Some "S") then (st.1 + 1, st.2)
             else if bool_decide (c = Some "O") then (st.1, st.2 + 1)
             else st)
       else Ok st)
    (0, 0).

Definition _quick_letter_choice (board : nat) (row col : Z) : M SOSBoard string :=
  counts ← read board (fun self => neighbour_counts self row col);
  if counts.2 <? counts.1 then mret "O"
  else if counts.1 <? counts.2 then mret "S"
  else r ← random_random; mret (if float_0_5 <? r then "S" else "O").

Definition place (board : nat) (p : pos) : M SOSBoard (option (Z * Z * string)) :=
  letter ← _quick_letter_choice board p.1 p.2;
  mret (Some (p.1, p.2, letter)).

Definition _get_quick_strategic_move (board : nat) (empty_cells : list pos)
  : M SOSBoard (option (Z * Z * string)) :=
  match empty_cells with
  | [] => mret None
  | first :: _ =>
      (* [board.size], read again at each use in the source *)
      n ← attr board size;
      let center := n `div` 2 in
      (* Priority 1: center *)
      if bool_decide ((center, center) ∈ empty_cells)
      then place board (center, center)
      else
        (* Priority 2: near center *)
        r ← first_return empty_cells
              (fun p : pos =>
                 if (Z.abs (p.1 - center) <=? 1) && (Z.abs (p.2 - center) <=? 1)
                 then place board p else mret None);
        match r with
        | Some m => mret (Some m)
        | None =>
            (* Priority 3: corners *)
            let corners := [(0, 0); (0, n - 1); (n - 1, 0); (n - 1, n - 1)] in
            r ← first_return corners
                  (fun p : pos =>
                     if bool_decide (p ∈ empty_cells)
                     then place board p else mret None);
            match r with
            | Some m => mret (Some m)
            | None =>
                (* Priority 4: edges *)
                r ← first_return empty_cells
                      (fun p : pos =>
                         if (p.1 =? 0) || (p.1 =? n - 1) ||
                            (p.2 =? 0) || (p.2 =? n - 1)
                         then place board p else mret None);
                match r with
                | Some m => mret (Some m)
                | None =>
                    (* Priority 5: any remaining cell *)
                    place board first
                end
            end
        end
  end.

(** Step 1 of [get_move]: [for i, (row, col) in enumerate(empty_cells)]. *)
Fixpoint win_loop (board : nat) (i : Z) (cells : list pos)
  : M SOSBoard (option (Z * Z * string)) :=
  match cells with
  | [] => mret None
  | p :: rest =>
      if 3 <=? i then mret None   (* break *)
      else
        s ← read board (fun self => _can_win_here self p.1 p.2 "S");
        if (s : bool) then mret (Some (p.1, p.2, "S"))
        else
          o ← read board (fun self => _can_win_here self p.1 p.2 "O");
          if (o : bool) then mret (Some (p.1, p.2, "O"))
          else win_loop board (i + 1) rest
  end.

(** Step 2 of [get_move], taken in hard mode only. *)
Fixpoint block_loop (board : nat) (i : Z) (cells : list pos)
  : M SOSBoard (option (Z * Z * string)) :=
  match cells with
  | [] => mret None
  | p :: rest =>
      if 2 <=? i then mret None   (* break *)
      else
        b ← read board (fun self => _should_block_here self p.1 p.2);
        if (b : bool) then
          letter ← random_choice ["S"; "O"];
          mret (Some (p.1, p.2, letter))
        else block_loop board (i + 1) rest
  end.

Definition or_else (found : option (Z * Z * string)) (rest : M SOSBoard move)
  : M SOSBoard move :=
  match found with
  | Some m => mret (some_move m)
  | None => rest
  end.

Definition get_move (difficulty : string) (board : nat) : M SOSBoard move :=
  empty_cells ← read board get_empty_cells;
  match empty_cells with
  | [] => mret no_move
  | _ :: _ =>
      win ← win_loop board 0 empty_cells;
      or_else win (
        block ← (if bool_decide (difficulty = "hard")
                 then block_loop board 0 empty_cells
                 else mret None);
        or_else block (
          strategic ← _get_quick_strategic_move board empty_cells;
          or_else strategic (
            p ← random_choice empty_cells;
            letter ← random_choice ["S"; "O"];
            mret (Some p.1, Some p.2, Some letter))))
  end.

End AIPlayer.

(** * The session log of [player.py] *)

Module GameSession.

(** An item of [moves_history]: the dict [add_move] builds. *)
Record entry : Type := mk_entry {
  player : string;
  position : Z * Z;
  letter : string;
  points : Z;
  move_number : Z
}.

Record t : Type := mk {
  moves_history : list entry;
  game_start_time : option Z;
  game_end_time : option Z
}.

(** [GameSession()] *)
Definition new : t := mk [] None None.

Definition add_move (self : t) (player_name : string) (row col : Z)
    (letter : string) (points_scored : Z) : t :=
  let move :=
    mk_entry player_name (row, col) letter points_scored
             (Z.of_nat (length (moves_history self)) + 1) in
  mk (moves_history self ++ [move]) (game_start_time self) (game_end_time self).

Definition get_move_history (self : t) : list entry := moves_history self.

(** [self.moves_history[-1] if self.moves_history else None] *)
Definition get_last_move (self : t) : res (option entry) :=
  match moves_history self with
  | [] => Ok None
  | _ :: _ => m ← py_getitem (moves_history self) (-1); Ok (Some m)
  end.

Definition clear_history (self : t) : t :=
  mk [] (game_start_time self) (game_end_time self).

Definition get_total_moves (self : t) : Z :=
  Z.of_nat (length (moves_history self)).

End GameSession.

(** * The window of [main.py]: from a pixel to a cell *)

Module Game.

Definition BOARD_SIZE : Z := 5.
Definition CELL_SIZE : Z := 100.
Definition BOARD_OFFSET_X : Z := 150.
Definition BOARD_OFFSET_Y : Z := 200.

(** [get_cell_from_pos]; [//] is the division that rounds down. *)
Definition get_cell_from_pos (pos : Z * Z) : option (Z * Z) :=
  let '(x, y) := pos in
  if (BOARD_OFFSET_X <=? x) && (x <? BOARD_OFFSET_X + BOARD_SIZE * CELL_SIZE) &&
     ((BOARD_OFFSET_Y <=? y) && (y <? BOARD_OFFSET_Y + BOARD_SIZE * CELL_SIZE))
  then
    let col := (x - BOARD_OFFSET_X) `div` CELL_SIZE in
    let row := (y - BOARD_OFFSET_Y) `div` CELL_SIZE in
    if (0 <=? row) && (row <? BOARD_SIZE) && ((0 <=? col) && (col <? BOARD_SIZE))
    then Some (row, col)
    else None
  else None.

End Game.

(** * Python lists: facts *)

(** [evaluate t H] adds [H : t = v], with [v] the value of the closed
    term [t]. *)
Ltac evaluate t H :=
  let v := eval vm_compute in t in
  assert (H : t = v) by (vm_compute; reflexivity).

(** Equality of two lists of positions, coordinate by coordinate. *)
Ltac seq_eq :=
  simpl;
  repeat (apply (f_equal2 cons); [apply (f_equal2 pair); lia|]);
  reflexivity.

Section py_lists.
Context {A : Type}.
Implicit Types (l : list A) (g : list (list A)) (i r c : Z) (x : A).

Lemma py_index_nonneg (n : nat) i :
  0 ≤ i → (Z.to_nat i < n)%nat → py_index n i = Some (Z.to_nat i).
Proof.
  intros Hi Hn. unfold py_index.
  replace (0 <=? i) with true by (symmetry; apply Z.leb_le; lia).
  replace (i <? Z.of_nat n) with true by (symmetry; apply Z.ltb_lt; lia).
  done.
Qed.

Lemma py_getitem_nonneg l i x :
  0 ≤ i → l !! Z.to_nat i = Some x → py_getitem l i = Ok x.
Proof.
  intros Hi Hx. unfold py_getitem.
  rewrite py_index_nonneg; [by rewrite Hx | done | by eapply lookup_lt_Some].
Qed.

Lemma py_setitem_nonneg l i x :
  0 ≤ i → (Z.to_nat i < length l)%nat →
  py_setitem l i x = Ok (<[Z.to_nat i := x]> l).
Proof. intros Hi Hn. unfold py_setitem. by rewrite py_index_nonneg. Qed.

End py_lists.

Section grids.
Context {A : Type}.
Implicit Types (g : list (list A)) (r c : Z) (x : A).

(** The item of a grid at a position given by natural numbers. *)
Definition lookup2 g r c : option A :=
  line ← g !! Z.to_nat r; line !! Z.to_nat c.

(** The grid with one item replaced. *)
Definition upd2 g r c x : list (list A) :=
  alter (λ line, <[Z.to_nat c := x]> line) (Z.to_nat r) g.

(** A square grid of side [n]. *)
Definition wf_grid (n : Z) g : Prop :=
  length g = Z.to_nat n ∧ Forall (λ line, length line = Z.to_nat n) g.

Lemma grid_get_lookup2 g r c x :
  0 ≤ r → 0 ≤ c → lookup2 g r c = Some x → grid_get g r c = Ok x.
Proof.
  unfold lookup2, grid_get. intros Hr Hc H.
  destruct (g !! Z.to_nat r) as [line|] eqn:E; simplify_eq/=.
  rewrite (py_getitem_nonneg g r line) //=.
  by apply py_getitem_nonneg.
Qed.

Lemma wf_grid_lookup2 n g r c :
  wf_grid n g → 0 ≤ r < n → 0 ≤ c < n → is_Some (lookup2 g r c).
Proof.
  intros [Hlen Hall] Hr Hc. unfold lookup2.
  destruct (lookup_lt_is_Some_2 g (Z.to_nat r)) as [line E]; [lia|].
  rewrite E /=. apply lookup_lt_is_Some_2.
  rewrite Forall_lookup in Hall. rewrite (Hall _ _ E). lia.
Qed.

Lemma grid_set_upd2 n g r c x :
  wf_grid n g → 0 ≤ r < n → 0 ≤ c < n → grid_set g r c x = Ok (upd2 g r c x).
Proof.
  intros [Hlen Hall] Hr Hc. unfold grid_set, upd2.
  destruct (lookup_lt_is_Some_2 g (Z.to_nat r)) as [line E]; [lia|].
  rewrite (py_getitem_nonneg g r line) /=; [|lia|done].
  rewrite Forall_lookup in Hall. pose proof (Hall _ _ E) as Hline.
  rewrite py_setitem_nonneg /=; [|lia|lia].
  rewrite py_setitem_nonneg; [|lia|lia].
  f_equal. apply list_eq. intros k.
  destruct (decide (k = Z.to_nat r)) as [->|Hne].
  - rewrite list_lookup_insert_eq; [|lia]. by rewrite list_lookup_alter_eq E.
  - rewrite list_lookup_insert_ne //. by rewrite list_lookup_alter_ne.
Qed.

Lemma wf_grid_upd2 n g r c x : wf_grid n g → wf_grid n (upd2 g r c x).
Proof.
  intros [Hlen Hall]. split; unfold upd2.
  - by rewrite length_alter.
  - apply Forall_alter; [done|]. intros line _ H. by rewrite length_insert.
Qed.

Lemma lookup2_upd2_eq n g r c x :
  wf_grid n g → 0 ≤ r < n → 0 ≤ c < n → lookup2 (upd2 g r c x) r c = Some x.
Proof.
  intros [Hlen Hall] Hr Hc. unfold lookup2, upd2.
  destruct (lookup_lt_is_Some_2 g (Z.to_nat r)) as [line E]; [lia|].
  rewrite list_lookup_alter_eq E /=.
  rewrite Forall_lookup in Hall. pose proof (Hall _ _ E) as Hline.
  apply list_lookup_insert_eq. lia.
Qed.

Lemma lookup2_upd2_ne g r c x r' c' :
  0 ≤ r → 0 ≤ c → 0 ≤ r' → 0 ≤ c' → (r', c') ≠ (r, c) →
  lookup2 (upd2 g r c x) r' c' = lookup2 g r' c'.
Proof.
  intros Hr Hc Hr' Hc' Hne. unfold lookup2, upd2.
  destruct (decide (Z.to_nat r' = Z.to_nat r)) as [Heq|Hn].
  - rewrite Heq list_lookup_alter_eq.
    destruct (g !! Z.to_nat r) as [line|]; [|done]. simpl.
    apply list_lookup_insert_ne. intros Hc2. apply Hne. f_equal; lia.
  - by rewrite list_lookup_alter_ne.
Qed.

Lemma upd2_id g r c x : lookup2 g r c = Some x → upd2 g r c x = g.
Proof.
  unfold lookup2, upd2. intros H.
  destruct (g !! Z.to_nat r) as [line|] eqn:E; simplify_eq/=.
  apply list_eq. intros k.
  destruct (decide (k = Z.to_nat r)) as [->|Hne].
  - rewrite list_lookup_alter_eq E /=. by rewrite list_insert_id.
  - by rewrite list_lookup_alter_ne.
Qed.

Lemma upd2_upd2 g r c x y : upd2 (upd2 g r c x) r c y = upd2 g r c y.
Proof.
  unfold upd2. apply list_eq. intros k.
  destruct (decide (k = Z.to_nat r)) as [->|Hne].
  - rewrite !list_lookup_alter_eq. destruct (g !! Z.to_nat r); [|done].
    simpl. by rewrite list_insert_insert_eq.
  - by rewrite !list_lookup_alter_ne.
Qed.

(** The positions of a board of side [n], row by row. *)
Definition positions (n : Z) : list pos :=
  r ← py_range n; c ← py_range n; [(r, c)].

(** [p] holds a cell that [e] accepts. *)
Definition cell_is (e : A → bool) g (p : pos) : bool :=
  match lookup2 g p.1 p.2 with
  | Some c => e c
  | None => false
  end.

(** The nested loop of [get_empty_cells], with [e] the test for an empty
    cell. *)
Definition scan_empty (e : A → bool) (n : Z) g : res (list pos) :=
  for_each (py_range n)
    (fun i acc =>
       for_each (py_range n)
         (fun j acc =>
            c ← grid_get g i j;
            Ok (if e c then acc ++ [(i, j)] else acc))
         acc)
    [].

Lemma elem_of_py_range (n x : Z) : x ∈ py_range n ↔ 0 ≤ x < n.
Proof.
  unfold py_range. rewrite list_elem_of_fmap. split.
  - intros (k & -> & Hk%elem_of_seq). lia.
  - intros H. exists (Z.to_nat x). split; [lia|]. apply elem_of_seq. lia.
Qed.

Lemma elem_of_positions (n : Z) (p : pos) :
  p ∈ positions n ↔ 0 ≤ p.1 < n ∧ 0 ≤ p.2 < n.
Proof.
  unfold positions. rewrite list_elem_of_bind. split.
  - intros (r & (c & ->%list_elem_of_singleton & Hc)%list_elem_of_bind & Hr).
    by rewrite -!elem_of_py_range.
  - intros [Hr Hc]. exists p.1. rewrite elem_of_py_range. split; [|done].
    apply list_elem_of_bind. exists p.2. rewrite elem_of_py_range.
    split; [|done]. destruct p. by left.
Qed.

Lemma scan_row (e : A → bool) n g i cs acc :
  wf_grid n g → 0 ≤ i < n → (∀ j, j ∈ cs → 0 ≤ j < n) →
  for_each cs
    (fun j acc =>
       c ← grid_get g i j;
       Ok (if e c then acc ++ [(i, j)] else acc))
    acc
  = Ok (acc ++ filter (λ p, cell_is e g p = true) (c ← cs; [(i, c)])).
Proof.
  intros Hwf Hi. revert acc. induction cs as [|j cs IH]; intros acc Hcs.
  - by rewrite /= app_nil_r.
  - cbn [for_each].
    destruct (wf_grid_lookup2 n g i j) as [c Hc]; [done..|apply Hcs; by left|].
    rewrite (grid_get_lookup2 g i j c);
      [|lia|by apply (Hcs j); left|done].
    cbn [mbind res_bind]. rewrite IH; [|by intros; apply Hcs; right].
    f_equal. cbn [mbind list_bind mjoin list_join fmap list_fmap app].
    rewrite filter_cons.
    assert (cell_is e g (i, j) = e c) as Hcell by by rewrite /cell_is /= Hc.
    destruct (e c) eqn:Ec.
    + rewrite decide_True //. by rewrite -app_assoc.
    + rewrite decide_False //. by rewrite Hcell.
Qed.

Lemma scan_empty_spec (e : A → bool) n g :
  wf_grid n g →
  scan_empty e n g = Ok (filter (λ p, cell_is e g p = true) (positions n)).
Proof.
  intros Hwf. unfold scan_empty, positions.
  assert (∀ rs acc, (∀ i, i ∈ rs → 0 ≤ i < n) →
    for_each rs
      (fun i acc =>
         for_each (py_range n)
           (fun j acc =>
              c ← grid_get g i j;
              Ok (if e c then acc ++ [(i, j)] else acc))
           acc)
      acc
    = Ok (acc ++ filter (λ p, cell_is e g p = true)
                        (r ← rs; c ← py_range n; [(r, c)]))) as Hrows.
  { induction rs as [|i rs IH]; intros acc Hrs.
    - by rewrite /= app_nil_r.
    - cbn [for_each].
      rewrite (scan_row e n g i);
        [|done|by apply Hrs; left|by intros j; rewrite elem_of_py_range].
      cbn [mbind res_bind]. rewrite IH; [|by intros; apply Hrs; right].
      f_equal. rewrite -app_assoc. f_equal.
      change (r ← i :: rs; c ← py_range n; [(r, c)])
        with ((c ← py_range n; [(i, c)]) ++ (r ← rs; c ← py_range n; [(r, c)])).
      by rewrite filter_app. }
  rewrite Hrows //. intros i. by rewrite elem_of_py_range.
Qed.

(** No cell that [e] accepts, by rows and by positions. *)
Lemma no_cell_is (e : A → bool) n g :
  wf_grid n g →
  forallb (forallb (λ x, negb (e x))) g = true ↔
  filter (λ p, cell_is e g p = true) (positions n) = [].
Proof.
  intros [Hlen Hall]. rewrite Forall_lookup in Hall. split.
  - intros Hf.
    destruct (filter _ (positions n)) as [|p l] eqn:E; [done|]. exfalso.
    assert (p ∈ filter (λ p, cell_is e g p = true) (positions n)) as Hp
      by (rewrite E; by left).
    apply list_elem_of_filter in Hp as [Hp _]. unfold cell_is, lookup2 in Hp.
    destruct (g !! Z.to_nat p.1) as [line|] eqn:E1; [|done]. simpl in Hp.
    destruct (line !! Z.to_nat p.2) as [x|] eqn:E2; [|done].
    rewrite forallb_forall in Hf.
    specialize (Hf line (proj1 (list_elem_of_In _ _) (list_elem_of_lookup_2 _ _ _ E1))).
    rewrite forallb_forall in Hf.
    specialize (Hf x (proj1 (list_elem_of_In _ _) (list_elem_of_lookup_2 _ _ _ E2))).
    by rewrite Hp in Hf.
  - intros Hnil. apply forallb_forall. intros line Hline.
    apply list_elem_of_In, list_elem_of_lookup in Hline as [i Hi].
    apply forallb_forall. intros x Hx.
    apply list_elem_of_In, list_elem_of_lookup in Hx as [j Hj].
    destruct (e x) eqn:Ec; [|done]. exfalso.
    pose proof (lookup_lt_Some _ _ _ Hi) as Hilt.
    pose proof (lookup_lt_Some _ _ _ Hj) as Hjlt.
    rewrite (Hall _ _ Hi) in Hjlt.
    assert ((Z.of_nat i, Z.of_nat j)
              ∈ filter (λ p, cell_is e g p = true) (positions n)) as Hin.
    { apply list_elem_of_filter. split.
      - unfold cell_is, lookup2. simpl. by rewrite !Nat2Z.id Hi /= Hj.
      - apply elem_of_positions. simpl. lia. }
    rewrite Hnil in Hin. by apply elem_of_nil in Hin.
Qed.

End grids.

(** * The enhanced board: facts *)

Section enhanced_board.
Import Enhanced.
Implicit Types (self : SOSBoard) (row col : Z) (sq : sequence) (d : Z * Z).
Implicit Types (st : scan_state).

(** The grid of a board is a square of side [size]. *)
Definition wf self : Prop := wf_grid (size self) (board self).

Lemma _is_valid_pos_spec self row col :
  _is_valid_pos self row col = true ↔ 0 ≤ row < size self ∧ 0 ≤ col < size self.
Proof. unfold _is_valid_pos. rewrite !andb_true_iff !Z.leb_le !Z.ltb_lt. lia. Qed.

(** Position [p] is on the board and holds letter [x]. *)
Definition holdsb self (p : pos) (x : string) : bool :=
  _is_valid_pos self p.1 p.2 &&
  bool_decide (lookup2 (board self) p.1 p.2 = Some (Some x)).

Lemma holdsb_spec self p x :
  holdsb self p x = true ↔
  (0 ≤ p.1 < size self ∧ 0 ≤ p.2 < size self) ∧
  lookup2 (board self) p.1 p.2 = Some (Some x).
Proof.
  unfold holdsb. by rewrite andb_true_iff _is_valid_pos_spec bool_decide_eq_true.
Qed.

Lemma grid_get_valid self row col :
  wf self → _is_valid_pos self row col = true →
  ∃ c, lookup2 (board self) row col = Some c ∧
       grid_get (board self) row col = Ok c.
Proof.
  intros Hwf Hv. apply _is_valid_pos_spec in Hv as [Hr Hc].
  destruct (wf_grid_lookup2 _ _ row col Hwf Hr Hc) as [c E].
  exists c. split; [done|]. apply grid_get_lookup2; [lia|lia|done].
Qed.

Lemma pattern_spec self r1 c1 r2 c2 x y :
  wf self →
  pattern self r1 c1 r2 c2 x y = Ok (holdsb self (r1, c1) x && holdsb self (r2, c2) y).
Proof.
  intros Hwf. unfold pattern, holdsb. simpl.
  destruct (_is_valid_pos self r1 c1) eqn:E1; [|done].
  destruct (_is_valid_pos self r2 c2) eqn:E2; cbn [andb];
    [|by rewrite andb_false_r].
  destruct (grid_get_valid self r1 c1 Hwf E1) as (a & La & ->).
  destruct (grid_get_valid self r2 c2 Hwf E2) as (b & Lb & ->).
  rewrite La Lb. simpl.
  assert (bool_decide (Some a = Some (Some x)) = bool_decide (a = Some x)) as ->.
  { apply bool_decide_ext. naive_solver. }
  assert (bool_decide (Some b = Some (Some y)) = bool_decide (b = Some y)) as ->.
  { apply bool_decide_ext. naive_solver. }
  by repeat case_bool_decide.
Qed.

(** The common shape of the three checks of one direction. *)
Definition probe row col (here : string) (r1 c1 r2 c2 : Z) (x y : string)
    (sq : sequence) st : res scan_state :=
  cur ← grid_get (board st.1) row col;
  if bool_decide (cur = Some here) then
    ok ← pattern st.1 r1 c1 r2 c2 x y;
    Ok (if (ok : bool) then record_sequence sq st else st)
  else Ok st.

Lemma probe_spec row col here r1 c1 r2 c2 x y sq st :
  wf st.1 → _is_valid_pos st.1 row col = true →
  probe row col here r1 c1 r2 c2 x y sq st =
  Ok (if holdsb st.1 (row, col) here && holdsb st.1 (r1, c1) x
         && holdsb st.1 (r2, c2) y
      then record_sequence sq st else st).
Proof.
  intros Hwf Hv. unfold probe.
  destruct (grid_get_valid _ row col Hwf Hv) as (cur & L & ->). simpl.
  assert (holdsb st.1 (row, col) here = bool_decide (cur = Some here)) as ->.
  { unfold holdsb. simpl. rewrite Hv L /=. apply bool_decide_ext. naive_solver. }
  rewrite pattern_spec //.
  by repeat case_bool_decide.
Qed.

(** The sequences one direction proposes at [(row, col)], in the order of
    the three checks. *)
Definition first_seq row col d : sequence :=
  [(row, col); (row + d.1, col + d.2); (row + 2 * d.1, col + 2 * d.2)].
Definition middle_seq row col d : sequence :=
  [(row - d.1, col - d.2); (row, col); (row + d.1, col + d.2)].
Definition last_seq row col d : sequence :=
  [(row - 2 * d.1, col - 2 * d.2); (row - d.1, col - d.2); (row, col)].

(** [sq] reads S-O-S on the board. *)
Definition readsb self sq : bool :=
  match sq with
  | [p0; p1; p2] => holdsb self p0 "S" && holdsb self p1 "O" && holdsb self p2 "S"
  | _ => false
  end.

Definition candidates self row col d : list sequence :=
  (if readsb self (first_seq row col d) then [first_seq row col d] else []) ++
  (if readsb self (middle_seq row col d) then [middle_seq row col d] else []) ++
  (if readsb self (last_seq row col d) then [last_seq row col d] else []).

(** All sequences [_check_sos_sequences] proposes at [(row, col)]. *)
Definition proposals self row col : list sequence :=
  directions ≫= candidates self row col.

Definition record_all (sqs : list sequence) st : scan_state :=
  foldl (λ st sq, record_sequence sq st) st sqs.

Lemma record_sequence_board sq st :
  board (record_sequence sq st).1 = board st.1 ∧
  size (record_sequence sq st).1 = size st.1 ∧
  move_history (record_sequence sq st).1 = move_history st.1.
Proof. unfold record_sequence. by case_bool_decide. Qed.

Lemma record_if_board (b : bool) sq st :
  board (if b then record_sequence sq st else st).1 = board st.1 ∧
  size (if b then record_sequence sq st else st).1 = size st.1.
Proof.
  destruct b; [|done].
  by destruct (record_sequence_board sq st) as (? & ? & _).
Qed.

Lemma record_all_board sqs st :
  board (record_all sqs st).1 = board st.1 ∧
  size (record_all sqs st).1 = size st.1 ∧
  move_history (record_all sqs st).1 = move_history st.1.
Proof.
  revert st. induction sqs as [|sq sqs IH]; intros st; [done|].
  simpl. destruct (IH (record_sequence sq st)) as (-> & -> & ->).
  apply record_sequence_board.
Qed.

Lemma holdsb_ext self self' p x :
  board self' = board self → size self' = size self →
  holdsb self' p x = holdsb self p x.
Proof. intros Hb Hs. unfold holdsb, _is_valid_pos. by rewrite Hb Hs. Qed.

Lemma readsb_ext self self' sq :
  board self' = board self → size self' = size self →
  readsb self' sq = readsb self sq.
Proof.
  intros Hb Hs. unfold readsb.
  destruct sq as [|p0 [|p1 [|p2 [|]]]]; try done.
  by rewrite !(holdsb_ext self self').
Qed.

Lemma wf_ext self self' :
  board self' = board self → size self' = size self → wf self → wf self'.
Proof. unfold wf. by intros -> ->. Qed.

Lemma candidates_ext self self' row col d :
  board self' = board self → size self' = size self →
  candidates self' row col d = candidates self row col d.
Proof. intros Hb Hs. unfold candidates. by rewrite !(readsb_ext self self'). Qed.

Lemma record_all_app sqs1 sqs2 st :
  record_all (sqs1 ++ sqs2) st = record_all sqs2 (record_all sqs1 st).
Proof. apply foldl_app. Qed.

Lemma check_direction_spec row col d st :
  wf st.1 → _is_valid_pos st.1 row col = true →
  check_direction row col d st = Ok (record_all (candidates st.1 row col d) st).
Proof.
  intros Hwf Hv. unfold check_direction.
  change (check_first row col d st) with
    (probe row col "S" (row + d.1) (col + d.2) (row + 2 * d.1) (col + 2 * d.2)
           "O" "S" (first_seq row col d) st).
  rewrite probe_spec //=.
  set (st1 := if _ && _ then _ else st).
  assert (board st1.1 = board st.1 ∧ size st1.1 = size st.1) as [Hb1 Hs1].
  { apply record_if_board. }
  change (check_middle row col d st1) with
    (probe row col "O" (row - d.1) (col - d.2) (row + d.1) (col + d.2)
           "S" "S" (middle_seq row col d) st1).
  rewrite probe_spec /=; [|by eapply wf_ext|by rewrite /_is_valid_pos Hs1].
  set (st2 := if _ && _ then _ else st1).
  assert (board st2.1 = board st.1 ∧ size st2.1 = size st.1) as [Hb2 Hs2].
  { destruct (record_if_board
      (holdsb st1.1 (row, col) "O" && holdsb st1.1 (row - d.1, col - d.2) "S" &&
       holdsb st1.1 (row + d.1, col + d.2) "S") (middle_seq row col d) st1)
      as [Hb Hs].
    subst st2. rewrite Hb Hs. by split. }
  change (check_last row col d st2) with
    (probe row col "S" (row - d.1) (col - d.2) (row - 2 * d.1) (col - 2 * d.2)
           "O" "S" (last_seq row col d) st2).
  rewrite probe_spec /=; [|by eapply wf_ext|by rewrite /_is_valid_pos Hs2].
  f_equal.
  rewrite !(holdsb_ext st.1 st2.1) //. subst st2.
  rewrite !(holdsb_ext st.1 st1.1) //. subst st1.
  unfold candidates, readsb, first_seq, middle_seq, last_seq.
  destruct (holdsb st.1 (row, col) "S"), (holdsb st.1 (row, col) "O"),
    (holdsb st.1 (row + d.1, col + d.2) "O"),
    (holdsb st.1 (row + d.1, col + d.2) "S"),
    (holdsb st.1 (row + 2 * d.1, col + 2 * d.2) "S"),
    (holdsb st.1 (row - d.1, col - d.2) "S"),
    (holdsb st.1 (row - d.1, col - d.2) "O"),
    (holdsb st.1 (row - 2 * d.1, col - 2 * d.2) "S"); reflexivity.
Qed.

Lemma for_each_check_direction row col ds st :
  wf st.1 → _is_valid_pos st.1 row col = true →
  for_each ds (check_direction row col) st =
  Ok (record_all (ds ≫= candidates st.1 row col) st).
Proof.
  revert st. induction ds as [|d ds IH]; intros st Hwf Hv; [done|].
  simpl. rewrite check_direction_spec //=.
  destruct (record_all_board (candidates st.1 row col d) st) as (Hb & Hs & _).
  rewrite IH; [|by eapply wf_ext|by rewrite /_is_valid_pos Hs].
  rewrite record_all_app. do 2 f_equal.
  apply list_bind_ext; [|done]. intros d'. by apply candidates_ext.
Qed.

Lemma record_all_spec sqs st :
  ∃ news,
    (record_all sqs st).1 =
      mkBoard (size st.1) (board st.1) (sos_sequences st.1 ++ news)
              (move_history st.1) ∧
    (record_all sqs st).2 = st.2 ++ news ∧
    (NoDup (sos_sequences st.1) → NoDup (sos_sequences st.1 ++ news)) ∧
    (∀ sq, sq ∈ sos_sequences st.1 ++ news ↔ sq ∈ sos_sequences st.1 ∨ sq ∈ sqs).
Proof.
  revert st. induction sqs as [|sq0 sqs IH]; intros [self new].
  - exists []. simpl. rewrite !app_nil_r. destruct self.
    split_and!; [done..|]. intros sq. rewrite elem_of_nil. tauto.
  - simpl. unfold record_sequence. simpl. case_bool_decide as Hin.
    + destruct (IH (self, new)) as (news & E1 & E2 & Hnd & Hmem).
      exists news. split_and!; [done..|]. intros sq.
      rewrite Hmem elem_of_cons. simpl. split; [tauto|].
      intros [?|[->|?]]; tauto.
    + destruct (IH (set_sos_sequences self (sos_sequences self ++ [sq0]),
                    new ++ [sq0])) as (news & E1 & E2 & Hnd & Hmem).
      simpl in *. exists (sq0 :: news).
      rewrite -!app_assoc in E1, E2, Hnd, Hmem. simpl in *.
      split_and!; [done..| |].
      * intros H. apply Hnd. apply NoDup_app. split_and!; [done| |].
        -- intros x Hx ->%list_elem_of_singleton. done.
        -- apply NoDup_singleton.
      * intros sq. rewrite Hmem elem_of_app list_elem_of_singleton elem_of_cons.
        tauto.
Qed.

Lemma _check_sos_sequences_spec self row col :
  wf self → _is_valid_pos self row col = true →
  ∃ news,
    _check_sos_sequences self row col =
      Ok (Z.of_nat (length news),
          mkBoard (size self) (board self) (sos_sequences self ++ news)
                  (move_history self)) ∧
    (NoDup (sos_sequences self) → NoDup (sos_sequences self ++ news)) ∧
    (∀ sq, sq ∈ sos_sequences self ++ news ↔
           sq ∈ sos_sequences self ∨ sq ∈ proposals self row col).
Proof.
  intros Hwf Hv. unfold _check_sos_sequences.
  rewrite for_each_check_direction //=.
  destruct (record_all_spec (directions ≫= candidates self row col) (self, []))
    as (news & E1 & E2 & Hnd & Hmem).
  simpl in *. exists news. rewrite E1 E2. done.
Qed.

(** [sq] is an S-O-S line of the board: three cells in a row along one of
    the eight directions, listed from one end to the other. *)
Definition is_sos self sq : Prop :=
  ∃ r c d, d ∈ directions ∧ sq = first_seq r c d ∧ readsb self sq = true.

Lemma middle_seq_first row col d :
  middle_seq row col d = first_seq (row - d.1) (col - d.2) d.
Proof. unfold middle_seq, first_seq. seq_eq. Qed.

Lemma last_seq_first row col d :
  last_seq row col d = first_seq (row - 2 * d.1) (col - 2 * d.2) d.
Proof. unfold last_seq, first_seq. seq_eq. Qed.

Lemma elem_of_if_singleton {A} (b : bool) (x y : A) :
  x ∈ (if b then [y] else []) ↔ b = true ∧ x = y.
Proof.
  destruct b; rewrite ?list_elem_of_singleton ?elem_of_nil; intuition congruence.
Qed.

Lemma elem_of_candidates self row col d sq :
  sq ∈ candidates self row col d ↔
  readsb self sq = true ∧
  (sq = first_seq row col d ∨ sq = middle_seq row col d ∨ sq = last_seq row col d).
Proof.
  unfold candidates. rewrite !elem_of_app !elem_of_if_singleton. split.
  - intros [[H ->]|[[H ->]|[H ->]]]; auto.
  - intros [H [->|[->| ->]]]; auto.
Qed.

Lemma elem_of_proposals self row col sq :
  sq ∈ proposals self row col ↔ is_sos self sq ∧ (row, col) ∈ sq.
Proof.
  unfold proposals. rewrite list_elem_of_bind. split.
  - intros (d & Hc & Hd). apply elem_of_candidates in Hc as [Hr Hsq]. split.
    + destruct Hsq as [->| [->| ->]].
      * by exists row, col, d.
      * exists (row - d.1), (col - d.2), d. by rewrite -middle_seq_first.
      * exists (row - 2 * d.1), (col - 2 * d.2), d. by rewrite -last_seq_first.
    + destruct Hsq as [->| [->| ->]];
        unfold first_seq, middle_seq, last_seq; set_solver.
  - intros [(r & c & d & Hd & -> & Hr) Hin]. exists d. split; [|done].
    apply elem_of_candidates. split; [done|].
    unfold first_seq in Hin.
    rewrite !elem_of_cons elem_of_nil in Hin.
    destruct Hin as [Hin|[Hin|[Hin|[]]]]; simplify_eq.
    + by left.
    + right; left. rewrite middle_seq_first. unfold first_seq. seq_eq.
    + right; right. rewrite last_seq_first. unfold first_seq. seq_eq.
Qed.

Lemma proposals_ext self self' row col :
  board self' = board self → size self' = size self →
  proposals self' row col = proposals self row col.
Proof.
  intros Hb Hs. unfold proposals. apply list_bind_ext; [|done].
  intros d. by apply candidates_ext.
Qed.

Lemma is_sos_ext self self' sq :
  board self' = board self → size self' = size self →
  is_sos self' sq ↔ is_sos self sq.
Proof.
  intros Hb Hs. unfold is_sos.
  by setoid_rewrite (readsb_ext self self' _ Hb Hs).
Qed.

(** ** [is_valid_move] and [make_move] *)

Lemma is_valid_move_spec self row col :
  wf self →
  is_valid_move self row col =
  Ok (_is_valid_pos self row col &&
      bool_decide (lookup2 (board self) row col = Some None)).
Proof.
  intros Hwf. unfold is_valid_move.
  change ((0 <=? row) && (row <? size self) && (0 <=? col) && (col <? size self))
    with (_is_valid_pos self row col).
  destruct (_is_valid_pos self row col) eqn:Hv; [|done].
  destruct (grid_get_valid self row col Hwf Hv) as (c & L & ->).
  simpl. rewrite L. f_equal. apply bool_decide_ext.
  split; [by intros ->|by intros [= ->]].
Qed.

Lemma is_valid_move_true self row col :
  wf self →
  is_valid_move self row col = Ok true ↔
  _is_valid_pos self row col = true ∧ lookup2 (board self) row col = Some None.
Proof.
  intros Hwf. rewrite is_valid_move_spec //. split.
  - intros [= [? ?%bool_decide_eq_true]%andb_true_iff]. done.
  - intros [-> ?]. by rewrite bool_decide_eq_true_2.
Qed.

Lemma make_move_invalid self row col letter player_name :
  is_valid_move self row col = Ok false →
  make_move self row col letter player_name = Ok (0, self).
Proof. intros H. unfold make_move. by rewrite H. Qed.

Lemma make_move_valid self row col letter player_name :
  wf self → is_valid_move self row col = Ok true →
  ∃ news,
    let g := upd2 (board self) row col (Some letter) in
    let k := Z.of_nat (length news) in
    make_move self row col letter player_name =
      Ok (k, mkBoard (size self) g (sos_sequences self ++ news)
                     (move_history self ++
                      [Move.mk row col letter player_name k])) ∧
    (NoDup (sos_sequences self) → NoDup (sos_sequences self ++ news)) ∧
    (∀ sq, sq ∈ sos_sequences self ++ news ↔
           sq ∈ sos_sequences self ∨
           sq ∈ proposals (set_board self g) row col).
Proof.
  intros Hwf Hv. unfold make_move. rewrite Hv /=.
  apply is_valid_move_true in Hv as [Hv Hnone]; [|done].
  destruct (proj1 (_is_valid_pos_spec _ _ _) Hv) as [Hr Hc].
  rewrite (grid_set_upd2 (size self)) //=.
  destruct (_check_sos_sequences_spec
              (set_board self (upd2 (board self) row col (Some letter))) row col)
    as (news & E & Hnd & Hmem); [by apply wf_grid_upd2|done|].
  exists news. rewrite E /=. done.
Qed.

(** ** The invariant of reachable boards *)

Definition move_pos (m : Move.t) : pos := (Move.row m, Move.col m).

Record inv self : Prop := mk_inv {
  inv_wf : wf self;
  (* every recorded move is on the board, with its letter *)
  inv_hist : ∀ m, m ∈ move_history self →
             holdsb self (move_pos m) (Move.letter m) = true;
  (* every letter on the board was placed by a recorded move *)
  inv_cover : ∀ p x, holdsb self p x = true →
              ∃ m, m ∈ move_history self ∧ move_pos m = p;
  inv_hist_nodup : NoDup (move_pos <$> move_history self);
  inv_nodup : NoDup (sos_sequences self);
  (* the recorded sequences are exactly the S-O-S lines of the board *)
  inv_sos : ∀ sq, sq ∈ sos_sequences self ↔ is_sos self sq
}.

Lemma holdsb_free self row col x :
  lookup2 (board self) row col = Some None → holdsb self (row, col) x = false.
Proof.
  intros H. unfold holdsb. simpl. rewrite H.
  rewrite bool_decide_eq_false_2; [|done]. apply andb_false_r.
Qed.

Lemma holdsb_upd2_ne self g row col v p x :
  g = upd2 (board self) row col v →
  _is_valid_pos self row col = true → p ≠ (row, col) →
  holdsb (set_board self g) p x = holdsb self p x.
Proof.
  intros -> Hv Hne. unfold holdsb. simpl.
  change (_is_valid_pos (set_board self _) p.1 p.2) with (_is_valid_pos self p.1 p.2).
  destruct (_is_valid_pos self p.1 p.2) eqn:Hp; [|done]. simpl.
  apply _is_valid_pos_spec in Hv, Hp.
  rewrite lookup2_upd2_ne; [done|lia..|]. by destruct p.
Qed.

Lemma holdsb_upd2_eq self g row col v x :
  g = upd2 (board self) row col v → wf self →
  _is_valid_pos self row col = true →
  holdsb (set_board self g) (row, col) x = bool_decide (v = Some x).
Proof.
  intros -> Hwf Hv. unfold holdsb. simpl.
  change (_is_valid_pos (set_board self _) row col) with (_is_valid_pos self row col).
  rewrite Hv /=. apply _is_valid_pos_spec in Hv as [Hr Hc].
  rewrite (lookup2_upd2_eq (size self)) //.
  apply bool_decide_ext. split; [by intros [= ->]|by intros ->].
Qed.

Lemma readsb_agree self self' sq :
  (∀ p x, p ∈ sq → holdsb self' p x = holdsb self p x) →
  readsb self' sq = readsb self sq.
Proof.
  intros H. unfold readsb. destruct sq as [|p0 [|p1 [|p2 [|]]]]; try done.
  rewrite !H //; set_solver.
Qed.

Lemma readsb_holds self sq p :
  readsb self sq = true → p ∈ sq → ∃ x, holdsb self p x = true.
Proof.
  unfold readsb. destruct sq as [|p0 [|p1 [|p2 [|]]]]; try done.
  rewrite !elem_of_cons elem_of_nil.
  destruct (holdsb self p0 "S") eqn:E0; [|done].
  destruct (holdsb self p1 "O") eqn:E1; [|done].
  destruct (holdsb self p2 "S") eqn:E2; [|done].
  intros _ [->|[->|[->|[]]]]; eauto.
Qed.

Lemma is_sos_agree self self' sq :
  (∀ p x, p ∈ sq → holdsb self' p x = holdsb self p x) →
  is_sos self' sq ↔ is_sos self sq.
Proof.
  intros H. unfold is_sos. by setoid_rewrite (readsb_agree self self' sq H).
Qed.

Lemma inv_new n : inv (new n).
Proof.
  assert (∀ p x, holdsb (new n) p x = false) as Hfree.
  { intros p x. unfold holdsb. destruct (_is_valid_pos _ _ _) eqn:Hv; [|done].
    simpl. apply bool_decide_eq_false_2. unfold lookup2, new. cbn [board].
    intros (line & Hl & Hc)%bind_Some.
    apply list_lookup_fmap_Some in Hl as (i & -> & _).
    by apply list_lookup_fmap_Some in Hc as (j & ? & _). }
  split.
  - split; unfold new, py_range; simpl.
    + by rewrite !length_fmap length_seq.
    + apply Forall_fmap, Forall_forall. intros x _. simpl.
      by rewrite !length_fmap length_seq.
  - by intros m ?%elem_of_nil.
  - intros p x H. by rewrite Hfree in H.
  - constructor.
  - constructor.
  - intros sq. split; [by intros ?%elem_of_nil|].
    intros (r & c & d & _ & -> & H). unfold readsb, first_seq in H.
    by rewrite Hfree in H.
Qed.

Lemma make_move_cases self row col :
  wf self →
  is_valid_move self row col = Ok true ∨
  is_valid_move self row col = Ok false.
Proof.
  intros Hwf. rewrite is_valid_move_spec //.
  destruct (_ && _); [by left|by right].
Qed.

Lemma inv_make_move self row col letter player_name k self' :
  inv self →
  make_move self row col letter player_name = Ok (k, self') →
  inv self'.
Proof.
  intros Hinv Hmv. pose proof (inv_wf _ Hinv) as Hwf.
  destruct (make_move_cases self row col Hwf) as [Hv|Hv].
  2:{ rewrite make_move_invalid // in Hmv. by simplify_eq. }
  destruct (make_move_valid self row col letter player_name Hwf Hv)
    as (news & E & Hnd & Hmem).
  simpl in E. rewrite E in Hmv. simplify_eq.
  apply is_valid_move_true in Hv as [Hv Hnone]; [|done].
  set (g := upd2 (board self) row col (Some letter)) in *.
  set (mv := Move.mk row col letter player_name _).
  set (self' := mkBoard _ _ _ _).
  assert (∀ p x, holdsb self' p x = holdsb (set_board self g) p x) as Hsame.
  { intros p x. by apply holdsb_ext. }
  assert (∀ p x, p ≠ (row, col) → holdsb self' p x = holdsb self p x) as Hne.
  { intros p x Hp. rewrite Hsame. by eapply holdsb_upd2_ne. }
  assert (∀ x, holdsb self' (row, col) x = bool_decide (Some letter = Some x))
    as Heq.
  { intros x. rewrite Hsame. by eapply holdsb_upd2_eq. }
  assert (∀ p x, holdsb self p x = true → p ≠ (row, col)) as Hold.
  { intros p x Hp ->. by rewrite holdsb_free in Hp. }
  split.
  - by apply wf_grid_upd2.
  - intros m [Hm| ->%list_elem_of_singleton]%elem_of_app.
    + pose proof (inv_hist _ Hinv m Hm) as Hh. rewrite Hne //. by eapply Hold.
    + unfold move_pos. simpl. rewrite Heq. by apply bool_decide_eq_true_2.
  - intros p x Hp. destruct (decide (p = (row, col))) as [->|Hp'].
    + exists mv. split; [|done]. apply elem_of_app. right. by left.
    + rewrite Hne // in Hp. destruct (inv_cover _ Hinv p x Hp) as (m & Hm & <-).
      exists m. split; [|done]. apply elem_of_app. by left.
  - unfold self'. cbn [move_history]. rewrite fmap_app. apply NoDup_app.
    split_and!; [by apply inv_hist_nodup| |by apply NoDup_singleton].
    intros p (m & -> & Hm)%list_elem_of_fmap Hq. simpl in Hq.
    apply list_elem_of_singleton in Hq.
    eapply Hold; [by apply (inv_hist _ Hinv m)|done].
  - by apply Hnd, inv_nodup.
  - intros sq. unfold self' at 1. cbn [sos_sequences].
    rewrite Hmem (inv_sos _ Hinv) elem_of_proposals.
    rewrite -(is_sos_ext (set_board self g) self') //.
    destruct (decide ((row, col) ∈ sq)) as [Hin|Hin].
    + split; [|tauto]. intros [H|[H _]]; [|done].
      destruct H as (r & c & d & Hd & -> & Hr). exists r, c, d.
      split_and!; [done..|].
      rewrite -Hr. apply readsb_agree. intros p x Hp.
      destruct (decide (p = (row, col))) as [->|Hp'];
        [|by eapply holdsb_upd2_ne].
      destruct (readsb_holds _ _ _ Hr Hp) as [y Hy]. by apply Hold in Hy.
    + rewrite (is_sos_agree self self' sq); [tauto|].
      intros p x Hp. apply Hne. by intros ->.
Qed.

(** ** [undo_last_move] *)

Lemma replay_spec m self :
  wf self → holdsb self (move_pos m) (Move.letter m) = true →
  ∃ news,
    replay m self =
      Ok (mkBoard (size self) (board self) (sos_sequences self ++ news)
                  (move_history self ++ [m])) ∧
    (NoDup (sos_sequences self) → NoDup (sos_sequences self ++ news)) ∧
    (∀ sq, sq ∈ sos_sequences self ++ news ↔
           sq ∈ sos_sequences self ∨
           sq ∈ proposals self (Move.row m) (Move.col m)).
Proof.
  intros Hwf Hm. apply holdsb_spec in Hm as [[Hr Hc] Hl]. simpl in *.
  unfold replay. rewrite (grid_set_upd2 (size self)) //=.
  rewrite upd2_id //.
  assert (set_board self (board self) = self) as -> by by destruct self.
  destruct (_check_sos_sequences_spec self (Move.row m) (Move.col m))
    as (news & E & Hnd & Hmem); [done|by apply _is_valid_pos_spec|].
  exists news. by rewrite E.
Qed.

Lemma replay_loop ms self :
  wf self →
  (∀ m, m ∈ ms → holdsb self (move_pos m) (Move.letter m) = true) →
  ∃ news,
    for_each ms replay self =
      Ok (mkBoard (size self) (board self) (sos_sequences self ++ news)
                  (move_history self ++ ms)) ∧
    (NoDup (sos_sequences self) → NoDup (sos_sequences self ++ news)) ∧
    (∀ sq, sq ∈ sos_sequences self ++ news ↔
           sq ∈ sos_sequences self ∨
           ∃ m, m ∈ ms ∧ sq ∈ proposals self (Move.row m) (Move.col m)).
Proof.
  revert self. induction ms as [|m ms IH]; intros self Hwf Hms.
  - exists []. simpl. rewrite !app_nil_r. destruct self.
    split_and!; [done..|]. intros sq. split; [tauto|].
    intros [?|(m & []%elem_of_nil & _)]. done.
  - destruct (replay_spec m self) as (news1 & E1 & Hnd1 & Hmem1);
      [done|apply Hms; by left|].
    simpl. rewrite E1 /=.
    set (self1 := mkBoard _ _ _ _).
    destruct (IH self1) as (news & E & Hnd & Hmem); [done| |].
    { intros m' Hm'. rewrite (holdsb_ext self self1) //. apply Hms. by right. }
    assert (∀ r c, proposals self1 r c = proposals self r c) as Hprop.
    { intros r c. by apply proposals_ext. }
    setoid_rewrite Hprop in Hmem.
    rewrite E. exists (news1 ++ news). unfold self1 in *. simpl in *.
    rewrite -!app_assoc in Hnd, Hmem |- *. simpl.
    split_and!; [done|by auto|].
    intros sq. rewrite Hmem Hmem1. split.
    + intros [[?|?]|(m' & Hm' & Hp)]; [by left|right; exists m|right; exists m'].
      * split; [by left|done].
      * split; [by right|done].
    + intros [?|(m' & [->|Hm']%elem_of_cons & Hp)]; [by left; left|by left; right|].
      right. by exists m'.
Qed.

Lemma undo_last_move_empty self :
  move_history self = [] → undo_last_move self = Ok (None, self).
Proof. intros H. unfold undo_last_move. by rewrite H. Qed.

Lemma undo_last_move_spec self popped m :
  inv self → move_history self = popped ++ [m] →
  ∃ sqs,
    let self' := mkBoard (size self)
                   (upd2 (board self) (Move.row m) (Move.col m) None)
                   sqs popped in
    undo_last_move self = Ok (Some m, self') ∧ inv self'.
Proof.
  intros Hinv Hh. pose proof (inv_wf _ Hinv) as Hwf.
  assert (holdsb self (move_pos m) (Move.letter m) = true) as Hm.
  { apply (inv_hist _ Hinv). rewrite Hh. apply elem_of_app. right. by left. }
  pose proof Hm as [[Hr Hc] Hl]%holdsb_spec. simpl in *.
  assert (_is_valid_pos self (Move.row m) (Move.col m) = true) as Hv
    by by apply _is_valid_pos_spec.
  unfold undo_last_move. rewrite Hh last_snoc removelast_last.
  rewrite (grid_set_upd2 (size self)) //=.
  set (g := upd2 (board self) (Move.row m) (Move.col m) None).
  set (self0 := mkBoard (size self) g [] []).
  pose proof (inv_hist_nodup _ Hinv) as Hnd. rewrite Hh fmap_app in Hnd.
  apply NoDup_app in Hnd as (Hnd1 & Hnd2 & _).
  assert (∀ p x, p ≠ move_pos m → holdsb self0 p x = holdsb self p x) as Hne.
  { intros p x Hp. rewrite (holdsb_ext (set_board self g) self0) //.
    by eapply holdsb_upd2_ne. }
  assert (∀ x, holdsb self0 (move_pos m) x = false) as Heq.
  { intros x. rewrite (holdsb_ext (set_board self g) self0) //.
    unfold move_pos. rewrite (holdsb_upd2_eq self g _ _ None) //. }
  assert (∀ m', m' ∈ popped → move_pos m' ≠ move_pos m) as Hpos.
  { intros m' Hm' Heq'. eapply (Hnd2 (move_pos m')).
    - apply list_elem_of_fmap. by exists m'.
    - rewrite Heq'. by left. }
  destruct (replay_loop popped self0) as (news & E & Hnd & Hmem).
  { by apply wf_grid_upd2. }
  { intros m' Hm'. rewrite Hne; [|by apply Hpos].
    apply (inv_hist _ Hinv). rewrite Hh. apply elem_of_app. by left. }
  rewrite E /=. exists news. split; [done|].
  set (self' := mkBoard _ _ _ _).
  assert (∀ p x, holdsb self' p x = holdsb self0 p x) as Hsame.
  { intros p x. by apply holdsb_ext. }
  assert (∀ p x, holdsb self' p x = true →
                 ∃ m', m' ∈ popped ∧ move_pos m' = p) as Hcover.
  { intros p x Hp. rewrite Hsame in Hp.
    destruct (decide (p = move_pos m)) as [->|Hp']; [by rewrite Heq in Hp|].
    rewrite Hne // in Hp.
    destruct (inv_cover _ Hinv p x Hp) as (m' & Hm' & <-).
    rewrite Hh in Hm'. apply elem_of_app in Hm' as [?|Hm'];
      [by exists m'|].
    apply list_elem_of_singleton in Hm'. by subst m'. }
  split.
  - by apply wf_grid_upd2.
  - intros m' Hm'. rewrite Hsame Hne; [|by apply Hpos].
    apply (inv_hist _ Hinv). rewrite Hh. apply elem_of_app. by left.
  - done.
  - done.
  - by apply Hnd; constructor.
  - intros sq. unfold self' at 1. cbn [sos_sequences]. simpl in Hmem.
    rewrite Hmem. split.
    + intros [[]%elem_of_nil|(m' & Hm' & [Hs _]%elem_of_proposals)].
      by rewrite (is_sos_ext self0 self').
    + intros Hs. right. pose proof Hs as (r & c & d & Hd & -> & Hrd).
      assert (holdsb self' (r, c) "S" = true) as Hp.
      { unfold readsb, first_seq in Hrd. by destruct (holdsb self' (r, c) "S"). }
      destruct (Hcover _ _ Hp) as (m' & Hm' & Hpm). exists m'. split; [done|].
      apply elem_of_proposals. split; [by rewrite -(is_sos_ext self0 self')|].
      injection Hpm as -> ->. by left.
Qed.

Lemma inv_undo_last_move self r self' :
  inv self → undo_last_move self = Ok (r, self') → inv self'.
Proof.
  intros Hinv Hu.
  destruct (move_history self) as [|m0 h] eqn:Hh using rev_ind.
  - rewrite undo_last_move_empty // in Hu. by simplify_eq.
  - destruct (undo_last_move_spec self h m0 Hinv Hh) as (sqs & E & Hi).
    simpl in E. rewrite E in Hu. by simplify_eq.
Qed.

(** ** Reachable boards *)

(** The boards a driver can build: a new board, then any sequence of
    [make_move] and [undo_last_move] calls. *)
Inductive reachable : SOSBoard → Prop :=
| reach_new n : reachable (new n)
| reach_make_move self row col letter player_name k self' :
    reachable self →
    make_move self row col letter player_name = Ok (k, self') →
    reachable self'
| reach_undo self r self' :
    reachable self →
    undo_last_move self = Ok (r, self') →
    reachable self'.

Lemma reachable_inv self : reachable self → inv self.
Proof.
  induction 1 as [n|self row col letter player_name k self' _ IH Hm
                 |self r self' _ IH Hu].
  - apply inv_new.
  - by eapply inv_make_move.
  - by eapply inv_undo_last_move.
Qed.

Lemma reachable_wf self : reachable self → wf self.
Proof. intros H. by apply inv_wf, reachable_inv. Qed.

(** A game: the moves [(row, col, letter)] played in turn from [self]. *)
Definition play (self : SOSBoard) (moves : list (Z * Z * string)) : res SOSBoard :=
  for_each moves
    (fun mv self => r ← make_move self mv.1.1 mv.1.2 mv.2 ""; Ok r.2) self.

(** The board a game leaves (a new empty board if the game raises). *)
Definition board_after (r : res Enhanced.SOSBoard) : Enhanced.SOSBoard :=
  match r with
  | Ok self => self
  | Raise _ => Enhanced.new 0
  end.

Lemma reachable_play moves self self' :
  reachable self → play self moves = Ok self' → reachable self'.
Proof.
  unfold play. revert self.
  induction moves as [|mv moves IH]; intros self Hr; simpl.
  - by intros [= <-].
  - destruct (make_move self mv.1.1 mv.1.2 mv.2 "") as [[k self1]|e] eqn:E;
      [|done].
    simpl. apply IH. by eapply reach_make_move.
Qed.

Lemma board_after_play_reachable moves :
  reachable (board_after (play (Enhanced.new 5) moves)).
Proof.
  destruct (play (Enhanced.new 5) moves) as [self|e] eqn:E; simpl.
  - eapply reachable_play; [apply (reach_new 5)|exact E].
  - apply reach_new.
Qed.

End enhanced_board.

(** * The base board: facts *)

Section base_board.
Import Base.
Implicit Types (self : SOSBoard) (row col : Z) (sq : sequence).

Definition base_wf self : Prop := wf_grid (size self) (board self).

Lemma base_is_valid_pos_spec self row col :
  _is_valid_pos self row col = true ↔ 0 ≤ row < size self ∧ 0 ≤ col < size self.
Proof. unfold _is_valid_pos. rewrite !andb_true_iff !Z.leb_le !Z.ltb_lt. lia. Qed.

Lemma base_grid_get_valid self row col :
  base_wf self → _is_valid_pos self row col = true →
  ∃ c, lookup2 (board self) row col = Some c ∧
       grid_get (board self) row col = Ok c.
Proof.
  intros Hwf Hv. apply base_is_valid_pos_spec in Hv as [Hr Hc].
  destruct (wf_grid_lookup2 _ _ row col Hwf Hr Hc) as [c E].
  exists c. split; [done|]. apply grid_get_lookup2; [lia|lia|done].
Qed.

Lemma base_pattern_total self r1 c1 r2 c2 x y :
  base_wf self → ∃ ok, pattern self r1 c1 r2 c2 x y = Ok ok.
Proof.
  intros Hwf. unfold pattern.
  destruct (_is_valid_pos self r1 c1) eqn:E1; [|by eexists].
  destruct (_is_valid_pos self r2 c2) eqn:E2; [|by eexists]. cbn [andb].
  destruct (base_grid_get_valid self r1 c1 Hwf E1) as (a & _ & ->).
  destruct (base_grid_get_valid self r2 c2 Hwf E2) as (b & _ & ->).
  simpl. case_bool_decide; by eexists.
Qed.

(** [st'] extends [st]: same grid, [extra] appended to the recorded
    sequences, and as many points added. *)
Definition extends (st st' : Z * SOSBoard) (extra : list sequence) : Prop :=
  st'.2 = mkBoard (size st.2) (board st.2) (sos_sequences st.2 ++ extra) ∧
  st'.1 = st.1 + Z.of_nat (length extra).

Lemma extends_refl st : extends st st [].
Proof.
  destruct st as [k self]. split; simpl; [|lia].
  rewrite app_nil_r. by destruct self.
Qed.

Lemma extends_trans st1 st2 st3 e1 e2 :
  extends st1 st2 e1 → extends st2 st3 e2 → extends st1 st3 (e1 ++ e2).
Proof.
  intros [E1 K1] [E2 K2]. split.
  - rewrite E2 E1 /=. by rewrite app_assoc.
  - rewrite K2 K1 length_app. lia.
Qed.

Lemma extends_wf st st' extra : extends st st' extra → base_wf st.2 → base_wf st'.2.
Proof. intros [E _]. unfold base_wf. by rewrite E. Qed.

Lemma add_sequence_extends self sq :
  ∃ extra, extends (0, self) (add_sequence self sq) extra.
Proof.
  unfold add_sequence. case_bool_decide.
  - exists []. apply extends_refl.
  - exists [sq]. by split.
Qed.

(** Each of the three checks returns, with the count of what it added. *)
Definition counting (check : SOSBoard → res (Z * SOSBoard)) : Prop :=
  ∀ self, base_wf self →
    ∃ r extra, check self = Ok r ∧ extends (0, self) r extra.

Lemma counting_of_pattern (cond : SOSBoard → res bool) (sq : sequence) :
  (∀ self, base_wf self → ∃ ok, cond self = Ok ok) →
  counting (fun self =>
              ok ← cond self;
              Ok (if (ok : bool) then add_sequence self sq else (0, self))).
Proof.
  intros Hc self Hwf. destruct (Hc self Hwf) as [ok ->]. simpl.
  destruct ok.
  - destruct (add_sequence_extends self sq) as [extra H]. by eexists _, _.
  - exists (0, self), []. split; [done|]. apply extends_refl.
Qed.

Lemma _check_sos_middle_counting row col dr dc :
  counting (fun self => _check_sos_middle self row col dr dc).
Proof.
  apply (counting_of_pattern
    (fun self => pattern self (row - dr) (col - dc) (row + dr) (col + dc) "S" "S")).
  intros. by apply base_pattern_total.
Qed.

Lemma _check_sos_start_counting row col dr dc :
  counting (fun self => _check_sos_start self row col dr dc).
Proof.
  apply (counting_of_pattern
    (fun self => pattern self (row + dr) (col + dc)
                         (row + 2 * dr) (col + 2 * dc) "O" "S")).
  intros. by apply base_pattern_total.
Qed.

Lemma _check_sos_end_counting row col dr dc :
  counting (fun self => _check_sos_end self row col dr dc).
Proof.
  apply (counting_of_pattern
    (fun self => pattern self (row - dr) (col - dc)
                         (row - 2 * dr) (col - 2 * dc) "O" "S")).
  intros. by apply base_pattern_total.
Qed.

Lemma add_points_extends cond check st :
  counting check → base_wf st.2 →
  ∃ st' extra, add_points cond check st = Ok st' ∧ extends st st' extra.
Proof.
  intros Hc Hwf. unfold add_points. destruct cond.
  - destruct (Hc st.2 Hwf) as ([k self'] & extra & -> & [E K]). simpl in *.
    exists (st.1 + k, self'), extra. split; [done|]. split; simpl; [done|lia].
  - exists st, []. split; [done|]. apply extends_refl.
Qed.

Lemma formations_loop (letter : string) row col ds st :
  base_wf st.2 →
  ∃ r extra,
    for_each ds
      (fun d st =>
         st ← add_points (bool_decide (letter = "O"))
                (fun self => _check_sos_middle self row col d.1 d.2) st;
         st ← add_points (bool_decide (letter = "S"))
                (fun self => _check_sos_start self row col d.1 d.2) st;
         add_points (bool_decide (letter = "S"))
                (fun self => _check_sos_end self row col d.1 d.2) st)
      st = Ok r ∧
    extends st r extra.
Proof.
  revert st. induction ds as [|d ds IH]; intros st Hwf.
  - exists st, []. split; [done|]. apply extends_refl.
  - cbn [for_each].
    destruct (add_points_extends (bool_decide (letter = "O"))
                (fun self => _check_sos_middle self row col d.1 d.2) st)
      as (st1 & e1 & -> & H1); [apply _check_sos_middle_counting|done|].
    cbn [mbind res_bind].
    destruct (add_points_extends (bool_decide (letter = "S"))
                (fun self => _check_sos_start self row col d.1 d.2) st1)
      as (st2 & e2 & -> & H2);
      [apply _check_sos_start_counting|by eapply extends_wf|].
    cbn [mbind res_bind].
    destruct (add_points_extends (bool_decide (letter = "S"))
                (fun self => _check_sos_end self row col d.1 d.2) st2)
      as (st3 & e3 & -> & H3);
      [apply _check_sos_end_counting|by eauto using extends_wf|].
    cbn [mbind res_bind].
    destruct (IH st3) as (r & e & -> & H); [by eauto using extends_wf|].
    exists r, (((e1 ++ e2) ++ e3) ++ e). split; [done|].
    eauto using extends_trans.
Qed.

Lemma check_sos_formations_extends self row col :
  base_wf self → _is_valid_pos self row col = true →
  ∃ r extra, check_sos_formations self row col = Ok r ∧ extends (0, self) r extra.
Proof.
  intros Hwf Hv. unfold check_sos_formations.
  destruct (base_grid_get_valid self row col Hwf Hv) as (letter & _ & ->).
  by apply (formations_loop letter row col directions (0, self)).
Qed.

Lemma base_is_valid_move_true self row col :
  base_wf self →
  is_valid_move self row col = Ok true ↔
  _is_valid_pos self row col = true ∧ lookup2 (board self) row col = Some "".
Proof.
  intros Hwf. unfold is_valid_move.
  change ((0 <=? row) && (row <? size self) && (0 <=? col) && (col <? size self))
    with (_is_valid_pos self row col).
  destruct (_is_valid_pos self row col) eqn:Hv; [|by split; [|intros []]].
  destruct (base_grid_get_valid self row col Hwf Hv) as (c & L & ->).
  simpl. rewrite L. split.
  - intros [= ?%bool_decide_eq_true]. by subst.
  - intros [_ [= ->]]. by rewrite bool_decide_eq_true_2.
Qed.

Lemma base_make_move_invalid self row col letter :
  is_valid_move self row col = Ok false →
  make_move self row col letter = Ok (0, self).
Proof. intros H. unfold make_move. by rewrite H. Qed.

Lemma base_make_move_valid self row col letter :
  base_wf self → is_valid_move self row col = Ok true →
  ∃ k extra,
    make_move self row col letter =
      Ok (k, mkBoard (size self) (upd2 (board self) row col letter)
                     (sos_sequences self ++ extra)) ∧
    k = Z.of_nat (length extra).
Proof.
  intros Hwf Hv. unfold make_move. rewrite Hv /=.
  apply base_is_valid_move_true in Hv as [Hv Hnone]; [|done].
  destruct (proj1 (base_is_valid_pos_spec _ _ _) Hv) as [Hr Hc].
  rewrite (grid_set_upd2 (size self)) //=.
  destruct (check_sos_formations_extends
              (set_board self (upd2 (board self) row col letter)) row col)
    as ([k self'] & extra & -> & [E K]); [by apply wf_grid_upd2|done|].
  simpl in *. exists k, extra. by rewrite E K.
Qed.

Lemma base_wf_new n : base_wf (new n).
Proof.
  split; unfold new, py_range; simpl.
  - by rewrite !length_fmap length_seq.
  - apply Forall_fmap, Forall_forall. intros x _. simpl.
    by rewrite !length_fmap length_seq.
Qed.

End base_board.

(** ** The recorded sequences of the base board *)

Section base_sequences.
Import Base.
Implicit Types (self : SOSBoard) (row col : Z) (sq : sequence).

(** A sequence along one of the four directions of the base board, listed
    from its first cell in scan order. *)
Definition canonical sq : Prop :=
  ∃ r c d, d ∈ directions ∧ sq = first_seq r c d.

(** The recorded sequences are canonical and none is recorded twice. *)
Definition tidy self : Prop :=
  NoDup (sos_sequences self) ∧ Forall canonical (sos_sequences self).

(** [check] keeps the recorded sequences tidy. *)
Definition keeps_tidy (check : SOSBoard → res (Z * SOSBoard)) : Prop :=
  ∀ self r, check self = Ok r → tidy self → tidy r.2.

Lemma add_sequence_tidy self sq :
  canonical sq → tidy self → tidy (add_sequence self sq).2.
Proof.
  intros Hc [Hnd Hall]. unfold add_sequence. case_bool_decide as Hin; [done|].
  split; simpl.
  - apply NoDup_app. split_and!; [done| |apply NoDup_singleton].
    intros x Hx ->%list_elem_of_singleton. done.
  - apply Forall_app. split; [done|]. by apply Forall_singleton.
Qed.

Lemma keeps_tidy_of_pattern (cond : SOSBoard → res bool) sq :
  canonical sq →
  keeps_tidy (fun self =>
                ok ← cond self;
                Ok (if (ok : bool) then add_sequence self sq else (0, self))).
Proof.
  intros Hc self r Hr Ht. destruct (cond self) as [ok|]; [|done].
  simpl in Hr. injection Hr as <-. destruct ok; [|done].
  by apply add_sequence_tidy.
Qed.

Lemma _check_sos_middle_tidy row col d :
  d ∈ directions →
  keeps_tidy (fun self => _check_sos_middle self row col d.1 d.2).
Proof.
  intros Hd.
  apply (keeps_tidy_of_pattern
    (fun self => pattern self (row - d.1) (col - d.2) (row + d.1) (col + d.2)
                         "S" "S")).
  exists (row - d.1), (col - d.2), d. split; [done|]. unfold first_seq. seq_eq.
Qed.

Lemma _check_sos_start_tidy row col d :
  d ∈ directions →
  keeps_tidy (fun self => _check_sos_start self row col d.1 d.2).
Proof.
  intros Hd.
  apply (keeps_tidy_of_pattern
    (fun self => pattern self (row + d.1) (col + d.2)
                         (row + 2 * d.1) (col + 2 * d.2) "O" "S")).
  by exists row, col, d.
Qed.

Lemma _check_sos_end_tidy row col d :
  d ∈ directions →
  keeps_tidy (fun self => _check_sos_end self row col d.1 d.2).
Proof.
  intros Hd.
  apply (keeps_tidy_of_pattern
    (fun self => pattern self (row - d.1) (col - d.2)
                         (row - 2 * d.1) (col - 2 * d.2) "O" "S")).
  exists (row - 2 * d.1), (col - 2 * d.2), d. split; [done|].
  unfold first_seq. seq_eq.
Qed.

Lemma add_points_tidy cond check st st' :
  keeps_tidy check → add_points cond check st = Ok st' →
  tidy st.2 → tidy st'.2.
Proof.
  intros Hc. unfold add_points. destruct cond; [|by intros [= <-]].
  destruct (check st.2) as [[k self']|] eqn:E; [|done].
  simpl. intros [= <-] Ht. by apply (Hc _ _ E).
Qed.

Lemma formations_loop_tidy (letter : string) row col ds st st' :
  (∀ d, d ∈ ds → d ∈ directions) →
  for_each ds
    (fun d st =>
       st ← add_points (bool_decide (letter = "O"))
              (fun self => _check_sos_middle self row col d.1 d.2) st;
       st ← add_points (bool_decide (letter = "S"))
              (fun self => _check_sos_start self row col d.1 d.2) st;
       add_points (bool_decide (letter = "S"))
              (fun self => _check_sos_end self row col d.1 d.2) st)
    st = Ok st' →
  tidy st.2 → tidy st'.2.
Proof.
  revert st. induction ds as [|d ds IH]; intros st Hds; [by intros [= <-]|].
  cbn [for_each].
  assert (d ∈ directions) as Hd by (apply Hds; by left).
  destruct (add_points (bool_decide (letter = "O")) _ st) as [st1|] eqn:E1;
    [|done]. cbn [mbind res_bind].
  destruct (add_points (bool_decide (letter = "S")) _ st1) as [st2|] eqn:E2;
    [|done]. cbn [mbind res_bind].
  destruct (add_points (bool_decide (letter = "S")) _ st2) as [st3|] eqn:E3;
    [|done]. cbn [mbind res_bind].
  intros Hloop Ht. refine (IH st3 _ Hloop _); [by intros; apply Hds; right|].
  eapply add_points_tidy; [by apply _check_sos_end_tidy|exact E3|].
  eapply add_points_tidy; [by apply _check_sos_start_tidy|exact E2|].
  eapply add_points_tidy; [by apply _check_sos_middle_tidy|exact E1|done].
Qed.

Lemma make_move_tidy self row col letter k self' :
  make_move self row col letter = Ok (k, self') → tidy self → tidy self'.
Proof.
  unfold make_move. destruct (is_valid_move self row col) as [[|]|]; simpl;
    [|by intros [= _ <-]|done].
  destruct (grid_set (board self) row col letter) as [g|]; [|done]. simpl.
  unfold check_sos_formations.
  destruct (grid_get (board (set_board self g)) row col) as [l|]; [|done].
  cbn [mbind res_bind]. intros Hloop Ht.
  by apply (formations_loop_tidy l row col directions _ _ (λ d H, H) Hloop).
Qed.

(** The boards a driver can build from a new board with [make_move]. *)
Inductive base_reachable : SOSBoard → Prop :=
| base_reach_new n : base_reachable (new n)
| base_reach_make_move self row col letter k self' :
    base_reachable self →
    make_move self row col letter = Ok (k, self') →
    base_reachable self'.

Lemma base_reachable_tidy self : base_reachable self → tidy self.
Proof.
  induction 1 as [n|self row col letter k self' _ IH Hm].
  - split; constructor.
  - by eapply make_move_tidy.
Qed.

(** Two canonical sequences over the same three positions are equal. *)
Lemma canonical_same_cells sq1 sq2 :
  canonical sq1 → canonical sq2 → sq1 ≡ₚ sq2 → sq1 = sq2.
Proof.
  intros (r & c & d & Hd & ->) (r' & c' & d' & Hd' & ->) Hp.
  assert ((r, c) ∈ first_seq r' c' d') as H1
    by (rewrite -Hp; by left).
  assert ((r', c') ∈ first_seq r c d) as H2
    by (rewrite Hp; by left).
  assert ((r + 2 * d.1, c + 2 * d.2) ∈ first_seq r' c' d') as H3
    by (rewrite -Hp; unfold first_seq; by right; right; left).
  clear Hp. unfold first_seq in *. unfold directions in Hd, Hd'.
  rewrite !elem_of_cons in Hd, Hd', H1, H2, H3.
  destruct Hd as [->|[->|[->|[->|Hd]]]]; [..|by apply elem_of_nil in Hd];
    (destruct Hd' as [->|[->|[->|[->|Hd']]]]; [..|by apply elem_of_nil in Hd']);
    simpl in *;
    (destruct H1 as [H1|[H1|[H1|H1]]]; [..|by apply elem_of_nil in H1]);
    (destruct H2 as [H2|[H2|[H2|H2]]]; [..|by apply elem_of_nil in H2]);
    (destruct H3 as [H3|[H3|[H3|H3]]]; [..|by apply elem_of_nil in H3]);
    injection H1 as H1a H1b; injection H2 as H2a H2b;
    injection H3 as H3a H3b; seq_eq.
Qed.

(** On a reachable base board no line of three cells is recorded twice,
    whatever the direction it was found from. *)
Lemma base_sequences_once self i j sq1 sq2 :
  base_reachable self →
  sos_sequences self !! i = Some sq1 →
  sos_sequences self !! j = Some sq2 →
  sq1 ≡ₚ sq2 → i = j.
Proof.
  intros [Hnd Hall]%base_reachable_tidy Hi Hj Hp.
  rewrite Forall_forall in Hall.
  assert (sq1 = sq2) as <-.
  { apply canonical_same_cells; [..|done]; apply Hall;
      by eapply list_elem_of_lookup_2. }
  by eapply NoDup_lookup.
Qed.

End base_sequences.

(** * The boards: the properties of the specification *)

Section board_properties.

(** A position a board rejects: off the board, or on an occupied cell. *)
Definition enhanced_rejects (self : Enhanced.SOSBoard) (row col : Z) : Prop :=
  Enhanced._is_valid_pos self row col = false ∨
  ∃ x, grid_get (Enhanced.board self) row col = Ok (Some x).

Definition base_rejects (self : Base.SOSBoard) (row col : Z) : Prop :=
  Base._is_valid_pos self row col = false ∨
  ∃ x, x ≠ "" ∧ grid_get (Base.board self) row col = Ok x.

Lemma enhanced_rejects_invalid self row col :
  enhanced_rejects self row col → Enhanced.is_valid_move self row col = Ok false.
Proof.
  unfold Enhanced.is_valid_move.
  change ((0 <=? row) && (row <? Enhanced.size self) && (0 <=? col)
          && (col <? Enhanced.size self))
    with (Enhanced._is_valid_pos self row col).
  intros [->|[x Hx]]; [done|].
  destruct (Enhanced._is_valid_pos self row col); [|done].
  by rewrite Hx.
Qed.

Lemma base_rejects_invalid self row col :
  base_rejects self row col → Base.is_valid_move self row col = Ok false.
Proof.
  unfold Base.is_valid_move.
  change ((0 <=? row) && (row <? Base.size self) && (0 <=? col)
          && (col <? Base.size self))
    with (Base._is_valid_pos self row col).
  intros [->|(x & Hne & Hx)]; [done|].
  destruct (Base._is_valid_pos self row col); [|done].
  rewrite Hx /=. by rewrite bool_decide_eq_false_2.
Qed.

(** C4. On a position that is out of bounds or occupied, [make_move]
    returns 0 and the board after the call is the board before it: the
    grid, the recorded sequences and the move history are unchanged.  This
    holds for the enhanced board and for the base board. *)
Theorem make_move_rejected_no_effect
    (e : Enhanced.SOSBoard) (b : Base.SOSBoard) (row col : Z)
    (letter player_name : string) :
  (enhanced_rejects e row col →
   Enhanced.make_move e row col letter player_name = Ok (0, e)) ∧
  (base_rejects b row col →
   Base.make_move b row col letter = Ok (0, b)).
Proof.
  split; intros H.
  - by apply make_move_invalid, enhanced_rejects_invalid.
  - by apply base_make_move_invalid, base_rejects_invalid.
Qed.

(** A board with ['S'] at [(2,1)] and [(2,3)]. *)
Definition two_s : list (Z * Z * string) := [(2, 1, "S"); (2, 3, "S")].

Definition enhanced_two_s : Enhanced.SOSBoard :=
  Enhanced.mkBoard 5
    [[None; None; None; None; None];
     [None; None; None; None; None];
     [None; Some "S"; None; Some "S"; None];
     [None; None; None; None; None];
     [None; None; None; None; None]]
    []
    [Enhanced.Move.mk 2 1 "S" "" 0; Enhanced.Move.mk 2 3 "S" "" 0].

Lemma enhanced_two_s_played : play (Enhanced.new 5) two_s = Ok enhanced_two_s.
Proof. reflexivity. Qed.

Lemma enhanced_two_s_reachable : reachable enhanced_two_s.
Proof.
  eapply reachable_play; [apply (reach_new 5)|apply enhanced_two_s_played].
Qed.

Lemma make_move_rejected_no_effect_witness :
  Enhanced.make_move enhanced_two_s 2 1 "O" "AI" = Ok (0, enhanced_two_s) ∧
  Enhanced.make_move enhanced_two_s 5 0 "O" "AI" = Ok (0, enhanced_two_s) ∧
  Base.make_move (Base.new 5) (-1) 2 "S" = Ok (0, Base.new 5).
Proof.
  split; [|split].
  - apply (make_move_rejected_no_effect enhanced_two_s (Base.new 5) 2 1 "O" "AI").
    right. by exists "S".
  - apply (make_move_rejected_no_effect enhanced_two_s (Base.new 5) 5 0 "O" "AI").
    by left.
  - apply (make_move_rejected_no_effect enhanced_two_s (Base.new 5) (-1) 2 "S" "").
    by left.
Defined.

(** C7. On a valid placement [make_move] returns, and the number it
    returns is the number of sequences the call appended to
    [sos_sequences]: the length after the call minus the length before.
    The sequences recorded before the call stay in place.  This holds for
    the enhanced board and for the base board. *)
Theorem make_move_returns_number_added
    (e : Enhanced.SOSBoard) (b : Base.SOSBoard) (row col : Z)
    (letter player_name : string) :
  (wf e → Enhanced.is_valid_move e row col = Ok true →
   ∃ k e',
     Enhanced.make_move e row col letter player_name = Ok (k, e') ∧
     Enhanced.sos_sequences e `prefix_of` Enhanced.sos_sequences e' ∧
     k = Z.of_nat (length (Enhanced.sos_sequences e'))
         - Z.of_nat (length (Enhanced.sos_sequences e))) ∧
  (base_wf b → Base.is_valid_move b row col = Ok true →
   ∃ k b',
     Base.make_move b row col letter = Ok (k, b') ∧
     Base.sos_sequences b `prefix_of` Base.sos_sequences b' ∧
     k = Z.of_nat (length (Base.sos_sequences b'))
         - Z.of_nat (length (Base.sos_sequences b))).
Proof.
  split; intros Hwf Hv.
  - destruct (make_move_valid e row col letter player_name Hwf Hv)
      as (news & E & _). simpl in E.
    eexists _, _. split; [exact E|]. simpl. split; [by exists news|].
    rewrite length_app. lia.
  - destruct (base_make_move_valid b row col letter Hwf Hv)
      as (k & extra & E & ->).
    eexists _, _. split; [exact E|]. simpl. split; [by exists extra|].
    rewrite length_app. lia.
Qed.

Lemma make_move_returns_number_added_witness :
  (∃ k e',
     Enhanced.make_move enhanced_two_s 2 2 "O" "AI" = Ok (k, e') ∧
     Enhanced.sos_sequences enhanced_two_s `prefix_of` Enhanced.sos_sequences e' ∧
     k = Z.of_nat (length (Enhanced.sos_sequences e'))
         - Z.of_nat (length (Enhanced.sos_sequences enhanced_two_s))) ∧
  (∃ k b',
     Base.make_move (Base.new 5) 2 2 "O" = Ok (k, b') ∧
     Base.sos_sequences (Base.new 5) `prefix_of` Base.sos_sequences b' ∧
     k = Z.of_nat (length (Base.sos_sequences b'))
         - Z.of_nat (length (Base.sos_sequences (Base.new 5)))).
Proof.
  split.
  - apply (make_move_returns_number_added enhanced_two_s (Base.new 5) 2 2 "O" "AI").
    + apply reachable_wf, enhanced_two_s_reachable.
    + reflexivity.
  - apply (make_move_returns_number_added enhanced_two_s (Base.new 5) 2 2 "O" "AI").
    + apply base_wf_new.
    + reflexivity.
Defined.

(** The same game on the base board. *)
Definition base_play (self : Base.SOSBoard) (moves : list (Z * Z * string))
  : res Base.SOSBoard :=
  for_each moves
    (fun mv self => r ← Base.make_move self mv.1.1 mv.1.2 mv.2; Ok r.2) self.

Definition base_two_s : Base.SOSBoard :=
  Base.mkBoard 5
    [[""; ""; ""; ""; ""];
     [""; ""; ""; ""; ""];
     [""; "S"; ""; "S"; ""];
     [""; ""; ""; ""; ""];
     [""; ""; ""; ""; ""]]
    [].

Lemma base_two_s_played : base_play (Base.new 5) two_s = Ok base_two_s.
Proof. reflexivity. Qed.

(** C2. On an empty 5x5 board with ['S'] placed at [(2,1)] and [(2,3)],
    placing ['O'] at [(2,2)] records the line [(2,1),(2,2),(2,3)].  The base
    board returns 1.  The enhanced board returns 2: it scans eight
    directions, finds the line once from each end, and records it in both
    orders. *)
Theorem scenario_o_between_two_s :
  (∃ b',
     Base.make_move base_two_s 2 2 "O" = Ok (1, b') ∧
     Base.sos_sequences b' = [[(2, 1); (2, 2); (2, 3)]]) ∧
  (∃ e',
     Enhanced.make_move enhanced_two_s 2 2 "O" "" = Ok (2, e') ∧
     Enhanced.sos_sequences e' =
       [[(2, 3); (2, 2); (2, 1)]; [(2, 1); (2, 2); (2, 3)]]).
Proof. split; eexists; split; reflexivity. Qed.

(** C1. On the enhanced board a line of three cells can be recorded
    twice: after ['S'] at [(2,1)] and [(2,3)] and ['O'] at [(2,2)], a
    reachable board, [sos_sequences] holds the line [(2,1),(2,2),(2,3)] in
    both orders, two entries over the same three positions. *)
Theorem enhanced_line_recorded_twice :
  ∃ self sq1 sq2,
    reachable self ∧
    Enhanced.sos_sequences self = [sq1; sq2] ∧
    sq1 ≡ₚ sq2 ∧ sq1 ≠ sq2.
Proof.
  destruct (Enhanced.make_move enhanced_two_s 2 2 "O" "") as [[k self]|] eqn:E;
    [|discriminate E].
  exists self, [(2, 3); (2, 2); (2, 1)], [(2, 1); (2, 2); (2, 3)].
  split_and!.
  - eapply reach_make_move; [apply enhanced_two_s_reachable|exact E].
  - vm_compute in E. by injection E as <- <-.
  - apply (Permutation_rev [(2, 3); (2, 2); (2, 1)]).
  - discriminate.
Qed.

(** The ordered lists themselves are never repeated on a reachable
    enhanced board, and they are exactly the S-O-S lines of the grid, each
    read from either end. *)
Lemma reachable_sos_sequences self :
  reachable self →
  NoDup (Enhanced.sos_sequences self) ∧
  ∀ sq, sq ∈ Enhanced.sos_sequences self ↔ is_sos self sq.
Proof.
  intros H%reachable_inv. split; [apply (inv_nodup _ H)|apply (inv_sos _ H)].
Qed.

(** On a reachable enhanced board every recorded sequence is recorded in
    the opposite order too: each line of three cells counts twice. *)
Lemma enhanced_sequences_both_orders self sq :
  reachable self →
  sq ∈ Enhanced.sos_sequences self →
  reverse sq ∈ Enhanced.sos_sequences self ∧ reverse sq ≠ sq.
Proof.
  intros Hinv%reachable_inv Hin.
  apply (inv_sos _ Hinv) in Hin as (r & c & d & Hd & -> & Hr).
  split.
  - apply (inv_sos _ Hinv).
    exists (r + 2 * d.1), (c + 2 * d.2), (- d.1, - d.2). split_and!.
    + unfold Enhanced.directions in *. rewrite !elem_of_cons in Hd |- *.
      destruct Hd as [->|[->|[->|[->|[->|[->|[->|[->|Hd]]]]]]]]; simpl; auto 10.
      by apply elem_of_nil in Hd.
    + unfold first_seq. cbn [reverse rev_append fst snd]. seq_eq.
    + unfold readsb, first_seq in *. cbn [reverse rev_append].
      destruct (holdsb self (r, c) "S"), (holdsb self (r + d.1, c + d.2) "O"),
        (holdsb self (r + 2 * d.1, c + 2 * d.2) "S"); done.
  - unfold first_seq. cbn [reverse rev_append]. intros [= H1 H2].
    unfold Enhanced.directions in Hd. rewrite !elem_of_cons in Hd.
    destruct Hd as [->|[->|[->|[->|[->|[->|[->|[->|Hd]]]]]]]]; simpl in *;
      try lia.
    by apply elem_of_nil in Hd.
Qed.

Lemma enhanced_sequences_both_orders_witness :
  reverse [(2, 1); (2, 2); (2, 3)]
    ∈ Enhanced.sos_sequences
        (board_after (play (Enhanced.new 5) (two_s ++ [(2, 2, "O")]))) ∧
  reverse [(2, 1); (2, 2); (2, 3)] ≠ [(2, 1); (2, 2); (2, 3)].
Proof.
  apply (enhanced_sequences_both_orders
           (board_after (play (Enhanced.new 5) (two_s ++ [(2, 2, "O")])))).
  - apply board_after_play_reachable.
  - vm_compute. by right; left.
Defined.

Lemma base_sequences_once_witness : 0%nat = 0%nat.
Proof.
  apply (base_sequences_once
           (Base.mkBoard 5 (upd2 (Base.board base_two_s) 2 2 "O")
                         [[(2, 1); (2, 2); (2, 3)]])
           0 0 [(2, 1); (2, 2); (2, 3)] [(2, 1); (2, 2); (2, 3)]).
  - eapply (base_reach_make_move _ 2 2 "O" 1).
    + eapply (base_reach_make_move _ 2 3 "S" 0).
      * eapply (base_reach_make_move _ 2 1 "S" 0); [apply (base_reach_new 5)|].
        reflexivity.
      * reflexivity.
    + reflexivity.
  - reflexivity.
  - reflexivity.
  - reflexivity.
Defined.

(** Two lines completed one after the other; the first move of the game
    belongs to the line completed last. *)
Definition two_lines : list (Z * Z * string) :=
  [(4, 0, "S"); (0, 0, "S"); (0, 2, "S"); (0, 1, "O"); (4, 1, "O"); (4, 2, "S")].

(** The order of the Python list is not kept: [undo_last_move] rebuilds
    [sos_sequences] by scanning the remaining moves in order over the grid
    as it stands, so the list comes back in the order of the first move of
    each line and not in the order in which the lines were completed.  Here
    a move at [(2,2)] is placed and undone; the list holds the same four
    sequences as before the move, in another order. *)
Lemma undo_reorders_sos_sequences :
  ∃ self k self1 r self2,
    reachable self ∧
    Enhanced.is_valid_move self 2 2 = Ok true ∧
    Enhanced.make_move self 2 2 "S" "" = Ok (k, self1) ∧
    Enhanced.undo_last_move self1 = Ok (r, self2) ∧
    Enhanced.sos_sequences self =
      [[(0, 2); (0, 1); (0, 0)]; [(0, 0); (0, 1); (0, 2)];
       [(4, 2); (4, 1); (4, 0)]; [(4, 0); (4, 1); (4, 2)]] ∧
    Enhanced.sos_sequences self2 =
      [[(4, 2); (4, 1); (4, 0)]; [(4, 0); (4, 1); (4, 2)];
       [(0, 2); (0, 1); (0, 0)]; [(0, 0); (0, 1); (0, 2)]] ∧
    Enhanced.sos_sequences self2 ≠ Enhanced.sos_sequences self.
Proof.
  pose proof (reachable_play two_lines (Enhanced.new 5)) as Hr.
  evaluate (play (Enhanced.new 5) two_lines) E.
  lazymatch type of E with _ = Ok ?self =>
    specialize (Hr self (reach_new 5) E);
    evaluate (Enhanced.is_valid_move self 2 2) Ev;
    evaluate (Enhanced.make_move self 2 2 "S" "") E1;
    lazymatch type of E1 with _ = Ok (?k, ?self1) =>
      evaluate (Enhanced.undo_last_move self1) E2;
      lazymatch type of E2 with _ = Ok (?r, ?self2) =>
        exists self, k, self1, r, self2
      end
    end
  end.
  split; [exact Hr|]. split; [exact Ev|]. split; [exact E1|].
  split; [exact E2|]. split; [reflexivity|]. split; [reflexivity|].
  discriminate.
Qed.

(** C5. Undo is a left inverse of a move: on a reachable board, a valid
    [make_move] followed by [undo_last_move] returns the move just made and
    restores the grid and the move history exactly (so also the history
    length), and [sos_sequences], which the specification reads as a set of
    sequences, is restored as well: it holds the same sequences as before
    the move, each as often as before. *)
Theorem undo_after_make_move self row col letter player_name :
  reachable self →
  Enhanced.is_valid_move self row col = Ok true →
  ∃ k self1 self2,
    Enhanced.make_move self row col letter player_name = Ok (k, self1) ∧
    Enhanced.undo_last_move self1 =
      Ok (Some (Enhanced.Move.mk row col letter player_name k), self2) ∧
    Enhanced.size self2 = Enhanced.size self ∧
    Enhanced.board self2 = Enhanced.board self ∧
    Enhanced.move_history self2 = Enhanced.move_history self ∧
    Enhanced.sos_sequences self2 ≡ₚ Enhanced.sos_sequences self.
Proof.
  intros Hinv%reachable_inv Hv. pose proof (inv_wf _ Hinv) as Hwf.
  destruct (make_move_valid self row col letter player_name Hwf Hv)
    as (news & E & _). simpl in E.
  set (mv := Enhanced.Move.mk _ _ _ _ _) in E.
  set (self1 := Enhanced.mkBoard _ _ _ _) in E.
  assert (inv self1) as Hinv1 by by eapply inv_make_move.
  destruct (undo_last_move_spec self1 (Enhanced.move_history self) mv Hinv1)
    as (sqs & E2 & Hinv2); [done|].
  simpl in E2, Hinv2.
  set (self2 := Enhanced.mkBoard _ _ _ _) in E2, Hinv2.
  apply is_valid_move_true in Hv as [Hpos Hnone]; [|done].
  assert (Enhanced.board self2 = Enhanced.board self) as Hb.
  { unfold self2. simpl. by rewrite upd2_upd2 upd2_id. }
  exists (Z.of_nat (length news)), self1, self2.
  split_and!; [done..|].
  apply NoDup_Permutation; [apply (inv_nodup _ Hinv2)|apply (inv_nodup _ Hinv)|].
  intros sq. rewrite (inv_sos _ Hinv2) (inv_sos _ Hinv).
  by apply is_sos_ext.
Qed.

Lemma undo_after_make_move_witness :
  ∃ k self1 self2,
    Enhanced.make_move enhanced_two_s 2 2 "O" "AI" = Ok (k, self1) ∧
    Enhanced.undo_last_move self1 =
      Ok (Some (Enhanced.Move.mk 2 2 "O" "AI" k), self2) ∧
    Enhanced.size self2 = Enhanced.size enhanced_two_s ∧
    Enhanced.board self2 = Enhanced.board enhanced_two_s ∧
    Enhanced.move_history self2 = Enhanced.move_history enhanced_two_s ∧
    Enhanced.sos_sequences self2 ≡ₚ Enhanced.sos_sequences enhanced_two_s.
Proof.
  apply (undo_after_make_move enhanced_two_s 2 2 "O" "AI").
  - apply enhanced_two_s_reachable.
  - reflexivity.
Defined.

(** C10. [get_cell] returns for every pair of integers, negative ones
    included, on a board whose grid is its [size] squared.  Off the board
    the result is [None].  On the enhanced board an empty cell on the board
    gives [None] as well; on the base board a cell on the board always
    gives a string. *)
Theorem get_cell_total
    (e : Enhanced.SOSBoard) (b : Base.SOSBoard) (row col : Z) :
  (wf e →
   ∃ v, Enhanced.get_cell e row col = Ok v ∧
        (Enhanced._is_valid_pos e row col = false → v = None) ∧
        (Enhanced.is_valid_move e row col = Ok true → v = None)) ∧
  (base_wf b →
   ∃ v, Base.get_cell b row col = Ok v ∧
        (Base._is_valid_pos b row col = false → v = None) ∧
        (Base._is_valid_pos b row col = true → v ≠ None) ∧
        (Base.is_valid_move b row col = Ok true → v = Some "")).
Proof.
  split; intros Hwf.
  - unfold Enhanced.get_cell.
    destruct (Enhanced._is_valid_pos e row col) eqn:Hv.
    + destruct (grid_get_valid e row col Hwf Hv) as (c & L & ->).
      exists c. split_and!; [done..|].
      intros [_ Hn]%is_valid_move_true; [|done]. congruence.
    + by exists None.
  - unfold Base.get_cell.
    destruct (Base._is_valid_pos b row col) eqn:Hv.
    + destruct (base_grid_get_valid b row col Hwf Hv) as (c & L & ->).
      exists (Some c). split_and!; [done..|].
      intros [_ Hn]%base_is_valid_move_true; [|done]. congruence.
    + exists None. split_and!; [done..|].
      intros [Hv' _]%base_is_valid_move_true; [|done]. congruence.
Qed.

Lemma get_cell_total_witness :
  (∃ v, Enhanced.get_cell enhanced_two_s (-1) 7 = Ok v ∧
        (Enhanced._is_valid_pos enhanced_two_s (-1) 7 = false → v = None) ∧
        (Enhanced.is_valid_move enhanced_two_s (-1) 7 = Ok true → v = None)) ∧
  (∃ v, Base.get_cell base_two_s (-1) 7 = Ok v ∧
        (Base._is_valid_pos base_two_s (-1) 7 = false → v = None) ∧
        (Base._is_valid_pos base_two_s (-1) 7 = true → v ≠ None) ∧
        (Base.is_valid_move base_two_s (-1) 7 = Ok true → v = Some "")).
Proof.
  split.
  - apply (get_cell_total enhanced_two_s base_two_s (-1) 7).
    apply reachable_wf, enhanced_two_s_reachable.
  - apply (get_cell_total enhanced_two_s base_two_s (-1) 7).
    split; [reflexivity|]. by repeat constructor.
Defined.

End board_properties.

(** * Reasoning about computations over the store *)

Section store_logic.
Context {B : Type}.
Implicit Types (w : World B) (b : nat).

(** [m], run in [w], returns a value and a world that satisfy [Q]. *)
Definition returns {A} (m : M B A) w (Q : A → World B → Prop) : Prop :=
  ∃ a w', m w = Ok (a, w') ∧ Q a w'.

(** [w'] still holds every object of [w], unchanged. *)
Definition keeps w w' : Prop := objs w `prefix_of` objs w'.

Lemma keeps_refl w : keeps w w.
Proof. by exists []; rewrite app_nil_r. Qed.

Lemma keeps_trans w1 w2 w3 : keeps w1 w2 → keeps w2 w3 → keeps w1 w3.
Proof. unfold keeps. by etrans. Qed.

Lemma keeps_lookup w w' b self :
  keeps w w' → objs w !! b = Some self → objs w' !! b = Some self.
Proof. intros [k ->] H. by apply lookup_app_l_Some. Qed.

Lemma keeps_length w w' : keeps w w' → (length (objs w) ≤ length (objs w'))%nat.
Proof. intros [k ->]. rewrite length_app. lia. Qed.

Lemma returns_ret {A} (a : A) w Q : Q a w → returns (mret a) w Q.
Proof. intros H. by exists a, w. Qed.

Lemma returns_bind {A C} (m : M B A) (k : A → M B C) w Q :
  returns m w (λ a w', returns (k a) w' Q) → returns (m ≫= k) w Q.
Proof.
  intros (a & w' & E & c & w'' & E' & H). exists c, w''. split; [|done].
  unfold mbind, M_bind. by rewrite E.
Qed.


Lemma returns_mono {A} (m : M B A) w (Q Q' : A → World B → Prop) :
  returns m w Q → (∀ a w', Q a w' → Q' a w') → returns m w Q'.
Proof. intros (a & w' & E & H) HQ. exists a, w'. auto. Qed.

Lemma returns_lift {A} (r : res A) a w Q :
  r = Ok a → Q a w → returns (lift r) w Q.
Proof. intros -> H. by exists a, w. Qed.

(** The world after one more access. *)
Definition tick w : World B := mkWorld (objs w) (rng w) (S (calls w)).

Lemma returns_deref b self w Q :
  objs w !! b = Some self → Q self (tick w) → returns (deref b) w Q.
Proof. intros E H. exists self, (tick w). split; [|done]. by rewrite /deref E. Qed.

Lemma returns_read {A} b (meth : B → res A) self a w Q :
  objs w !! b = Some self → meth self = Ok a → Q a (tick w) →
  returns (read b meth) w Q.
Proof.
  intros E Hm H. apply returns_bind, (returns_deref b self); [done|].
  by apply (returns_lift _ a).
Qed.

Lemma returns_attr {A} b (field : B → A) self w Q :
  objs w !! b = Some self → Q (field self) w → returns (attr b field) w Q.
Proof. intros E H. exists (field self), w. split; [|done]. by rewrite /attr E. Qed.

Lemma returns_alloc self w Q :
  Q (length (objs w)) (mkWorld (objs w ++ [self]) (rng w) (calls w)) →
  returns (alloc self) w Q.
Proof. intros H. by eexists _, _. Qed.

Lemma returns_call {A} b (meth : B → res (A * B)) self a self' w Q :
  objs w !! b = Some self → meth self = Ok (a, self') →
  Q a (mkWorld (<[b := self']> (objs w)) (rng w) (S (calls w))) →
  returns (call b meth) w Q.
Proof.
  intros E Hm H. eexists _, _. split; [|exact H]. by rewrite /call E Hm.
Qed.

Lemma returns_draw w Q :
  (∀ k rest, Q k (mkWorld (objs w) rest (calls w))) → returns draw w Q.
Proof.
  intros H. unfold draw. destruct w as [o [|k rest] c]; simpl in *.
  - eexists _, _. split; [done|]. apply (H 0 []).
  - eexists _, _. split; [done|]. apply H.
Qed.

Lemma returns_random_random w Q :
  (∀ k rest, 0 ≤ k < 2 ^ 53 → Q k (mkWorld (objs w) rest (calls w))) →
  returns random_random w Q.
Proof.
  intros H. apply returns_bind, returns_draw. intros k rest.
  apply returns_ret, H. by apply Z.mod_pos_bound.
Qed.

Lemma returns_random_choice {A} (l : list A) w Q :
  l ≠ [] →
  (∀ x rest, x ∈ l → Q x (mkWorld (objs w) rest (calls w))) →
  returns (random_choice l) w Q.
Proof.
  intros Hl H. apply returns_bind, returns_draw. intros k rest.
  assert (0 < Z.of_nat (length l)) as Hlen by (destruct l; simpl; [done|lia]).
  pose proof (Z.mod_pos_bound k _ Hlen) as Hk.
  destruct (lookup_lt_is_Some_2 l (Z.to_nat (k `mod` Z.of_nat (length l))))
    as [x Hx]; [lia|].
  apply (returns_lift _ x); [by apply py_getitem_nonneg; [lia|]|].
  apply H. by eapply list_elem_of_lookup_2.
Qed.

(** A loop keeps an invariant that each run of its body keeps. *)
Lemma returns_for_eachM {A St} (l : list A) (body : A → St → M B St) st w
    (I : St → World B → Prop) :
  I st w →
  (∀ x st w, x ∈ l → I st w → returns (body x st) w I) →
  returns (for_eachM l body st) w I.
Proof.
  revert st w. induction l as [|x l IH]; intros st w Hi Hbody.
  - by apply returns_ret.
  - cbn [for_eachM]. apply returns_bind.
    eapply returns_mono; [apply Hbody; [by left|done]|].
    intros st' w' Hi'. apply IH; [done|].
    intros y st'' w'' Hy. apply Hbody. by right.
Qed.

(** A loop whose body computes [step] is a left fold of [step]. *)
Lemma returns_for_eachM_fold {A St} (l : list A) (body : A → St → M B St)
    (step : St → A → St) st w (P : World B → Prop) :
  P w →
  (∀ x st w, x ∈ l → P w →
     returns (body x st) w (λ st' w', st' = step st x ∧ P w')) →
  returns (for_eachM l body st) w (λ st' w', st' = foldl step st l ∧ P w').
Proof.
  revert st w. induction l as [|x l IH]; intros st w Hp Hbody.
  - by apply returns_ret.
  - cbn [for_eachM]. apply returns_bind.
    eapply returns_mono; [apply Hbody; [by left|done]|].
    intros st' w' [-> Hp']. apply IH; [done|].
    intros y st'' w'' Hy. apply Hbody. by right.
Qed.

(** A loop whose body may return: what it returns comes from one run of
    its body. *)
Lemma returns_first_return {A R} (l : list A) (body : A → M B (option R)) w
    (P : World B → Prop) (G : A → R → Prop) :
  P w →
  (∀ x w, x ∈ l → P w →
     returns (body x) w (λ r w', P w' ∧ ∀ v, r = Some v → G x v)) →
  returns (first_return l body) w
    (λ r w', P w' ∧ ∀ v, r = Some v → ∃ x, x ∈ l ∧ G x v).
Proof.
  revert w. induction l as [|x l IH]; intros w Hp Hbody.
  - by apply returns_ret.
  - cbn [first_return]. apply returns_bind.
    eapply returns_mono; [apply Hbody; [by left|done]|].
    intros [v|] w' [Hp' Hg].
    + apply returns_ret. split; [done|]. intros v' [= <-].
      exists x. split; [by left|auto].
    + eapply returns_mono.
      * apply IH; [done|]. intros y w'' Hy. apply Hbody. by right.
      * intros r w'' [? Hr]. split; [done|]. intros v Hv.
        destruct (Hr v Hv) as (y & Hy & Hgy). exists y. split; [by right|done].
Qed.

End store_logic.

(** * The fixed-letter player: facts *)

Section enhanced_ai.
Import Enhanced EnhancedAI.
Implicit Types (self bd : SOSBoard) (w : World SOSBoard) (p q : pos).

Lemma copy_eq self : copy self = self.
Proof. destruct self. unfold copy. simpl. by rewrite !list_fmap_id. Qed.

(** The empty cells of a board, row by row. *)
Definition empty_cells self : list pos :=
  filter (λ p, cell_is (λ c : cell, bool_decide (c = None)) (board self) p = true)
         (positions (size self)).

Lemma get_empty_cells_spec self :
  wf self → get_empty_cells self = Ok (empty_cells self).
Proof. intros Hwf. by apply (scan_empty_spec _ (size self) (board self)). Qed.

Lemma elem_of_empty_cells self p :
  wf self → p ∈ empty_cells self ↔ is_valid_move self p.1 p.2 = Ok true.
Proof.
  intros Hwf. rewrite is_valid_move_true // _is_valid_pos_spec.
  unfold empty_cells. rewrite list_elem_of_filter elem_of_positions.
  unfold cell_is. split.
  - intros [H ?]. split; [done|].
    destruct (lookup2 (board self) p.1 p.2) as [c|]; [|done].
    apply bool_decide_eq_true in H. by subst.
  - intros [? ->]. split; [|done]. by apply bool_decide_eq_true.
Qed.

(** [make_move] as a total function: on a board whose grid is its [size]
    squared it always returns. *)
Definition make_move_result self row col (letter player_name : string)
  : Z * SOSBoard :=
  match make_move self row col letter player_name with
  | Ok r => r
  | Raise _ => (0, self)
  end.

Lemma make_move_total self row col letter player_name :
  wf self →
  make_move self row col letter player_name =
    Ok (make_move_result self row col letter player_name) ∧
  wf (make_move_result self row col letter player_name).2.
Proof.
  intros Hwf. unfold make_move_result.
  destruct (make_move_cases self row col Hwf) as [Hv|Hv].
  - destruct (make_move_valid self row col letter player_name Hwf Hv)
      as (news & E & _). simpl in E. rewrite E. split; [done|].
    by apply wf_grid_upd2.
  - by rewrite make_move_invalid.
Qed.

Lemma returns_copy_board src self w (Q : nat → World SOSBoard → Prop) :
  objs w !! src = Some self →
  Q (length (objs w)) (mkWorld (objs w ++ [self]) (rng w) (S (calls w))) →
  returns (copy_board src) w Q.
Proof.
  intros E H. apply returns_bind, (returns_deref src self); [done|].
  apply returns_alloc. by rewrite copy_eq.
Qed.

(** A method run on a fresh copy of [src]: the copy is the only object
    that changes. *)
Lemma returns_on_copy {A C} src self (meth : SOSBoard → res (A * SOSBoard))
    a self' (k : nat → A → M SOSBoard C) w Q :
  objs w !! src = Some self → meth self = Ok (a, self') →
  (∀ w1, objs w1 = objs w ++ [self'] → returns (k (length (objs w)) a) w1 Q) →
  returns (t ← copy_board src; x ← call t meth; k t x) w Q.
Proof.
  intros E Hm Hk. apply returns_bind, (returns_copy_board src self); [done|].
  apply returns_bind, (returns_call _ _ self a self'); [|done|].
  - simpl. by rewrite lookup_app_r // Nat.sub_diag.
  - apply Hk. simpl. rewrite insert_app_r_alt // Nat.sub_diag. done.
Qed.

Lemma keeps_snoc w0 w w1 x :
  keeps w0 w → objs w1 = objs w ++ [x] → keeps w0 w1.
Proof. unfold keeps. intros H ->. by apply prefix_app_r. Qed.

Lemma keeps_tick w0 w : keeps w0 w → keeps w0 (tick w).
Proof. done. Qed.

Lemma keeps_rng w0 w rest : keeps w0 w → keeps w0 (mkWorld (objs w) rest (calls w)).
Proof. done. Qed.

Section on_board.
(** A board object [bd] at reference [b]. *)
Context (b : nat) (bd : SOSBoard) (Hwf : wf bd).
Context (w0 : World SOSBoard) (Hb : objs w0 !! b = Some bd).

(** The board is still there, unchanged. *)
Definition kept w : Prop := keeps w0 w.

Lemma kept_lookup w : kept w → objs w !! b = Some bd.
Proof. intros H. by eapply keeps_lookup. Qed.

(** A move onto an empty cell, with the player's letter. *)
Definition chosen (m : move) : Prop :=
  ∃ p, p ∈ empty_cells bd ∧ m = (Some p.1, Some p.2, Some letter).

Definition found (r : option (Z * Z * string)) : Prop :=
  ∀ v, r = Some v → ∃ p, p ∈ empty_cells bd ∧ v = (p.1, p.2, letter).

Lemma returns_get_empty_cells w Q :
  kept w → Q (empty_cells bd) (tick w) →
  returns (read b get_empty_cells) w Q.
Proof.
  intros Hk H. apply (returns_read b _ bd (empty_cells bd)); [|..|done].
  - by apply kept_lookup.
  - by apply get_empty_cells_spec.
Qed.

Lemma _get_random_move_spec w :
  kept w →
  returns (_get_random_move b) w
    (λ m w', kept w' ∧
             (empty_cells bd = [] ∧ m = no_move ∨ chosen m)).
Proof.
  intros Hk. apply returns_bind, returns_get_empty_cells; [done|].
  destruct (empty_cells bd) as [|p0 rest] eqn:E.
  - apply returns_ret. split; [done|]. by left.
  - apply returns_bind, returns_random_choice; [done|]. intros p rest' Hp.
    apply returns_ret. split; [done|]. right. exists p. by rewrite E.
Qed.

Lemma _get_easy_move_spec w :
  kept w →
  returns (_get_easy_move b) w
    (λ m w', kept w' ∧
             (empty_cells bd = [] ∧ m = no_move ∨ chosen m)).
Proof. apply _get_random_move_spec. Qed.

Lemma _find_sos_move_spec w :
  kept w → returns (_find_sos_move b) w (λ r w', kept w' ∧ found r).
Proof.
  intros Hk. apply returns_bind, returns_get_empty_cells; [done|].
  apply returns_bind.
  eapply returns_mono.
  - apply (returns_for_eachM _ _ _ _ (λ st w', kept w' ∧ found st.1)).
    + split; [done|]. by intros v.
    + intros p st w' Hp [Hk' Hf].
      destruct (make_move_total bd p.1 p.2 letter "" Hwf) as [Hm _].
      destruct (make_move_result bd p.1 p.2 letter "") as [k bd'].
      apply (returns_on_copy b bd _ k bd'); [by apply kept_lookup|done|].
      intros w1 Hw1. apply returns_ret. split; [by eapply keeps_snoc|].
      destruct (st.2 <? k); [|done]. simpl. intros v [= <-]. by exists p.
  - intros st w' [Hk' Hf]. apply returns_ret. split; [done|].
    by destruct (0 <? st.2).
Qed.

Lemma _find_blocking_move_spec w :
  kept w → returns (_find_blocking_move b) w (λ r w', kept w' ∧ found r).
Proof.
  intros Hk. apply returns_bind, returns_get_empty_cells; [done|].
  eapply returns_mono.
  - apply (returns_first_return _ _ _ kept (λ p v, v = (p.1, p.2, letter)));
      [done|].
    intros p w' Hp Hk'.
    destruct (make_move_total bd p.1 p.2 "S" "" Hwf) as [Hm _].
    destruct (make_move_result bd p.1 p.2 "S" "") as [k bd'].
    apply (returns_on_copy b bd _ k bd'); [by apply kept_lookup|done|].
    intros w1 Hw1. apply returns_ret. split; [by eapply keeps_snoc|].
    destruct (0 <? k); [|done]. by intros v [= <-].
  - intros r w' [Hk' Hf]. split; [done|]. intros v Hv.
    destruct (Hf v Hv) as (p & Hp & ->). by exists p.
Qed.

(** *** The positional stage *)

Lemma elem_of_insert_reverse x l y :
  y ∈ insert_reverse x l ↔ y = x ∨ y ∈ l.
Proof.
  induction l as [|z l IH]; simpl.
  - rewrite list_elem_of_singleton elem_of_nil. tauto.
  - destruct (tuple_ltb z x); rewrite !elem_of_cons ?IH; tauto.
Qed.

Lemma elem_of_sort_reverse l y : y ∈ sort_reverse l ↔ y ∈ l.
Proof.
  unfold sort_reverse.
  assert (∀ acc, y ∈ foldl (λ sorted x, insert_reverse x sorted) acc l
                 ↔ y ∈ acc ∨ y ∈ l) as H.
  { induction l as [|x l IH]; intros acc; simpl.
    - rewrite elem_of_nil. tauto.
    - rewrite IH elem_of_insert_reverse elem_of_cons. tauto. }
  rewrite H elem_of_nil. tauto.
Qed.

Lemma half_open_total self r1 c1 r2 c2 :
  wf self → _is_valid_pos self r1 c1 = true → _is_valid_pos self r2 c2 = true →
  ∃ h, half_open self r1 c1 r2 c2 = Ok h.
Proof.
  intros Hw H1 H2. unfold half_open.
  destruct (grid_get_valid self r1 c1 Hw H1) as (a & _ & ->).
  destruct (grid_get_valid self r2 c2 Hw H2) as (c & _ & ->).
  simpl. repeat (case_bool_decide; simpl); by eexists.
Qed.

Lemma _count_potential_sos_total self row col :
  wf self → _is_valid_pos self row col = true →
  ∃ k, _count_potential_sos self row col = Ok k.
Proof.
  intros Hw Hv. unfold _count_potential_sos.
  destruct (grid_get_valid self row col Hw Hv) as (cur & _ & ->).
  cbn [mbind res_bind]. generalize 0.
  induction directions as [|d ds IH]; intros k; [by eexists|].
  cbn [for_each]. case_bool_decide; [|apply IH].
  destruct (_is_valid_pos self (row - d.1) (col - d.2)) eqn:E1; [|apply IH].
  destruct (_is_valid_pos self (row + d.1) (col + d.2)) eqn:E2; [|apply IH].
  cbn [andb].
  destruct (half_open_total self _ _ _ _ Hw E1 E2) as [h ->].
  cbn [mbind res_bind]. apply IH.
Qed.

Lemma fresh_lookup w w1 (x : SOSBoard) :
  objs w1 = objs w ++ [x] → objs w1 !! length (objs w) = Some x.
Proof. intros ->. by rewrite lookup_app_r // Nat.sub_diag. Qed.

Lemma _find_strategic_move_spec w :
  kept w → returns (_find_strategic_move b) w (λ r w', kept w' ∧ found r).
Proof.
  intros Hk. apply returns_bind, returns_get_empty_cells; [done|].
  destruct (empty_cells bd) as [|p0 rest] eqn:Ecells.
  { apply returns_ret. split; [done|]. by intros v. }
  rewrite -Ecells.
  apply returns_bind, (returns_attr b _ bd); [by apply kept_lookup|].
  apply returns_bind. eapply returns_mono.
  - apply (returns_for_eachM _ _ _ _
      (λ scored w', kept w' ∧
                    ∀ t, t ∈ scored → (t.1.2, t.2) ∈ empty_cells bd)).
    + split; [done|]. by intros t ?%elem_of_nil.
    + intros p scored w' Hp [Hk' Hs].
      apply returns_bind, (returns_attr b _ bd); [by apply kept_lookup|].
      pose proof Hp as Hvalid. apply elem_of_empty_cells in Hvalid; [|done].
      apply is_valid_move_true in Hvalid as [Hpos _]; [|done].
      destruct (proj1 (_is_valid_pos_spec _ _ _) Hpos) as [Hr Hc].
      apply (returns_on_copy b bd _ tt
               (set_board bd (upd2 (board bd) p.1 p.2 (Some letter)))).
      { by apply kept_lookup. }
      { unfold set_cell. by rewrite (grid_set_upd2 (size bd)). }
      intros w1 Hw1.
      destruct (_count_potential_sos_total
                  (set_board bd (upd2 (board bd) p.1 p.2 (Some letter)))
                  p.1 p.2) as [k Hcount]; [by apply wf_grid_upd2|done|].
      apply returns_bind,
        (returns_read _ _ (set_board bd (upd2 (board bd) p.1 p.2 (Some letter))) k);
        [by apply fresh_lookup|done|].
      apply returns_ret. split; [by eapply keeps_snoc|].
      intros t [Ht| ->%list_elem_of_singleton]%elem_of_app; [by apply Hs|].
      simpl. by destruct p.
  - intros scored w' [Hk' Hs].
    destruct (sort_reverse scored) as [|t ts] eqn:Esort.
    + apply returns_ret. split; [done|]. by intros v.
    + apply returns_ret. split; [done|]. intros v [= <-].
      exists (t.1.2, t.2). split; [|done]. apply Hs.
      apply elem_of_sort_reverse. rewrite Esort. by left.
Qed.

(** *** The lookahead stage *)

(** What [make_move] returns for letter [l] at [p], and the board it
    leaves. *)
Definition gain self p (l player_name : string) : Z :=
  (make_move_result self p.1 p.2 l player_name).1.
Definition after self p (l player_name : string) : SOSBoard :=
  (make_move_result self p.1 p.2 l player_name).2.

(** The best gain of an ['S'] reply on one of the first five empty cells
    of the board after the player's ['O'] at [p]. *)
Definition opponent_best self p : Z :=
  foldl (λ best q, Z.max best (gain (after self p letter "AI") q "S" "Human"))
        0
        (take 5 (empty_cells (after self p letter "AI"))).

Definition lookahead_score self p : Z :=
  gain self p letter "AI" * 10 - opponent_best self p * 5.

(** One round of the candidate loop on [(best_move, best_score)]. *)
Definition keep_best self (st : option (Z * Z * string) * option Z) p
  : option (Z * Z * string) * option Z :=
  if beats (lookahead_score self p) st.2
  then (Some (p.1, p.2, letter), Some (lookahead_score self p))
  else st.

Lemma keep_best_first_maximum self (l : list pos) :
  l ≠ [] →
  ∃ l1 p l2,
    l = l1 ++ p :: l2 ∧
    foldl (keep_best self) (None, None) l =
      (Some (p.1, p.2, letter), Some (lookahead_score self p)) ∧
    (∀ q, q ∈ l1 → lookahead_score self q < lookahead_score self p) ∧
    (∀ q, q ∈ l2 → lookahead_score self q ≤ lookahead_score self p).
Proof.
  induction l as [|x l IH] using rev_ind; [done|]. intros _.
  rewrite foldl_app. simpl.
  destruct l as [|y l'] eqn:El.
  - exists [], x, []. simpl. split_and!; [done..| |]; by intros q ?%elem_of_nil.
  - rewrite -El in IH |- *. destruct IH as (l1 & p & l2 & E & Hf & H1 & H2).
    { by rewrite El. }
    rewrite Hf. unfold keep_best at 1. simpl.
    destruct (lookahead_score self p <? lookahead_score self x) eqn:Hlt.
    + apply Z.ltb_lt in Hlt. exists l, x, []. split_and!; [done..| |].
      * intros q Hq. rewrite E in Hq.
        apply elem_of_app in Hq as [Hq|[->|Hq]%elem_of_cons].
        -- specialize (H1 q Hq). lia.
        -- done.
        -- specialize (H2 q Hq). lia.
      * by intros q ?%elem_of_nil.
    + apply Z.ltb_ge in Hlt. exists l1, p, (l2 ++ [x]). split_and!.
      * rewrite E. by rewrite -app_assoc.
      * done.
      * done.
      * intros q [Hq| ->%list_elem_of_singleton]%elem_of_app; [by apply H2|done].
Qed.

Lemma returns_opponent_best t bd1 w1 w :
  wf bd1 → objs w1 !! t = Some bd1 → keeps w1 w →
  returns
    (for_eachM (take 5 (empty_cells bd1))
       (fun (q : pos) (opponent_best : Z) =>
          opp_board ← copy_board t;
          opp_score ←
            call opp_board (fun self => make_move self q.1 q.2 "S" "Human");
          mret (Z.max opponent_best opp_score))
       0) w
    (λ best w',
       best = foldl (λ best q, Z.max best (gain bd1 q "S" "Human")) 0
                    (take 5 (empty_cells bd1)) ∧
       keeps w1 w').
Proof.
  intros Hw1 Ht Hk.
  apply (returns_for_eachM_fold _ _
           (λ best q, Z.max best (gain bd1 q "S" "Human")) _ _ (keeps w1));
    [done|].
  intros q best w' _ Hk'.
  destruct (make_move_total bd1 q.1 q.2 "S" "Human" Hw1) as [Hm _].
  unfold gain.
  destruct (make_move_result bd1 q.1 q.2 "S" "Human") as [k bd'].
  apply (returns_on_copy t bd1 _ k bd'); [by eapply keeps_lookup|done|].
  intros w2 Hw2. apply returns_ret. split; [done|]. by eapply keeps_snoc.
Qed.

Lemma _find_best_move_with_lookahead_spec w :
  kept w → empty_cells bd ≠ [] →
  returns (_find_best_move_with_lookahead b) w
    (λ r w', kept w' ∧
             r = (foldl (keep_best bd) (None, None) (empty_cells bd)).1).
Proof.
  intros Hk Hne. apply returns_bind, returns_get_empty_cells; [done|].
  destruct (empty_cells bd) as [|p0 rest] eqn:Ecells; [done|].
  rewrite -Ecells. apply returns_bind. eapply returns_mono.
  - apply (returns_for_eachM_fold _ _ (keep_best bd) _ _ kept); [done|].
    intros p st w' _ Hk'.
    destruct (make_move_total bd p.1 p.2 letter "AI" Hwf) as [Hm Hwf1].
    unfold keep_best, lookahead_score, opponent_best, gain at 1 3, after.
    destruct (make_move_result bd p.1 p.2 letter "AI") as [k bd1].
    simpl in Hwf1.
    apply (returns_on_copy b bd _ k bd1); [by apply kept_lookup|done|].
    intros w1 Hw1. pose proof (fresh_lookup _ _ _ Hw1) as Ht.
    apply returns_bind,
      (returns_read _ _ bd1 (empty_cells bd1)); [done|by apply get_empty_cells_spec|].
    apply returns_bind. eapply returns_mono.
    + apply (returns_opponent_best _ bd1 w1); [done..|apply keeps_tick, keeps_refl].
    + intros best w2 [-> Hk2]. apply returns_ret. split; [done|].
      eapply keeps_trans; [|exact Hk2]. by eapply keeps_snoc.
  - intros st w' [-> Hk']. by apply returns_ret.
Qed.

(** *** The tiers and [get_move] *)

(** What a tier hands back: the sentinel on a board without empty cells,
    a move onto an empty cell otherwise. *)
Definition answer (m : move) : Prop :=
  empty_cells bd = [] ∧ m = no_move ∨ chosen m.

Lemma or_else_spec r rest w :
  kept w → found r →
  returns rest w (λ m w', kept w' ∧ answer m) →
  returns (or_else r rest) w (λ m w', kept w' ∧ answer m).
Proof.
  intros Hk Hf Hrest. destruct r as [v|]; [|done].
  apply returns_ret. split; [done|]. right.
  destruct (Hf v eq_refl) as (p & Hp & ->). by exists p.
Qed.

Lemma found_first_maximum :
  found (foldl (keep_best bd) (None, None) (empty_cells bd)).1.
Proof.
  destruct (empty_cells bd) as [|p0 rest] eqn:E; [by intros v|].
  destruct (keep_best_first_maximum bd (p0 :: rest)) as (l1 & p & l2 & El & -> & _);
    [done|].
  intros v [= <-]. exists p. split; [|done]. rewrite E El.
  apply elem_of_app. right. by left.
Qed.

Lemma smart_tiers_spec (with_lookahead : bool) w :
  kept w →
  returns
    (sos_move ← _find_sos_move b;
     or_else sos_move (
       blocking_move ← _find_blocking_move b;
       or_else blocking_move (
         if with_lookahead then
           best_move ← _find_best_move_with_lookahead b;
           or_else best_move (
             strategic_move ← _find_strategic_move b;
             or_else strategic_move (_get_random_move b))
         else
           strategic_move ← _find_strategic_move b;
           or_else strategic_move (_get_random_move b)))) w
    (λ m w', kept w' ∧ answer m).
Proof.
  intros Hk.
  assert (∀ w, kept w →
            returns (strategic_move ← _find_strategic_move b;
                     or_else strategic_move (_get_random_move b)) w
                    (λ m w', kept w' ∧ answer m)) as Hlast.
  { intros w1 Hk1. apply returns_bind.
    eapply returns_mono; [by apply _find_strategic_move_spec|].
    intros r w2 [Hk2 Hf]. apply or_else_spec; [done..|].
    by apply _get_random_move_spec. }
  apply returns_bind.
  eapply returns_mono; [by apply _find_sos_move_spec|].
  intros r1 w1 [Hk1 Hf1]. apply or_else_spec; [done..|].
  apply returns_bind.
  eapply returns_mono; [by apply _find_blocking_move_spec|].
  intros r2 w2 [Hk2 Hf2]. apply or_else_spec; [done..|].
  destruct with_lookahead; [|by apply Hlast].
  destruct (empty_cells bd) as [|p0 rest] eqn:E.
  - (* no empty cell: the lookahead finds nothing *)
    apply returns_bind, returns_bind, returns_get_empty_cells; [done|].
    rewrite E. apply returns_ret. simpl. apply Hlast. by apply keeps_tick.
  - apply returns_bind. eapply returns_mono.
    + apply _find_best_move_with_lookahead_spec; [done|by rewrite E].
    + intros r3 w3 [Hk3 ->]. apply or_else_spec; [done| |by apply Hlast].
      apply found_first_maximum.
Qed.

Lemma _get_medium_move_spec w :
  kept w → returns (_get_medium_move b) w (λ m w', kept w' ∧ answer m).
Proof.
  intros Hk. apply returns_bind, returns_random_random. intros k rest _.
  destruct (k <? float_0_7).
  - apply _get_random_move_spec. by apply keeps_rng.
  - apply (smart_tiers_spec false). by apply keeps_rng.
Qed.

Lemma _get_hard_move_spec w :
  kept w → returns (_get_hard_move b) w (λ m w', kept w' ∧ answer m).
Proof.
  intros Hk. apply returns_bind, returns_random_random. intros k rest _.
  destruct (k <? float_0_8).
  - apply _get_random_move_spec. by apply keeps_rng.
  - apply (smart_tiers_spec true). by apply keeps_rng.
Qed.

Lemma get_move_spec difficulty w :
  kept w →
  returns (get_move difficulty b) w
    (λ m w', kept w' ∧
             (empty_cells bd = [] ∧ m = (None, None, Some letter) ∨
              empty_cells bd ≠ [] ∧ chosen m)).
Proof.
  intros Hk. apply returns_bind.
  eapply returns_mono.
  { destruct difficulty;
      [by apply _get_easy_move_spec|by apply _get_medium_move_spec
      |by apply _get_hard_move_spec]. }
  intros m w1 [Hk1 [[He ->]|Hc]].
  - apply returns_bind. simpl.
    eapply returns_mono; [by apply _get_random_move_spec|].
    intros m w2 [Hk2 [[_ ->]|(p & Hp & _)]].
    + apply returns_ret. split; [done|]. by left.
    + rewrite He in Hp. by apply elem_of_nil in Hp.
  - destruct Hc as (p & Hp & ->). apply returns_bind. simpl.
    apply returns_ret, returns_ret. split; [done|]. right.
    split; [|by exists p]. intros He. rewrite He in Hp.
    by apply elem_of_nil in Hp.
Qed.

End on_board.

End enhanced_ai.

(** * The free-letter player: facts *)

Section free_letter_ai.
Import Base AIPlayer.
Implicit Types (self bd : SOSBoard) (w : World SOSBoard) (p q : pos).

(** The empty cells of a base board, row by row. *)
Definition base_empty_cells self : list pos :=
  filter (λ p, cell_is (λ c : cell, bool_decide (c = "")) (board self) p = true)
         (positions (size self)).

Lemma base_get_empty_cells_spec self :
  base_wf self → get_empty_cells self = Ok (base_empty_cells self).
Proof. intros Hwf. by apply (scan_empty_spec _ (size self) (board self)). Qed.

Lemma elem_of_base_empty_cells self p :
  base_wf self →
  p ∈ base_empty_cells self ↔ is_valid_move self p.1 p.2 = Ok true.
Proof.
  intros Hwf. rewrite base_is_valid_move_true // base_is_valid_pos_spec.
  unfold base_empty_cells. rewrite list_elem_of_filter elem_of_positions.
  unfold cell_is. split.
  - intros [H ?]. split; [done|].
    destruct (lookup2 (board self) p.1 p.2) as [c|]; [|done].
    apply bool_decide_eq_true in H. by subst.
  - intros [? ->]. split; [|done]. by apply bool_decide_eq_true.
Qed.

(** The helpers return on a board whose grid is its [size] squared. *)
Definition total {A} (r : res A) : Prop := ∃ a, r = Ok a.

Lemma _valid_and_equals_total self row col expected :
  base_wf self → total (_valid_and_equals self row col expected).
Proof.
  intros Hwf. unfold _valid_and_equals, get_cell.
  destruct (_is_valid_pos self row col) eqn:Hv; [|by eexists].
  destruct (base_grid_get_valid self row col Hwf Hv) as (c & _ & ->).
  by eexists.
Qed.

Lemma and_then_total (a c : res bool) : total a → total c → total (and_then a c).
Proof. intros [x ->] [y ->]. destruct x; by eexists. Qed.

Lemma _check_sos_pattern_total self row col letter dr dc :
  base_wf self → total (_check_sos_pattern self row col letter dr dc).
Proof.
  intros Hwf. unfold _check_sos_pattern.
  pose proof (λ r c e, _valid_and_equals_total self r c e Hwf) as Hve.
  pose proof (λ r1 c1 e1 r2 c2 e2,
    and_then_total _ _ (Hve r1 c1 e1) (Hve r2 c2 e2)) as Hand.
  case_bool_decide.
  - destruct (Hand (row + dr) (col + dc) "O" (row + 2 * dr) (col + 2 * dc) "S")
      as [x ->]. simpl. destruct x; [by eexists|].
    destruct (Hand (row - dr) (col - dc) "O" (row - 2 * dr) (col - 2 * dc) "S")
      as [y ->]. simpl. destruct y; by eexists.
  - case_bool_decide; [|by eexists].
    destruct (Hand (row - dr) (col - dc) "S" (row + dr) (col + dc) "S")
      as [x ->]. simpl. destruct x; by eexists.
Qed.

Lemma any_direction_total ds (check : Z → Z → res bool) :
  (∀ dr dc, total (check dr dc)) → total (any_direction ds check).
Proof.
  intros Hc. induction ds as [|d ds IH]; [by eexists|].
  simpl. destruct (Hc d.1 d.2) as [x ->]. simpl. destruct x; [by eexists|done].
Qed.

Lemma _can_win_here_total self row col letter :
  base_wf self → total (_can_win_here self row col letter).
Proof.
  intros Hwf. apply any_direction_total. intros dr dc.
  by apply _check_sos_pattern_total.
Qed.

Lemma _should_block_here_total self row col :
  base_wf self → total (_should_block_here self row col).
Proof.
  intros Hwf. unfold _should_block_here.
  destruct (_can_win_here_total self row col "S" Hwf) as [x ->]. simpl.
  destruct x; [by eexists|]. by apply _can_win_here_total.
Qed.

Lemma neighbour_counts_total self row col :
  base_wf self → total (neighbour_counts self row col).
Proof.
  intros Hwf. unfold neighbour_counts. generalize (0, 0).
  induction [(-1, 0); (1, 0); (0, -1); (0, 1)] as [|d ds IH]; intros st;
    [by eexists|].
  cbn [for_each]. unfold get_cell.
  destruct (_is_valid_pos self (row + d.1) (col + d.2)) eqn:Hv; [|apply IH].
  destruct (base_grid_get_valid self _ _ Hwf Hv) as (c & _ & ->).
  cbn [mbind res_bind]. apply IH.
Qed.

Section on_base_board.
(** A board object [bd] at reference [b]. *)
Context (b : nat) (bd : SOSBoard) (Hwf : base_wf bd).

(** After at most [n] more accesses the store holds the same objects. *)
Definition within (n : nat) w w' : Prop :=
  objs w' = objs w ∧ (calls w' ≤ calls w + n)%nat.

Lemma within_refl n w : within n w w.
Proof. split; [done|lia]. Qed.

Lemma within_trans n1 n2 n w1 w2 w3 :
  within n1 w1 w2 → within n2 w2 w3 → (n1 + n2 ≤ n)%nat → within n w1 w3.
Proof. intros [E1 C1] [E2 C2] Hn. split; [congruence|lia]. Qed.

Lemma within_tick w : within 1 w (tick w).
Proof. split; simpl; [done|lia]. Qed.

(** One consultation of the board. *)
Lemma returns_consult {A} (meth : SOSBoard → res A) w Q :
  objs w !! b = Some bd → total (meth bd) →
  (∀ a, meth bd = Ok a → Q a (tick w)) →
  returns (read b meth) w Q.
Proof.
  intros Hb [a Ha] HQ. apply (returns_read b meth bd a); [done..|]. by apply HQ.
Qed.

Definition either_letter (l : string) : Prop := l = "S" ∨ l = "O".

Lemma _quick_letter_choice_spec row col w :
  objs w !! b = Some bd →
  returns (_quick_letter_choice b row col) w
    (λ l w', within 1 w w' ∧ either_letter l).
Proof.
  intros Hb. apply returns_bind, returns_consult;
    [done|by apply neighbour_counts_total|].
  intros counts _.
  destruct (counts.2 <? counts.1);
    [apply returns_ret; split; [apply within_tick|by right]|].
  destruct (counts.1 <? counts.2);
    [apply returns_ret; split; [apply within_tick|by left]|].
  apply returns_bind, returns_random_random. intros k rest _.
  apply returns_ret. split; [split; simpl; [done|lia]|].
  destruct (float_0_5 <? k); [by left|by right].
Qed.

(** A placement at [p] with either letter. *)
Definition placed_at p (v : Z * Z * string) : Prop :=
  ∃ l, v = (p.1, p.2, l) ∧ either_letter l.

Lemma place_spec p w :
  objs w !! b = Some bd →
  returns (place b p) w (λ r w', within 1 w w' ∧ ∃ v, r = Some v ∧ placed_at p v).
Proof.
  intros Hb. apply returns_bind.
  eapply returns_mono; [by apply _quick_letter_choice_spec|].
  intros l w' [Hw Hl]. apply returns_ret. split; [done|].
  eexists. split; [done|]. by exists l.
Qed.

(** The first cell of [l] that passes [c] gets the placement; at most one
    consultation is made, and none if no cell passes. *)
Lemma first_place_spec (l : list pos) (c : pos → bool) w :
  objs w !! b = Some bd →
  returns (first_return l (fun p => if c p then place b p else mret None)) w
    (λ r w', within 1 w w' ∧
             (r = None ∧ w' = w ∨
              ∃ p v, p ∈ l ∧ c p = true ∧ r = Some v ∧ placed_at p v)).
Proof.
  intros Hb. induction l as [|p l IH].
  - apply returns_ret. split; [apply within_refl|by left].
  - cbn [first_return]. apply returns_bind. destruct (c p) eqn:Hc.
    + eapply returns_mono; [by apply place_spec|].
      intros r w' [Hw (v & -> & Hv)]. apply returns_ret. split; [done|].
      right. exists p, v. split; [by left|done].
    + apply returns_ret. eapply returns_mono; [exact IH|].
      intros r w' [Hw [H|(q & v & Hq & Hcq & -> & Hv)]]; (split; [done|]);
        [by left|].
      right. exists q, v. split; [by right|done].
Qed.

Lemma _get_quick_strategic_move_spec cells w :
  objs w !! b = Some bd → cells ≠ [] →
  returns (_get_quick_strategic_move b cells) w
    (λ r w', within 1 w w' ∧ ∃ p v, p ∈ cells ∧ r = Some v ∧ placed_at p v).
Proof.
  intros Hb Hne. destruct cells as [|first rest] eqn:Ecells; [done|].
  rewrite -Ecells. unfold _get_quick_strategic_move. rewrite {1}Ecells.
  apply returns_bind, (returns_attr b _ bd); [done|].
  set (n := size bd). set (center := n `div` 2).
  assert (∀ p, p ∈ cells →
            returns (place b p) w
              (λ r w', within 1 w w' ∧
                       ∃ q v, q ∈ cells ∧ r = Some v ∧ placed_at q v)) as Hplace.
  { intros p Hp. eapply returns_mono; [by apply place_spec|].
    intros r w' [Hw (v & -> & Hv)]. split; [done|]. by exists p, v. }
  case_bool_decide as Hcenter; [by apply Hplace|].
  (* near the center *)
  apply returns_bind. eapply returns_mono; [by apply first_place_spec|].
  intros r1 w1 [Hw1 [[-> ->]|(q & v & Hq & _ & -> & Hv)]].
  2:{ apply returns_ret. split; [done|]. by exists q, v. }
  (* corners *)
  apply returns_bind. eapply returns_mono; [by apply first_place_spec|].
  intros r2 w2 [Hw2 [[-> ->]|(q & v & _ & Hq & -> & Hv)]].
  2:{ apply returns_ret. split; [done|].
      apply bool_decide_eq_true in Hq. by exists q, v. }
  (* edges *)
  apply returns_bind. eapply returns_mono; [by apply first_place_spec|].
  intros r3 w3 [Hw3 [[-> ->]|(q & v & Hq & _ & -> & Hv)]].
  2:{ apply returns_ret. split; [done|]. by exists q, v. }
  (* any remaining cell *)
  apply Hplace. rewrite Ecells. by left.
Qed.

Lemma win_loop_spec cells i w :
  objs w !! b = Some bd →
  returns (win_loop b i cells) w
    (λ r w', within (2 * Z.to_nat (3 - i)) w w' ∧
             ∀ v, r = Some v → ∃ p, p ∈ cells ∧ placed_at p v).
Proof.
  revert i w. induction cells as [|p rest IH]; intros i w Hb.
  - apply returns_ret. split; [apply within_refl|done].
  - cbn [win_loop]. destruct (3 <=? i) eqn:Hi.
    { apply returns_ret. split; [apply within_refl|done]. }
    apply Z.leb_gt in Hi.
    apply returns_bind, returns_consult; [done|by apply _can_win_here_total|].
    intros s _. destruct s.
    { apply returns_ret. split; [split; simpl; [done|lia]|].
      intros v [= <-]. exists p. split; [by left|]. exists "S". split; [done|by left]. }
    apply returns_bind, returns_consult; [done|by apply _can_win_here_total|].
    intros o _. destruct o.
    { apply returns_ret. split; [split; simpl; [done|lia]|].
      intros v [= <-]. exists p. split; [by left|]. exists "O". split; [done|by right]. }
    eapply returns_mono; [by apply IH|].
    intros r w' [[Ho Hc] Hr]. split; [split; simpl in *; [done|lia]|].
    intros v Hv. destruct (Hr v Hv) as (q & Hq & Hp). exists q.
    split; [by right|done].
Qed.

Lemma block_loop_spec cells i w :
  objs w !! b = Some bd →
  returns (block_loop b i cells) w
    (λ r w', within (Z.to_nat (2 - i)) w w' ∧
             ∀ v, r = Some v → ∃ p, p ∈ cells ∧ placed_at p v).
Proof.
  revert i w. induction cells as [|p rest IH]; intros i w Hb.
  - apply returns_ret. split; [apply within_refl|done].
  - cbn [block_loop]. destruct (2 <=? i) eqn:Hi.
    { apply returns_ret. split; [apply within_refl|done]. }
    apply Z.leb_gt in Hi.
    apply returns_bind, returns_consult; [done|by apply _should_block_here_total|].
    intros s _. destruct s.
    { apply returns_bind, returns_random_choice; [done|]. intros l rest' Hl.
      apply returns_ret. split; [split; simpl; [done|lia]|].
      intros v [= <-]. exists p. split; [by left|]. exists l. split; [done|].
      apply elem_of_cons in Hl as [->|Hl]; [by left|].
      apply list_elem_of_singleton in Hl as ->. by right. }
    eapply returns_mono; [by apply IH|].
    intros r w' [[Ho Hc] Hr]. split; [split; simpl in *; [done|lia]|].
    intros v Hv. destruct (Hr v Hv) as (q & Hq & Hp). exists q.
    split; [by right|done].
Qed.

(** What [get_move] hands back: the sentinel on a board without empty
    cells, otherwise an empty cell and one of the two letters. *)
Definition free_answer (m : move) : Prop :=
  base_empty_cells bd = [] ∧ m = no_move ∨
  ∃ p l, p ∈ base_empty_cells bd ∧ either_letter l ∧
         m = (Some p.1, Some p.2, Some l).

Lemma free_get_move_spec difficulty w :
  objs w !! b = Some bd →
  returns (AIPlayer.get_move difficulty b) w
    (λ m w', within 10 w w' ∧ free_answer m).
Proof.
  intros Hb. unfold AIPlayer.get_move.
  apply returns_bind,
    (returns_read b _ bd (base_empty_cells bd));
    [done|by apply base_get_empty_cells_spec|].
  pose proof (within_tick w) as Ht.
  assert (∀ w1 p v, within 9 (tick w) w1 → p ∈ base_empty_cells bd →
                    placed_at p v →
                    within 10 w w1 ∧ free_answer (some_move v)) as Hans.
  { intros w1 p v Hw1 Hp (l & -> & Hl). split; [by eapply within_trans|].
    right. by exists p, l. }
  destruct (base_empty_cells bd) as [|p0 rest] eqn:Ecells.
  { apply returns_ret. split; [|left; by rewrite Ecells].
    eapply within_trans; [exact Ht|apply (within_refl 0)|lia]. }
  rewrite -Ecells in Hans |- *.
  assert (base_empty_cells bd ≠ []) as Hne by by rewrite Ecells.
  (* the win stage *)
  apply returns_bind. eapply returns_mono; [by apply win_loop_spec|].
  intros r1 w1 [Hw1 Hr1]. simpl in Hw1. destruct r1 as [v|].
  { destruct (Hr1 v eq_refl) as (p & Hp & Hv). apply returns_ret.
    apply (Hans _ p); [|done..].
    eapply within_trans; [exact Hw1|apply (within_refl 0)|lia]. }
  assert (objs w1 !! b = Some bd) as Hb1 by by rewrite (proj1 Hw1).
  (* the block stage *)
  cbn [AIPlayer.or_else]. apply returns_bind.
  eapply (returns_mono _ _
            (λ r w', within 2 w1 w' ∧
                     ∀ v, r = Some v → ∃ p, p ∈ base_empty_cells bd ∧ placed_at p v)).
  { case_bool_decide.
    - eapply returns_mono; [by apply block_loop_spec|]. by intros r w' [? ?].
    - apply returns_ret. split; [apply within_refl|done]. }
  intros r2 w2 [Hw2 Hr2]. destruct r2 as [v|].
  { destruct (Hr2 v eq_refl) as (p & Hp & Hv). apply returns_ret.
    apply (Hans _ p); [|done..].
    eapply within_trans; [exact Hw1|exact Hw2|lia]. }
  assert (objs w2 !! b = Some bd) as Hb2 by by rewrite (proj1 Hw2).
  (* the positional stage *)
  cbn [AIPlayer.or_else]. apply returns_bind.
  eapply returns_mono; [by apply _get_quick_strategic_move_spec|].
  intros r3 w3 [Hw3 (p & v & Hp & -> & Hv)]. apply returns_ret.
  apply (Hans _ p); [|done..].
  eapply within_trans;
    [exact Hw1|eapply (within_trans _ _ 3); [exact Hw2|exact Hw3|lia]|lia].
Qed.

End on_base_board.

(** ** The stages as the specification words them *)

(** Following the specification: the check for an immediate win over the
    given cells, in order, with either letter (['S'] first); the first
    winning placement is returned. *)
Definition scan_win (board : nat) (cells : list pos)
  : M SOSBoard (option (Z * Z * string)) :=
  first_return cells
    (fun p : pos =>
       s ← read board (fun self => _can_win_here self p.1 p.2 "S");
       if (s : bool) then mret (Some (p.1, p.2, "S"))
       else
         o ← read board (fun self => _can_win_here self p.1 p.2 "O");
         mret (if (o : bool) then Some (p.1, p.2, "O") else None)).



Lemma win_loop_prefix board cells i w :
  0 ≤ i ≤ 3 →
  win_loop board i cells w = scan_win board (take (Z.to_nat (3 - i)) cells) w.
Proof.
  revert i w. induction cells as [|p rest IH]; intros i w Hi.
  - by rewrite take_nil.
  - cbn [win_loop]. destruct (3 <=? i) eqn:E.
    + apply Z.leb_le in E. by replace (Z.to_nat (3 - i)) with 0%nat by lia.
    + apply Z.leb_gt in E.
      replace (Z.to_nat (3 - i)) with (S (Z.to_nat (3 - (i + 1)))) by lia.
      cbn [take]. unfold scan_win. cbn [first_return].
      unfold mbind, M_bind, mret, M_ret.
      destruct (read board (λ self, _can_win_here self p.1 p.2 "S") w)
        as [[[|] w1]|e]; [done| |done].
      destruct (read board (λ self, _can_win_here self p.1 p.2 "O") w1)
        as [[[|] w2]|e]; [done| |done].
      apply IH. lia.
Qed.



End free_letter_ai.

(** * The players: the properties of the specification *)

Section player_properties.

(** The value a computation returns, if it returns. *)
Definition result {B A} (r : res (A * World B)) : option A :=
  match r with
  | Ok (a, _) => Some a
  | Raise _ => None
  end.

Lemma enhanced_is_full_spec (self : Enhanced.SOSBoard) :
  wf self → Enhanced.is_full self = true ↔ empty_cells self = [].
Proof.
  intros Hwf.
  apply (no_cell_is (λ c : Enhanced.cell, bool_decide (c = None))
                    (Enhanced.size self) (Enhanced.board self) Hwf).
Qed.

Lemma base_is_full_spec (self : Base.SOSBoard) :
  base_wf self → Base.is_full self = true ↔ base_empty_cells self = [].
Proof.
  intros Hwf.
  apply (no_cell_is (λ c : Base.cell, bool_decide (c = ""))
                    (Base.size self) (Base.board self) Hwf).
Qed.

Lemma not_full_empty_cells (self : Enhanced.SOSBoard) :
  wf self → Enhanced.is_full self = false → empty_cells self ≠ [].
Proof. intros Hwf Hf He%enhanced_is_full_spec; congruence. Qed.

Lemma base_not_full_empty_cells (self : Base.SOSBoard) :
  base_wf self → Base.is_full self = false → base_empty_cells self ≠ [].
Proof. intros Hwf Hf He%base_is_full_spec; congruence. Qed.

(** A full board: ['S'] on every cell of a 5x5 board. *)
Definition full_game : list (Z * Z * string) :=
  (λ p : pos, (p.1, p.2, "S")) <$> positions 5.

Definition enhanced_full : Enhanced.SOSBoard :=
  board_after (play (Enhanced.new 5) full_game).

(** C3, as stated, fails for the fixed-letter player: on a full board
    [EnhancedAI.get_move] answers [(None, None, 'O')], whatever the
    difficulty, and not [(None, None, None)]: the last line of [get_move]
    always puts the player's own letter in the third place. *)
Lemma fixed_letter_answer_on_full_board :
  Enhanced.is_full enhanced_full = true ∧
  result (EnhancedAI.get_move EnhancedAI.EASY 0
            (mkWorld [enhanced_full] [] 0%nat))
    = Some (None, None, Some "O") ∧
  result (EnhancedAI.get_move EnhancedAI.MEDIUM 0
            (mkWorld [enhanced_full] [2 ^ 53 - 1] 0%nat))
    = Some (None, None, Some "O") ∧
  result (EnhancedAI.get_move EnhancedAI.HARD 0
            (mkWorld [enhanced_full] [2 ^ 53 - 1] 0%nat))
    = Some (None, None, Some "O") ∧
  (None, None, Some "O") ≠ no_move.
Proof. split_and!; [vm_compute; reflexivity..|discriminate]. Qed.

(** C3, amended. The free-letter player answers [(None, None, None)]
    exactly when the board has no empty cell.  The fixed-letter player
    answers [None] for the row and for the column exactly when the board
    has no empty cell, and its third component is always its letter ['O']:
    on a full board the answer is [(None, None, 'O')]. *)
Theorem get_move_sentinel
    (e : Enhanced.SOSBoard) (bb : Base.SOSBoard) (b : nat)
    (difficulty : EnhancedAI.Difficulty) (mode : string)
    (we : World Enhanced.SOSBoard) (wb : World Base.SOSBoard) :
  (wf e → objs we !! b = Some e →
   ∃ m w',
     EnhancedAI.get_move difficulty b we = Ok (m, w') ∧
     m.2 = Some "O" ∧
     (m.1.1 = None ∧ m.1.2 = None ↔ Enhanced.is_full e = true) ∧
     (Enhanced.is_full e = true → m = (None, None, Some "O"))) ∧
  (base_wf bb → objs wb !! b = Some bb →
   ∃ m w',
     AIPlayer.get_move mode b wb = Ok (m, w') ∧
     (m = no_move ↔ Base.is_full bb = true)).
Proof.
  split.
  - intros Hwf Hb.
    destruct (get_move_spec b e Hwf we Hb difficulty we (keeps_refl we))
      as (m & w' & E & _ & H).
    exists m, w'. split; [done|].
    destruct H as [[He ->]|[Hne (p & Hp & ->)]].
    + apply enhanced_is_full_spec in He; [|done]. by rewrite He.
    + split; [done|].
      assert (Enhanced.is_full e ≠ true) as Hnf
        by by intros ?%enhanced_is_full_spec.
      split; [|done]. split; [by intros [? _]|done].
  - intros Hwf Hb.
    destruct (free_get_move_spec b bb Hwf mode wb Hb) as (m & w' & E & _ & H).
    exists m, w'. split; [done|].
    destruct H as [[He ->]|(p & l & Hp & Hl & ->)].
    + by apply base_is_full_spec in He.
    + split; [done|]. intros Hf%base_is_full_spec; [|done].
      rewrite Hf in Hp. by apply elem_of_nil in Hp.
Qed.

Lemma get_move_sentinel_witness :
  (∃ m w',
     EnhancedAI.get_move EnhancedAI.HARD 0
       (mkWorld [enhanced_full] [2 ^ 53 - 1] 0%nat) = Ok (m, w') ∧
     m.2 = Some "O" ∧
     (m.1.1 = None ∧ m.1.2 = None ↔ Enhanced.is_full enhanced_full = true) ∧
     (Enhanced.is_full enhanced_full = true → m = (None, None, Some "O"))) ∧
  (∃ m w',
     AIPlayer.get_move "hard" 0 (mkWorld [base_two_s] [] 0%nat) = Ok (m, w') ∧
     (m = no_move ↔ Base.is_full base_two_s = true)).
Proof.
  split.
  - apply (get_move_sentinel enhanced_full base_two_s 0 EnhancedAI.HARD "hard"
             (mkWorld [enhanced_full] [2 ^ 53 - 1] 0%nat)
             (mkWorld [base_two_s] [] 0%nat)).
    + apply reachable_wf, board_after_play_reachable.
    + reflexivity.
  - apply (get_move_sentinel enhanced_full base_two_s 0 EnhancedAI.HARD "hard"
             (mkWorld [enhanced_full] [2 ^ 53 - 1] 0%nat)
             (mkWorld [base_two_s] [] 0%nat)).
    + split; [reflexivity|]. by repeat constructor.
    + reflexivity.
Defined.

(** C6. On a board with at least one empty cell, [get_move] of either
    player, at any difficulty and for any draws of the random source,
    returns a cell that is on the board and empty ([is_valid_move] accepts
    it) and a letter that is ['S'] or ['O']; the board object passed in is
    the same afterwards: grid, recorded sequences and history. *)
Theorem get_move_valid_and_board_unchanged
    (e : Enhanced.SOSBoard) (bb : Base.SOSBoard) (b : nat)
    (difficulty : EnhancedAI.Difficulty) (mode : string)
    (we : World Enhanced.SOSBoard) (wb : World Base.SOSBoard) :
  (wf e → objs we !! b = Some e → Enhanced.is_full e = false →
   ∃ row col letter w',
     EnhancedAI.get_move difficulty b we =
       Ok ((Some row, Some col, Some letter), w') ∧
     Enhanced.is_valid_move e row col = Ok true ∧
     (letter = "S" ∨ letter = "O") ∧
     objs w' !! b = Some e) ∧
  (base_wf bb → objs wb !! b = Some bb → Base.is_full bb = false →
   ∃ row col letter w',
     AIPlayer.get_move mode b wb =
       Ok ((Some row, Some col, Some letter), w') ∧
     Base.is_valid_move bb row col = Ok true ∧
     (letter = "S" ∨ letter = "O") ∧
     objs w' !! b = Some bb).
Proof.
  split.
  - intros Hwf Hb Hnf.
    destruct (get_move_spec b e Hwf we Hb difficulty we (keeps_refl we))
      as (m & w' & E & Hk & H).
    destruct H as [[He _]|[_ (p & Hp & ->)]].
    { by apply not_full_empty_cells in Hnf. }
    exists p.1, p.2, EnhancedAI.letter, w'. split_and!; [done| |by right|].
    + by apply elem_of_empty_cells.
    + by eapply keeps_lookup.
  - intros Hwf Hb Hnf.
    destruct (free_get_move_spec b bb Hwf mode wb Hb)
      as (m & w' & E & [Ho _] & H).
    destruct H as [[He _]|(p & l & Hp & Hl & ->)].
    { by apply base_not_full_empty_cells in Hnf. }
    exists p.1, p.2, l, w'. split_and!; [done| |done|by rewrite Ho].
    by apply elem_of_base_empty_cells.
Qed.

Lemma get_move_valid_and_board_unchanged_witness :
  (∃ row col letter w',
     EnhancedAI.get_move EnhancedAI.HARD 0
       (mkWorld [enhanced_two_s] [2 ^ 53 - 1] 0%nat) =
       Ok ((Some row, Some col, Some letter), w') ∧
     Enhanced.is_valid_move enhanced_two_s row col = Ok true ∧
     (letter = "S" ∨ letter = "O") ∧
     objs w' !! 0%nat = Some enhanced_two_s) ∧
  (∃ row col letter w',
     AIPlayer.get_move "hard" 0 (mkWorld [base_two_s] [] 0%nat) =
       Ok ((Some row, Some col, Some letter), w') ∧
     Base.is_valid_move base_two_s row col = Ok true ∧
     (letter = "S" ∨ letter = "O") ∧
     objs w' !! 0%nat = Some base_two_s).
Proof.
  split.
  - apply (get_move_valid_and_board_unchanged enhanced_two_s base_two_s 0
             EnhancedAI.HARD "hard"
             (mkWorld [enhanced_two_s] [2 ^ 53 - 1] 0%nat)
             (mkWorld [base_two_s] [] 0%nat)).
    + apply reachable_wf, enhanced_two_s_reachable.
    + reflexivity.
    + reflexivity.
  - apply (get_move_valid_and_board_unchanged enhanced_two_s base_two_s 0
             EnhancedAI.HARD "hard"
             (mkWorld [enhanced_two_s] [2 ^ 53 - 1] 0%nat)
             (mkWorld [base_two_s] [] 0%nat)).
    + split; [reflexivity|]. by repeat constructor.
    + reflexivity.
    + reflexivity.
Defined.

(** Two ['S'] on the last row, one cell apart. *)
Definition late_line : Enhanced.SOSBoard :=
  board_after (play (Enhanced.new 5) [(4, 2, "S"); (4, 4, "S")]).

(** One ['S'] in the corner of the last row. *)
Definition corner_s : Enhanced.SOSBoard :=
  board_after (play (Enhanced.new 5) [(4, 0, "S")]).

(** C9, as stated, fails: the candidates are not limited to the first 5
    empty cells.  On [late_line] the first five empty cells are those of row
    0, and the lookahead returns [(4,3)], the 22nd empty cell, where ['O']
    completes a line.  It is the opponent's replies that are limited to the
    first 5 empty cells: on [corner_s], after ['O'] at [(4,1)] the reply
    ['S'] at [(4,2)] gains 2, yet the reply gain counted is 0. *)
Lemma lookahead_candidates_are_not_sampled :
  take 5 (empty_cells late_line) = [(0, 0); (0, 1); (0, 2); (0, 3); (0, 4)] ∧
  result (EnhancedAI._find_best_move_with_lookahead 0
            (mkWorld [late_line] [] 0%nat))
    = Some (Some (4, 3, "O")) ∧
  ((4, 3) ∉ take 5 (empty_cells late_line)) ∧
  opponent_best corner_s (4, 1) = 0 ∧
  gain (after corner_s (4, 1) "O" "AI") (4, 2) "S" "Human" = 2.
Proof.
  split_and!; try (vm_compute; reflexivity).
  assert (take 5 (empty_cells late_line)
          = [(0, 0); (0, 1); (0, 2); (0, 3); (0, 4)]) as ->
    by (vm_compute; reflexivity).
  rewrite !elem_of_cons elem_of_nil. intros [H|[H|[H|[H|[H|[]]]]]]; discriminate H.
Qed.

(** C9, amended. The lookahead stage scores every empty cell [p] as a
    candidate: 10 times what [make_move] returns for ['O'] at [p], minus 5
    times the best return of an ['S'] reply among the first 5 empty cells
    (in scan order) of the board after that move.  It returns the first
    cell in scan order whose score is maximal, with letter ['O'], and leaves
    the board passed in unchanged. *)
Theorem lookahead_returns_first_maximum
    (e : Enhanced.SOSBoard) (b : nat) (w : World Enhanced.SOSBoard) :
  wf e → objs w !! b = Some e → Enhanced.is_full e = false →
  ∃ l1 p l2 w',
    EnhancedAI._find_best_move_with_lookahead b w = Ok (Some (p.1, p.2, "O"), w') ∧
    Enhanced.get_empty_cells e = Ok (l1 ++ p :: l2) ∧
    (∀ q, q ∈ l1 → lookahead_score e q < lookahead_score e p) ∧
    (∀ q, q ∈ l2 → lookahead_score e q ≤ lookahead_score e p) ∧
    objs w' !! b = Some e.
Proof.
  intros Hwf Hb Hnf. pose proof (not_full_empty_cells e Hwf Hnf) as Hne.
  destruct (_find_best_move_with_lookahead_spec b e Hwf w Hb w (keeps_refl w) Hne)
    as (r & w' & E & Hk & ->).
  destruct (keep_best_first_maximum e (empty_cells e) Hne)
    as (l1 & p & l2 & El & Hf & H1 & H2).
  exists l1, p, l2, w'. rewrite Hf in E. split_and!; [done| |done..|].
  - by rewrite get_empty_cells_spec // El.
  - by eapply keeps_lookup.
Qed.

Lemma lookahead_returns_first_maximum_witness :
  ∃ l1 p l2 w',
    EnhancedAI._find_best_move_with_lookahead 0 (mkWorld [late_line] [] 0%nat)
      = Ok (Some (p.1, p.2, "O"), w') ∧
    Enhanced.get_empty_cells late_line = Ok (l1 ++ p :: l2) ∧
    (∀ q, q ∈ l1 → lookahead_score late_line q < lookahead_score late_line p) ∧
    (∀ q, q ∈ l2 → lookahead_score late_line q ≤ lookahead_score late_line p) ∧
    objs w' !! 0%nat = Some late_line.
Proof.
  apply (lookahead_returns_first_maximum late_line 0
           (mkWorld [late_line] [] 0%nat)).
  - apply reachable_wf, board_after_play_reachable.
  - reflexivity.
  - vm_compute. reflexivity.
Defined.

End player_properties.

(** * The boards: further properties *)

Section row_major_order.

(** [p] comes before [q] when the board is read row by row. *)
Definition row_major (p q : pos) : Prop :=
  p.1 < q.1 ∨ p.1 = q.1 ∧ p.2 < q.2.

Lemma py_range_sorted n : StronglySorted Z.lt (py_range n).
Proof.
  unfold py_range. generalize 0%nat as start.
  induction (Z.to_nat n) as [|len IH]; intros start; simpl; constructor.
  - apply IH.
  - apply Forall_fmap, Forall_forall. intros k Hk%elem_of_seq. simpl. lia.
Qed.

Lemma product_sorted (rows cols : list Z) :
  StronglySorted Z.lt rows → StronglySorted Z.lt cols →
  StronglySorted row_major (r ← rows; c ← cols; [(r, c)]).
Proof.
  intros Hrows Hcols.
  assert (∀ r, StronglySorted row_major (c ← cols; [(r, c)])) as Hrow.
  { intros r. clear Hrows. induction Hcols as [|c cs _ IH Hc]; [constructor|].
    change (StronglySorted row_major ((r, c) :: (c' ← cs; [(r, c')]))).
    constructor; [exact IH|].
    apply Forall_forall.
    intros q (c' & ->%list_elem_of_singleton & Hc')%list_elem_of_bind.
    rewrite Forall_forall in Hc. right. simpl. split; [done|]. by apply Hc. }
  clear Hcols. induction Hrows as [|r rs _ IH Hr]; [constructor|].
  change (StronglySorted row_major
            ((c ← cols; [(r, c)]) ++ (r' ← rs; c ← cols; [(r', c)]))).
  apply StronglySorted_app_2; [|done..].
  intros p q (c & ->%list_elem_of_singleton & _)%list_elem_of_bind
             (r' & (c' & ->%list_elem_of_singleton & _)%list_elem_of_bind
                 & Hr')%list_elem_of_bind.
  rewrite Forall_forall in Hr. left. simpl. by apply Hr.
Qed.

Lemma positions_sorted n : StronglySorted row_major (positions n).
Proof. apply product_sorted; apply py_range_sorted. Qed.

Lemma StronglySorted_filter {A} (R : relation A) (P : A → Prop)
    `{!∀ x, Decision (P x)} (l : list A) :
  StronglySorted R l → StronglySorted R (filter P l).
Proof.
  induction 1 as [|x l _ IH Hx]; [constructor|].
  rewrite filter_cons. destruct (decide (P x)); [|done].
  constructor; [done|]. rewrite !Forall_forall in Hx |- *.
  intros y [_ Hy]%list_elem_of_filter. by apply Hx.
Qed.

Lemma row_major_irrefl p : ¬ row_major p p.
Proof. unfold row_major. lia. Qed.

Lemma StronglySorted_NoDup {A} (R : relation A) (l : list A) :
  (∀ x, ¬ R x x) → StronglySorted R l → NoDup l.
Proof.
  intros Hirr. induction 1 as [|x l _ IH Hx]; constructor; [|done].
  intros Hin. rewrite Forall_forall in Hx. by eapply Hirr, Hx.
Qed.

End row_major_order.

Section board_coverage.

Lemma get_cell_lookup2 (self : Enhanced.SOSBoard) row col :
  wf self →
  Enhanced.get_cell self row col =
    Ok (if Enhanced._is_valid_pos self row col
        then default None (lookup2 (Enhanced.board self) row col)
        else None).
Proof.
  intros Hwf. unfold Enhanced.get_cell.
  destruct (Enhanced._is_valid_pos self row col) eqn:Hv; [|done].
  destruct (grid_get_valid self row col Hwf Hv) as (c & L & ->). by rewrite L.
Qed.

Lemma get_cell_holdsb (self : Enhanced.SOSBoard) row col x :
  wf self →
  Enhanced.get_cell self row col = Ok (Some x) ↔ holdsb self (row, col) x = true.
Proof.
  intros Hwf. rewrite get_cell_lookup2 //. unfold holdsb. simpl.
  destruct (Enhanced._is_valid_pos self row col) eqn:Hv; [|by split].
  destruct (grid_get_valid self row col Hwf Hv) as (c & L & _). rewrite L /=.
  rewrite bool_decide_eq_true. split; by intros [= ->].
Qed.

Lemma base_get_cell_lookup2 (self : Base.SOSBoard) row col :
  base_wf self →
  Base.get_cell self row col =
    Ok (if Base._is_valid_pos self row col
        then lookup2 (Base.board self) row col
        else None).
Proof.
  intros Hwf. unfold Base.get_cell.
  destruct (Base._is_valid_pos self row col) eqn:Hv; [|done].
  destruct (base_grid_get_valid self row col Hwf Hv) as (c & L & ->).
  by rewrite L.
Qed.

(** [get_empty_cells] returns the valid moves of the board, each once, in
    the order in which the board is read row by row.  This holds for the
    enhanced board and for the base board. *)
Theorem get_empty_cells_lists_valid_moves
    (e : Enhanced.SOSBoard) (b : Base.SOSBoard) :
  (wf e →
   ∃ l, Enhanced.get_empty_cells e = Ok l ∧
        StronglySorted row_major l ∧ NoDup l ∧
        ∀ row col, (row, col) ∈ l ↔ Enhanced.is_valid_move e row col = Ok true) ∧
  (base_wf b →
   ∃ l, Base.get_empty_cells b = Ok l ∧
        StronglySorted row_major l ∧ NoDup l ∧
        ∀ row col, (row, col) ∈ l ↔ Base.is_valid_move b row col = Ok true).
Proof.
  split; intros Hwf.
  - exists (empty_cells e).
    assert (StronglySorted row_major (empty_cells e)) as Hs
      by apply StronglySorted_filter, positions_sorted.
    split_and!; [by apply get_empty_cells_spec|done| |].
    + eapply StronglySorted_NoDup; [apply row_major_irrefl|done].
    + intros row col. by rewrite (elem_of_empty_cells e (row, col)).
  - exists (base_empty_cells b).
    assert (StronglySorted row_major (base_empty_cells b)) as Hs
      by apply StronglySorted_filter, positions_sorted.
    split_and!; [by apply base_get_empty_cells_spec|done| |].
    + eapply StronglySorted_NoDup; [apply row_major_irrefl|done].
    + intros row col. by rewrite (elem_of_base_empty_cells b (row, col)).
Qed.

Lemma get_empty_cells_lists_valid_moves_witness :
  (∃ l, Enhanced.get_empty_cells enhanced_two_s = Ok l ∧
        StronglySorted row_major l ∧ NoDup l ∧
        ∀ row col, (row, col) ∈ l ↔
                   Enhanced.is_valid_move enhanced_two_s row col = Ok true) ∧
  (∃ l, Base.get_empty_cells base_two_s = Ok l ∧
        StronglySorted row_major l ∧ NoDup l ∧
        ∀ row col, (row, col) ∈ l ↔
                   Base.is_valid_move base_two_s row col = Ok true).
Proof.
  split.
  - apply (get_empty_cells_lists_valid_moves enhanced_two_s base_two_s).
    apply reachable_wf, enhanced_two_s_reachable.
  - apply (get_empty_cells_lists_valid_moves enhanced_two_s base_two_s).
    split; [reflexivity|]. by repeat constructor.
Defined.

(** [is_full] answers [True] exactly when [get_empty_cells] returns the
    empty list, that is, when no move is valid.  This holds for the
    enhanced board and for the base board. *)
Theorem is_full_iff_no_valid_move
    (e : Enhanced.SOSBoard) (b : Base.SOSBoard) :
  (wf e →
   (Enhanced.is_full e = true ↔ Enhanced.get_empty_cells e = Ok []) ∧
   (Enhanced.is_full e = true ↔
    ∀ row col, Enhanced.is_valid_move e row col = Ok false)) ∧
  (base_wf b →
   (Base.is_full b = true ↔ Base.get_empty_cells b = Ok []) ∧
   (Base.is_full b = true ↔
    ∀ row col, Base.is_valid_move b row col = Ok false)).
Proof.
  split; intros Hwf.
  - rewrite get_empty_cells_spec // enhanced_is_full_spec //.
    split; [split; congruence|]. split.
    + intros He row col.
      destruct (make_move_cases e row col Hwf) as [Hv|Hv]; [|done].
      apply (elem_of_empty_cells e (row, col)) in Hv; [|done].
      rewrite He in Hv. by apply elem_of_nil in Hv.
    + intros Hno. destruct (empty_cells e) as [|p l] eqn:E; [done|].
      assert (p ∈ empty_cells e) as Hp by (rewrite E; by left).
      apply elem_of_empty_cells in Hp; [|done]. by rewrite Hno in Hp.
  - rewrite base_get_empty_cells_spec // base_is_full_spec //.
    split; [split; congruence|]. split.
    + intros He row col.
      destruct (Base.is_valid_move b row col) as [[]|err] eqn:Hv; [|done|].
      * apply (elem_of_base_empty_cells b (row, col)) in Hv; [|done].
        rewrite He in Hv. by apply elem_of_nil in Hv.
      * exfalso. revert Hv. unfold Base.is_valid_move.
        change ((0 <=? row) && (row <? Base.size b) && (0 <=? col)
                && (col <? Base.size b))
          with (Base._is_valid_pos b row col).
        destruct (Base._is_valid_pos b row col) eqn:Hp; [|done].
        by destruct (base_grid_get_valid b row col Hwf Hp) as (c & _ & ->).
    + intros Hno. destruct (base_empty_cells b) as [|p l] eqn:E; [done|].
      assert (p ∈ base_empty_cells b) as Hp by (rewrite E; by left).
      apply elem_of_base_empty_cells in Hp; [|done]. by rewrite Hno in Hp.
Qed.

Lemma is_full_iff_no_valid_move_witness :
  ((Enhanced.is_full enhanced_full = true ↔
    Enhanced.get_empty_cells enhanced_full = Ok []) ∧
   (Enhanced.is_full enhanced_full = true ↔
    ∀ row col, Enhanced.is_valid_move enhanced_full row col = Ok false)) ∧
  ((Base.is_full base_two_s = true ↔ Base.get_empty_cells base_two_s = Ok []) ∧
   (Base.is_full base_two_s = true ↔
    ∀ row col, Base.is_valid_move base_two_s row col = Ok false)).
Proof.
  split.
  - apply (is_full_iff_no_valid_move enhanced_full base_two_s).
    apply reachable_wf, board_after_play_reachable.
  - apply (is_full_iff_no_valid_move enhanced_full base_two_s).
    split; [reflexivity|]. by repeat constructor.
Defined.


(** On a valid position of a board whose grid is its [size] squared,
    [make_move] of the enhanced board writes the letter into that cell and
    into no other, appends one [Move] with the position, the letter, the
    player's name and the number it returns, and the cell is no longer a
    valid move. *)
Theorem make_move_places_letter
    (self : Enhanced.SOSBoard) (row col : Z) (letter player_name : string) :
  wf self → Enhanced.is_valid_move self row col = Ok true →
  ∃ k self',
    Enhanced.make_move self row col letter player_name = Ok (k, self') ∧
    Enhanced.size self' = Enhanced.size self ∧
    Enhanced.get_cell self' row col = Ok (Some letter) ∧
    (∀ r c, (r, c) ≠ (row, col) →
            Enhanced.get_cell self' r c = Enhanced.get_cell self r c) ∧
    Enhanced.is_valid_move self' row col = Ok false ∧
    Enhanced.move_history self' =
      Enhanced.move_history self ++
      [Enhanced.Move.mk row col letter player_name k].
Proof.
  intros Hwf Hv.
  destruct (make_move_valid self row col letter player_name Hwf Hv)
    as (news & E & _). simpl in E.
  set (self' := Enhanced.mkBoard _ _ _ _) in E.
  apply is_valid_move_true in Hv as [Hp Hnone]; [|done].
  destruct (proj1 (_is_valid_pos_spec _ _ _) Hp) as [Hr Hc].
  assert (wf self') as Hwf' by by apply wf_grid_upd2.
  assert (∀ r c, Enhanced._is_valid_pos self' r c = Enhanced._is_valid_pos self r c)
    as Hsame by done.
  exists (Z.of_nat (length news)), self'. split_and!; [done..| | | |done].
  - rewrite get_cell_lookup2 // Hsame Hp. unfold self'. simpl.
    by rewrite (lookup2_upd2_eq (Enhanced.size self)).
  - intros r c Hne. rewrite !get_cell_lookup2 // Hsame.
    destruct (Enhanced._is_valid_pos self r c) eqn:Hp'; [|done].
    destruct (proj1 (_is_valid_pos_spec _ _ _) Hp') as [Hr' Hc'].
    unfold self'. simpl. rewrite lookup2_upd2_ne //; lia.
  - rewrite is_valid_move_spec // Hsame Hp. unfold self'. simpl.
    rewrite (lookup2_upd2_eq (Enhanced.size self)) //.
Qed.

Lemma make_move_places_letter_witness :
  ∃ k self',
    Enhanced.make_move enhanced_two_s 2 2 "O" "AI" = Ok (k, self') ∧
    Enhanced.size self' = Enhanced.size enhanced_two_s ∧
    Enhanced.get_cell self' 2 2 = Ok (Some "O") ∧
    (∀ r c, (r, c) ≠ (2, 2) →
            Enhanced.get_cell self' r c = Enhanced.get_cell enhanced_two_s r c) ∧
    Enhanced.is_valid_move self' 2 2 = Ok false ∧
    Enhanced.move_history self' =
      Enhanced.move_history enhanced_two_s ++
      [Enhanced.Move.mk 2 2 "O" "AI" k].
Proof.
  apply (make_move_places_letter enhanced_two_s 2 2 "O" "AI").
  - apply reachable_wf, enhanced_two_s_reachable.
  - reflexivity.
Defined.

(** On a board reached by [make_move] and [undo_last_move] calls,
    [undo_last_move] always returns.  With an empty history it returns
    [None] and leaves the board as it is.  Otherwise it returns the last
    move of the history, removes it from the history, empties its cell and
    leaves every other cell as it is. *)
Theorem undo_last_move_pops (self : Enhanced.SOSBoard) :
  reachable self →
  ∃ r self',
    Enhanced.undo_last_move self = Ok (r, self') ∧
    r = last (Enhanced.move_history self) ∧
    (r = None → self' = self) ∧
    Enhanced.size self' = Enhanced.size self ∧
    Enhanced.move_history self' = removelast (Enhanced.move_history self) ∧
    ∀ m, r = Some m →
      Enhanced.get_cell self' (Enhanced.Move.row m) (Enhanced.Move.col m)
        = Ok None ∧
      ∀ row col,
        (row, col) ≠ (Enhanced.Move.row m, Enhanced.Move.col m) →
        Enhanced.get_cell self' row col = Enhanced.get_cell self row col.
Proof.
  intros Hinv%reachable_inv. pose proof (inv_wf _ Hinv) as Hwf.
  destruct (Enhanced.move_history self) as [|m0 h] eqn:Hh using rev_ind.
  - exists None, self. by rewrite undo_last_move_empty.
  - clear IHh.
    destruct (undo_last_move_spec self h m0 Hinv Hh) as (sqs & E & Hinv').
    simpl in E, Hinv'. set (self' := Enhanced.mkBoard _ _ _ _) in E, Hinv'.
    pose proof (inv_wf _ Hinv') as Hwf'.
    assert (holdsb self (move_pos m0) (Enhanced.Move.letter m0) = true) as Hm.
    { apply (inv_hist _ Hinv). rewrite Hh. apply elem_of_app. right. by left. }
    apply holdsb_spec in Hm as [[Hr Hc] _]. simpl in Hr, Hc.
    assert (∀ r c, Enhanced._is_valid_pos self' r c
                   = Enhanced._is_valid_pos self r c) as Hsame by done.
    exists (Some m0), self'.
    rewrite last_snoc removelast_last. split_and!; [done..|].
    intros m [= <-]. split.
    + rewrite get_cell_lookup2 // Hsame.
      rewrite (proj2 (_is_valid_pos_spec _ _ _)) //.
      unfold self'. simpl. by rewrite (lookup2_upd2_eq (Enhanced.size self)).
    + intros row col Hne. rewrite !get_cell_lookup2 // Hsame.
      destruct (Enhanced._is_valid_pos self row col) eqn:Hp'; [|done].
      destruct (proj1 (_is_valid_pos_spec _ _ _) Hp') as [Hr' Hc'].
      unfold self'. simpl. rewrite lookup2_upd2_ne //; lia.
Qed.

Lemma undo_last_move_pops_witness :
  ∃ r self',
    Enhanced.undo_last_move enhanced_two_s = Ok (r, self') ∧
    r = last (Enhanced.move_history enhanced_two_s) ∧
    (r = None → self' = enhanced_two_s) ∧
    Enhanced.size self' = Enhanced.size enhanced_two_s ∧
    Enhanced.move_history self' =
      removelast (Enhanced.move_history enhanced_two_s) ∧
    ∀ m, r = Some m →
      Enhanced.get_cell self' (Enhanced.Move.row m) (Enhanced.Move.col m)
        = Ok None ∧
      ∀ row col,
        (row, col) ≠ (Enhanced.Move.row m, Enhanced.Move.col m) →
        Enhanced.get_cell self' row col
          = Enhanced.get_cell enhanced_two_s row col.
Proof.
  apply (undo_last_move_pops enhanced_two_s), enhanced_two_s_reachable.
Defined.

(** On a board reached by [make_move] and [undo_last_move] calls, the
    recorded sequences are exactly the S-O-S lines of the grid: a list of
    three positions is in [sos_sequences] if and only if the positions
    follow one another along one of the eight directions and [get_cell]
    reads ['S'], ['O'], ['S'] on them; and no list is recorded twice. *)
Theorem sos_sequences_are_the_lines (self : Enhanced.SOSBoard) :
  reachable self →
  NoDup (Enhanced.sos_sequences self) ∧
  ∀ sq, sq ∈ Enhanced.sos_sequences self ↔
    ∃ r c dr dc,
      (dr, dc) ∈ Enhanced.directions ∧
      sq = [(r, c); (r + dr, c + dc); (r + 2 * dr, c + 2 * dc)] ∧
      Enhanced.get_cell self r c = Ok (Some "S") ∧
      Enhanced.get_cell self (r + dr) (c + dc) = Ok (Some "O") ∧
      Enhanced.get_cell self (r + 2 * dr) (c + 2 * dc) = Ok (Some "S").
Proof.
  intros Hinv%reachable_inv. pose proof (inv_wf _ Hinv) as Hwf.
  split; [apply (inv_nodup _ Hinv)|].
  intros sq. rewrite (inv_sos _ Hinv). unfold is_sos, first_seq, readsb.
  setoid_rewrite get_cell_holdsb; [|done..]. split.
  - intros (r & c & [dr dc] & Hd & -> & Hr). exists r, c, dr, dc. simpl in *.
    apply andb_true_iff in Hr as [[? ?]%andb_true_iff ?]. done.
  - intros (r & c & dr & dc & Hd & -> & H0 & H1 & H2).
    exists r, c, (dr, dc). simpl. by rewrite H0 H1 H2.
Qed.

Lemma sos_sequences_are_the_lines_witness :
  NoDup (Enhanced.sos_sequences enhanced_two_s) ∧
  ∀ sq, sq ∈ Enhanced.sos_sequences enhanced_two_s ↔
    ∃ r c dr dc,
      (dr, dc) ∈ Enhanced.directions ∧
      sq = [(r, c); (r + dr, c + dc); (r + 2 * dr, c + 2 * dc)] ∧
      Enhanced.get_cell enhanced_two_s r c = Ok (Some "S") ∧
      Enhanced.get_cell enhanced_two_s (r + dr) (c + dc) = Ok (Some "O") ∧
      Enhanced.get_cell enhanced_two_s (r + 2 * dr) (c + 2 * dc) = Ok (Some "S").
Proof.
  apply (sos_sequences_are_the_lines enhanced_two_s), enhanced_two_s_reachable.
Defined.

(** On a board reached by [make_move] and [undo_last_move] calls, the grid
    holds exactly the moves of the history: a cell reads a letter if and
    only if a recorded move placed that letter there, and no two recorded
    moves share a cell. *)
Theorem board_holds_its_history (self : Enhanced.SOSBoard) :
  reachable self →
  NoDup ((λ m, (Enhanced.Move.row m, Enhanced.Move.col m))
           <$> Enhanced.move_history self) ∧
  ∀ row col x,
    Enhanced.get_cell self row col = Ok (Some x) ↔
    ∃ m, m ∈ Enhanced.move_history self ∧
         Enhanced.Move.row m = row ∧ Enhanced.Move.col m = col ∧
         Enhanced.Move.letter m = x.
Proof.
  intros Hinv%reachable_inv. pose proof (inv_wf _ Hinv) as Hwf.
  split; [apply (inv_hist_nodup _ Hinv)|].
  intros row col x. rewrite get_cell_holdsb //. split.
  - intros Hx. destruct (inv_cover _ Hinv _ _ Hx) as (m & Hm & Hpos).
    exists m. injection Hpos as Hr Hc. split_and!; [done..|].
    pose proof (inv_hist _ Hinv m Hm) as Hl.
    unfold move_pos in Hl. rewrite Hr Hc in Hl.
    apply holdsb_spec in Hx as [_ Hx], Hl as [_ Hl]. simpl in *. congruence.
  - intros (m & Hm & <- & <- & <-). apply (inv_hist _ Hinv m Hm).
Qed.

Lemma board_holds_its_history_witness :
  NoDup ((λ m, (Enhanced.Move.row m, Enhanced.Move.col m))
           <$> Enhanced.move_history enhanced_two_s) ∧
  ∀ row col x,
    Enhanced.get_cell enhanced_two_s row col = Ok (Some x) ↔
    ∃ m, m ∈ Enhanced.move_history enhanced_two_s ∧
         Enhanced.Move.row m = row ∧ Enhanced.Move.col m = col ∧
         Enhanced.Move.letter m = x.
Proof.
  apply (board_holds_its_history enhanced_two_s), enhanced_two_s_reachable.
Defined.

End board_coverage.

Section scores.
Import Enhanced.
Implicit Types (self : SOSBoard) (sq : sequence).

(** The points the moves of a history scored when they were made. *)
Definition points_of (h : list Move.t) : Z :=
  foldr Z.add 0 (Move.sos_formed <$> h).

Lemma points_of_app h1 h2 : points_of (h1 ++ h2) = points_of h1 + points_of h2.
Proof.
  unfold points_of. induction h1 as [|m h1 IH]; [done|].
  rewrite -app_comm_cons !fmap_cons. cbn [foldr]. rewrite IH. lia.
Qed.

(** Two boards with the same history hold the same letters. *)
Lemma same_history_same_cells self1 self2 p x :
  inv self1 → inv self2 → size self1 = size self2 →
  move_history self1 = move_history self2 →
  holdsb self1 p x = true → holdsb self2 p x = true.
Proof.
  intros H1 H2 Hs Hh Hx.
  destruct (inv_cover _ H1 _ _ Hx) as (m & Hm & <-).
  pose proof (inv_hist _ H1 m Hm) as Hl.
  assert (x = Move.letter m) as ->.
  { apply holdsb_spec in Hx as [_ Hx], Hl as [_ Hl]. congruence. }
  apply (inv_hist _ H2). by rewrite -Hh.
Qed.

Lemma same_history_same_length self1 self2 :
  inv self1 → inv self2 → size self1 = size self2 →
  move_history self1 = move_history self2 →
  length (sos_sequences self1) = length (sos_sequences self2).
Proof.
  intros H1 H2 Hs Hh. apply Permutation_length, NoDup_Permutation;
    [apply (inv_nodup _ H1)|apply (inv_nodup _ H2)|].
  intros sq. rewrite (inv_sos _ H1) (inv_sos _ H2).
  apply is_sos_agree. intros p x _.
  destruct (holdsb self1 p x) eqn:E1.
  - symmetry. by apply (same_history_same_cells self1 self2).
  - destruct (holdsb self2 p x) eqn:E2; [|done].
    rewrite (same_history_same_cells self2 self1 p x) // in E1.
Qed.

(** Every prefix of the history is the history of a board on which the
    points of the prefix are the number of recorded sequences. *)
Definition accounted self : Prop :=
  ∀ k : nat, ∃ self0,
    inv self0 ∧ size self0 = size self ∧
    move_history self0 = take k (move_history self) ∧
    points_of (take k (move_history self))
      = Z.of_nat (length (sos_sequences self0)).

Lemma accounted_shorter self self' h m :
  size self' = size self → move_history self = h ++ [m] →
  move_history self' = h → accounted self → accounted self'.
Proof.
  intros Hs Hh Hh' Ha k.
  destruct (Ha (k `min` length h)%nat) as (self0 & Hi & Hs0 & Hh0 & Hp).
  assert (take (k `min` length h) (move_history self) = take k h) as E.
  { rewrite Hh take_app_le; [|lia]. by rewrite -take_take firstn_all. }
  rewrite E in Hh0, Hp. exists self0. rewrite Hh'. split_and!; congruence.
Qed.

Lemma accounted_make_move self row col letter player_name k self' :
  inv self → accounted self →
  make_move self row col letter player_name = Ok (k, self') →
  accounted self'.
Proof.
  intros Hinv Ha Hm. pose proof (inv_wf _ Hinv) as Hwf.
  destruct (make_move_cases self row col Hwf) as [Hv|Hv].
  - pose proof (inv_make_move _ _ _ _ _ _ _ Hinv Hm) as Hinv'.
    destruct (make_move_valid self row col letter player_name Hwf Hv)
      as (news & E & _). simpl in E. rewrite E in Hm.
    injection Hm as <- <-. intros n.
    set (mv := Move.mk _ _ _ _ _). set (self' := mkBoard _ _ _ _) in *.
    destruct (decide (n ≤ length (move_history self))%nat) as [Hn|Hn].
    + destruct (Ha n) as (self0 & Hi & Hs0 & Hh0 & Hp).
      exists self0. unfold self'. simpl. rewrite take_app_le //.
    + exists self'. unfold self' at 3 4 5. simpl.
      rewrite take_ge; [|rewrite length_app /=; lia].
      split_and!; [done..|].
      destruct (Ha (length (move_history self))) as (self0 & Hi & Hs0 & Hh0 & Hp).
      rewrite firstn_all in Hh0, Hp.
      rewrite points_of_app Hp (same_history_same_length self0 self) //.
      unfold self', points_of. simpl. rewrite length_app. lia.
  - rewrite make_move_invalid // in Hm. by injection Hm as <- <-.
Qed.

Lemma accounted_undo_last_move self r self' :
  inv self → accounted self →
  undo_last_move self = Ok (r, self') → accounted self'.
Proof.
  intros Hinv Ha Hu.
  destruct (move_history self) as [|m0 h] eqn:Hh using rev_ind.
  - rewrite undo_last_move_empty // in Hu. by injection Hu as <- <-.
  - clear IHh.
    destruct (undo_last_move_spec self h m0 Hinv Hh) as (sqs & E & _).
    simpl in E. rewrite E in Hu. injection Hu as <- <-.
    by eapply (accounted_shorter self _ h m0).
Qed.

Lemma reachable_accounted self : reachable self → accounted self.
Proof.
  induction 1 as [n|self row col letter player_name k self' Hr IH Hm
                 |self r self' Hr IH Hu].
  - intros k. exists (new n). rewrite take_nil. split_and!; [|done..].
    apply inv_new.
  - eapply accounted_make_move; [by apply reachable_inv|done..].
  - eapply accounted_undo_last_move; [by apply reachable_inv|done..].
Qed.

(** On a board reached by [make_move] and [undo_last_move] calls, the sum
    of [sos_formed] over the moves of the history is the number of
    recorded sequences: an undo takes back exactly the points its move
    scored. *)
Theorem history_points_match_sequences self :
  reachable self →
  foldr Z.add 0 (Move.sos_formed <$> move_history self)
    = Z.of_nat (length (sos_sequences self)).
Proof.
  intros Hr. pose proof (reachable_inv _ Hr) as Hinv.
  destruct (reachable_accounted _ Hr (length (move_history self)))
    as (self0 & Hi & Hs0 & Hh0 & Hp).
  rewrite firstn_all in Hh0, Hp. unfold points_of in Hp.
  by rewrite Hp (same_history_same_length self0 self).
Qed.

Lemma history_points_match_sequences_witness :
  foldr Z.add 0
    (Move.sos_formed <$>
       move_history (board_after (play (new 5) (two_s ++ [(2, 2, "O")]))))
  = Z.of_nat
      (length (sos_sequences
                 (board_after (play (new 5) (two_s ++ [(2, 2, "O")]))))).
Proof.
  apply (history_points_match_sequences
           (board_after (play (new 5) (two_s ++ [(2, 2, "O")])))).
  apply board_after_play_reachable.
Defined.

(** ** Sequences come in pairs *)

(** A list without repetition that a map without fixed point pairs up
    has an even number of items. *)
Lemma paired_length_even {A} (f : A → A) (n : nat) (l : list A) :
  length l = n → NoDup l →
  (∀ x, x ∈ l → f x ∈ l ∧ f x ≠ x ∧ f (f x) = x) →
  Nat.Even n.
Proof.
  revert l. induction n as [n IH] using lt_wf_ind. intros l Hlen Hnd Hf.
  destruct l as [|x l]; [exists 0%nat; simpl in Hlen; lia|].
  destruct (Hf x) as (Hin & Hne & Hff); [by left|].
  apply elem_of_cons in Hin as [Hin|Hin]; [done|].
  apply elem_of_Permutation in Hin as [k Hk].
  assert (NoDup (x :: f x :: k)) as Hnd' by by rewrite -Hk.
  apply NoDup_cons in Hnd' as [Hx [Hfx Hndk]%NoDup_cons].
  simpl in Hlen. rewrite Hk /= in Hlen.
  destruct (IH (length k)) with (l := k) as [j Hj]; [lia|done|done| |].
  - intros y Hy. destruct (Hf y) as (Hin' & Hne' & Hff').
    { right. rewrite Hk. by right. }
    split_and!; [|done..].
    apply elem_of_cons in Hin' as [Hin'|Hin'].
    { exfalso. apply Hfx. by rewrite -Hin' Hff'. }
    rewrite Hk in Hin'. apply elem_of_cons in Hin' as [Hin'|Hin']; [|done].
    exfalso. apply Hx. right. rewrite -Hff -Hin' Hff'. done.
  - exists (S j). lia.
Qed.

Lemma reverse_line row col d :
  d ∈ directions →
  (- d.1, - d.2) ∈ directions ∧
  reverse (first_seq row col d)
    = first_seq (row + 2 * d.1) (col + 2 * d.2) (- d.1, - d.2) ∧
  reverse (first_seq row col d) ≠ first_seq row col d.
Proof.
  intros Hd. unfold directions in *. rewrite !elem_of_cons in Hd |- *.
  unfold first_seq. cbn [reverse rev_append fst snd].
  destruct Hd as [->|[->|[->|[->|[->|[->|[->|[->|Hd]]]]]]]];
    [..|by apply elem_of_nil in Hd];
    (split_and!; [simpl; auto 10|seq_eq|intros [= ? ?]; simpl in *; lia]).
Qed.

(** The S-O-S lines of a board, read from the other end, are S-O-S lines. *)
Lemma is_sos_reverse self sq :
  is_sos self sq → is_sos self (reverse sq) ∧ reverse sq ≠ sq.
Proof.
  intros (r & c & d & Hd & -> & Hr).
  destruct (reverse_line r c d Hd) as (Hd' & E & Hne). split; [|done].
  exists (r + 2 * d.1), (c + 2 * d.2), (- d.1, - d.2). split_and!; [done..|].
  unfold readsb, first_seq in *. cbn [reverse rev_append].
  destruct (holdsb self (r, c) "S"), (holdsb self (r + d.1, c + d.2) "O"),
    (holdsb self (r + 2 * d.1, c + 2 * d.2) "S"); done.
Qed.

Lemma inv_sequences_paired self sq :
  inv self → sq ∈ sos_sequences self →
  reverse sq ∈ sos_sequences self ∧ reverse sq ≠ sq ∧ reverse (reverse sq) = sq.
Proof.
  intros Hinv Hsq. apply (inv_sos _ Hinv) in Hsq.
  destruct (is_sos_reverse self sq Hsq) as [Hrev Hne].
  split_and!; [by apply (inv_sos _ Hinv)|done|apply reverse_involutive].
Qed.

Lemma inv_sequences_even self : inv self → Nat.Even (length (sos_sequences self)).
Proof.
  intros Hinv. eapply (paired_length_even reverse); [done| |].
  - apply (inv_nodup _ Hinv).
  - intros sq. by apply inv_sequences_paired.
Qed.

Lemma inv_make_move_pairs self row col letter player_name k self' :
  inv self →
  make_move self row col letter player_name = Ok (k, self') →
  ∃ n, 0 ≤ n ∧ k = 2 * n.
Proof.
  intros Hinv Hm.
  pose proof (inv_make_move _ _ _ _ _ _ _ Hinv Hm) as Hinv'.
  pose proof (inv_wf _ Hinv) as Hwf.
  destruct (make_move_cases self row col Hwf) as [Hv|Hv].
  - destruct (make_move_valid self row col letter player_name Hwf Hv)
      as (news & E & Hnd & _). simpl in E. rewrite E in Hm.
    injection Hm as <- <-.
    specialize (Hnd (inv_nodup _ Hinv)).
    apply NoDup_app in Hnd as (_ & Hdisj & Hndn).
    destruct (paired_length_even reverse (length news) news) as [j Hj];
      [done..| |].
    + intros sq Hsq.
      destruct (inv_sequences_paired _ sq Hinv') as (Hin & Hne & Hrr).
      { simpl. apply elem_of_app. by right. }
      split_and!; [|done..]. simpl in Hin.
      apply elem_of_app in Hin as [Hin|Hin]; [|done]. exfalso.
      destruct (inv_sequences_paired _ _ Hinv Hin) as (Hin' & _ & _).
      rewrite Hrr in Hin'. by eapply Hdisj.
    + exists (Z.of_nat j). lia.
  - rewrite make_move_invalid // in Hm. injection Hm as <- <-. by exists 0.
Qed.

(** On a board reached by [make_move] and [undo_last_move] calls, the
    number [make_move] returns is never negative and always even, and so
    is the number of recorded sequences: every line of three cells counts
    for two points, once from each end. *)
Theorem make_move_scores_in_pairs self row col letter player_name k self' :
  reachable self →
  make_move self row col letter player_name = Ok (k, self') →
  (∃ n, 0 ≤ n ∧ k = 2 * n) ∧
  Nat.Even (length (sos_sequences self)) ∧
  Nat.Even (length (sos_sequences self')).
Proof.
  intros Hinv%reachable_inv Hm.
  pose proof (inv_make_move _ _ _ _ _ _ _ Hinv Hm) as Hinv'.
  split_and!; [|by apply inv_sequences_even..].
  exact (inv_make_move_pairs _ _ _ _ _ _ _ Hinv Hm).
Qed.

Lemma make_move_scores_in_pairs_witness :
  (∃ n, 0 ≤ n ∧ 2 = 2 * n) ∧
  Nat.Even (length (sos_sequences enhanced_two_s)) ∧
  Nat.Even (length (sos_sequences
                      (board_after (play (new 5) (two_s ++ [(2, 2, "O")]))))).
Proof.
  apply (make_move_scores_in_pairs enhanced_two_s 2 2 "O" "" 2
           (board_after (play (new 5) (two_s ++ [(2, 2, "O")])))).
  - apply enhanced_two_s_reachable.
  - reflexivity.
Defined.

End scores.

Section hints.
Import Enhanced.
Implicit Types (self : SOSBoard) (p : pos).

(** What one empty cell adds to the list of [get_possible_sos_moves]. *)
Definition hit self p (letter : string) : list (Z * Z * string * Z) :=
  if 0 <? gain self p letter "" then [(p.1, p.2, letter, gain self p letter "")]
  else [].

Definition hits self p : list (Z * Z * string * Z) :=
  hit self p "S" ++ hit self p "O".

Lemma possible_moves_of_cell self p acc :
  wf self →
  for_each ["S"; "O"]
    (fun letter possible_moves =>
       let test_board := copy self in
       '(sos_count, _) ← make_move test_board p.1 p.2 letter "";
       Ok (if 0 <? sos_count
           then possible_moves ++ [(p.1, p.2, letter, sos_count)]
           else possible_moves))
    acc
  = Ok (acc ++ hits self p).
Proof.
  intros Hwf. cbn [for_each]. rewrite copy_eq.
  destruct (make_move_total self p.1 p.2 "S" "" Hwf) as [-> _].
  destruct (make_move_total self p.1 p.2 "O" "" Hwf) as [-> _].
  unfold hits, hit, gain.
  destruct (make_move_result self p.1 p.2 "S" "") as [k1 b1].
  destruct (make_move_result self p.1 p.2 "O" "") as [k2 b2].
  cbn [mbind res_bind fst]. f_equal.
  destruct (0 <? k1), (0 <? k2); by rewrite -?app_assoc ?app_nil_r.
Qed.

Lemma for_each_append {A B} (l : list A) (body : A → list B → res (list B))
    (f : A → list B) (acc : list B) :
  (∀ x acc, body x acc = Ok (acc ++ f x)) →
  for_each l body acc = Ok (acc ++ (l ≫= f)).
Proof.
  intros Hbody. revert acc. induction l as [|x l IH]; intros acc.
  - by rewrite /= app_nil_r.
  - cbn [for_each]. rewrite Hbody. cbn [mbind res_bind]. rewrite IH.
    f_equal. by rewrite -app_assoc.
Qed.

Lemma get_possible_sos_moves_eq self :
  wf self →
  get_possible_sos_moves self = Ok (empty_cells self ≫= hits self).
Proof.
  intros Hwf. unfold get_possible_sos_moves.
  rewrite get_empty_cells_spec //. cbn [mbind res_bind].
  apply (for_each_append _ _ (hits self) []).
  intros p acc. by apply possible_moves_of_cell.
Qed.

Lemma elem_of_hit self p letter v :
  v ∈ hit self p letter ↔
  0 < gain self p letter "" ∧ v = (p.1, p.2, letter, gain self p letter "").
Proof.
  unfold hit. destruct (0 <? gain self p letter "") eqn:E.
  - apply Z.ltb_lt in E. rewrite list_elem_of_singleton. tauto.
  - apply Z.ltb_ge in E. rewrite elem_of_nil. split; [done|lia].
Qed.

(** On a board reached by [make_move] and [undo_last_move] calls,
    [get_possible_sos_moves] returns and leaves the board alone; it lists
    [(row, col, letter, k)] exactly when [(row, col)] is a valid move,
    [letter] is ['S'] or ['O'] and [make_move] would return [k > 0] there;
    every [k] it lists is even, so at least 2. *)
Theorem get_possible_sos_moves_lists_scoring_moves self :
  reachable self →
  ∃ l, get_possible_sos_moves self = Ok l ∧
       (∀ row col letter k,
          (row, col, letter, k) ∈ l ↔
          is_valid_move self row col = Ok true ∧
          (letter = "S" ∨ letter = "O") ∧ 0 < k ∧
          ∃ self', make_move self row col letter "" = Ok (k, self')) ∧
       (∀ row col letter k,
          (row, col, letter, k) ∈ l → ∃ n, 0 < n ∧ k = 2 * n).
Proof.
  intros Hinv%reachable_inv. pose proof (inv_wf _ Hinv) as Hwf.
  exists (empty_cells self ≫= hits self).
  split; [by apply get_possible_sos_moves_eq|].
  assert (∀ row col letter k,
            (row, col, letter, k) ∈ empty_cells self ≫= hits self ↔
            is_valid_move self row col = Ok true ∧
            (letter = "S" ∨ letter = "O") ∧ 0 < k ∧
            ∃ self', make_move self row col letter "" = Ok (k, self')) as Hl.
  { intros row col letter k. rewrite list_elem_of_bind. split.
    - intros (p & Hv & Hp). apply elem_of_empty_cells in Hp; [|done].
      unfold hits in Hv. rewrite elem_of_app !elem_of_hit in Hv.
      assert (∀ l, ∃ self', make_move self p.1 p.2 l "" = Ok (gain self p l "", self'))
        as Hm.
      { intros l. destruct (make_move_total self p.1 p.2 l "" Hwf) as [-> _].
        unfold gain. destruct (make_move_result self p.1 p.2 l "") as [k' b'].
        by exists b'. }
      destruct Hv as [[Hk [= -> -> -> ->]]|[Hk [= -> -> -> ->]]];
        (split_and!; [done|auto|done|apply Hm]).
    - intros (Hv & Hletter & Hk & self' & Hm). exists (row, col). split.
      + unfold hits. rewrite elem_of_app !elem_of_hit. unfold gain.
        destruct (make_move_total self row col letter "" Hwf) as [Hm' _].
        rewrite Hm in Hm'. injection Hm' as Hm'. simpl.
        destruct Hletter as [-> | ->]; [left|right]; by rewrite -Hm'.
      + by apply (elem_of_empty_cells self (row, col)). }
  split; [done|]. intros row col letter k (_ & _ & Hk & self' & Hm)%Hl.
  destruct (inv_make_move_pairs _ _ _ _ _ _ _ Hinv Hm) as (n & Hn & ->).
  exists n. split; [lia|done].
Qed.

Lemma get_possible_sos_moves_lists_scoring_moves_witness :
  ∃ l, get_possible_sos_moves enhanced_two_s = Ok l ∧
       (∀ row col letter k,
          (row, col, letter, k) ∈ l ↔
          is_valid_move enhanced_two_s row col = Ok true ∧
          (letter = "S" ∨ letter = "O") ∧ 0 < k ∧
          ∃ self', make_move enhanced_two_s row col letter "" = Ok (k, self')) ∧
       (∀ row col letter k,
          (row, col, letter, k) ∈ l → ∃ n, 0 < n ∧ k = 2 * n).
Proof.
  apply (get_possible_sos_moves_lists_scoring_moves enhanced_two_s).
  apply enhanced_two_s_reachable.
Defined.

End hints.

Section session.
Import GameSession.

(** The sessions a caller can build: a new one, then [add_move] and
    [clear_history] calls. *)
Inductive session_reachable : t → Prop :=
| session_new : session_reachable new
| session_add_move self player_name row col letter points_scored :
    session_reachable self →
    session_reachable (add_move self player_name row col letter points_scored)
| session_clear_history self :
    session_reachable self → session_reachable (clear_history self).

Lemma py_getitem_last {A} (l : list A) (x : A) : py_getitem (l ++ [x]) (-1) = Ok x.
Proof.
  unfold py_getitem, py_index. rewrite length_app /=.
  replace (0 <=? -1) with false by done. cbn [andb].
  replace (- Z.of_nat (length l + 1) <=? -1) with true
    by (symmetry; apply Z.leb_le; lia).
  cbn [andb Z.ltb Z.compare].
  replace (Z.to_nat (Z.of_nat (length l + 1) + -1)) with (length l) by lia.
  by rewrite list_lookup_middle.
Qed.

(** In a session built by [add_move] and [clear_history] calls the moves
    of the history are numbered 1, 2, 3, ... in order; [get_last_move]
    returns [None] exactly when the history is empty, and otherwise the
    move added last, whose number is [get_total_moves]. *)
Theorem session_moves_are_numbered (self : t) :
  session_reachable self →
  (∀ i m, moves_history self !! i = Some m → move_number m = Z.of_nat i + 1) ∧
  ∃ r, get_last_move self = Ok r ∧
       r = last (moves_history self) ∧
       (r = None ↔ get_total_moves self = 0) ∧
       (∀ m, r = Some m → move_number m = get_total_moves self).
Proof.
  intros Hr.
  assert (∀ i m, moves_history self !! i = Some m →
                 move_number m = Z.of_nat i + 1) as Hnum.
  { induction Hr as [|self player_name row col letter points_scored _ IH
                     |self _ IH]; [done| |done].
    intros i m. unfold add_move. cbn [moves_history].
    intros [Hm|[Hi Hm]]%lookup_app_Some; [by apply IH|].
    apply list_lookup_singleton_Some in Hm as [Hz <-]. simpl. lia. }
  split; [done|]. unfold get_last_move, get_total_moves.
  destruct (moves_history self) as [|m0 h _] eqn:Hh using rev_ind.
  - exists None. by split_and!.
  - exists (Some m0). rewrite last_snoc. split_and!.
    + destruct (h ++ [m0]) eqn:E; [by destruct h|].
      rewrite -E py_getitem_last //.
    + done.
    + rewrite length_app /=. split; [done|lia].
    + intros m [= <-]. rewrite (Hnum (length h) m0).
      * rewrite length_app /=. lia.
      * by rewrite list_lookup_middle.
Qed.

Lemma session_moves_are_numbered_witness :
  let self := add_move (add_move new "Human" 2 1 "S" 0) "AI" 0 0 "O" 0 in
  (∀ i m, moves_history self !! i = Some m → move_number m = Z.of_nat i + 1) ∧
  ∃ r, get_last_move self = Ok r ∧
       r = last (moves_history self) ∧
       (r = None ↔ get_total_moves self = 0) ∧
       (∀ m, r = Some m → move_number m = get_total_moves self).
Proof.
  apply (session_moves_are_numbered
           (add_move (add_move new "Human" 2 1 "S" 0) "AI" 0 0 "O" 0)).
  apply session_add_move, session_add_move, session_new.
Defined.

End session.

Section window.
Import Game.

(** [get_cell_from_pos] maps a pixel to the cell whose square on the
    screen contains it, and to [None] when the pixel is outside the 5x5
    board: the result is [(row, col)] exactly when [(row, col)] is a cell
    of the board and the pixel lies in the square of side [CELL_SIZE]
    whose corner is [(BOARD_OFFSET_X + col * CELL_SIZE,
    BOARD_OFFSET_Y + row * CELL_SIZE)]. *)
Theorem get_cell_from_pos_cell_square (x y row col : Z) :
  get_cell_from_pos (x, y) = Some (row, col) ↔
  Enhanced._is_valid_pos (Enhanced.new BOARD_SIZE) row col = true ∧
  BOARD_OFFSET_X + col * CELL_SIZE ≤ x < BOARD_OFFSET_X + (col + 1) * CELL_SIZE ∧
  BOARD_OFFSET_Y + row * CELL_SIZE ≤ y < BOARD_OFFSET_Y + (row + 1) * CELL_SIZE.
Proof.
  rewrite _is_valid_pos_spec.
  unfold get_cell_from_pos, BOARD_OFFSET_X, BOARD_OFFSET_Y, CELL_SIZE,
    BOARD_SIZE. cbn [Enhanced.size Enhanced.new].
  pose proof (Z.div_mod (x - 150) 100 ltac:(done)) as Hx.
  pose proof (Z.mod_pos_bound (x - 150) 100 ltac:(done)) as Hxm.
  pose proof (Z.div_mod (y - 200) 100 ltac:(done)) as Hy.
  pose proof (Z.mod_pos_bound (y - 200) 100 ltac:(done)) as Hym.
  set (c := (x - 150) `div` 100) in *. set (r := (y - 200) `div` 100) in *.
  destruct (_ && _) eqn:Ein.
  - rewrite !andb_true_iff !Z.leb_le !Z.ltb_lt in Ein.
    destruct (_ && _) eqn:Ecell.
    + split.
      * intros [= <- <-]. lia.
      * intros (Hrc & Hcx & Hry). f_equal. f_equal; nia.
    + exfalso. rewrite !andb_false_iff !Z.leb_gt !Z.ltb_ge in Ecell. nia.
  - split; [done|]. intros (Hrc & Hcx & Hry). exfalso.
    rewrite !andb_false_iff !Z.leb_gt !Z.ltb_ge in Ein. nia.
Qed.

End window.

(** * The base board: the recorded sequences are the lines of the grid *)

Section base_lines.
Import Base.
Implicit Types (self : SOSBoard) (row col : Z) (sq : sequence) (d : Z * Z).
Implicit Types (p : pos) (st : Z * SOSBoard).

(** Position [p] is on the board and holds [x]. *)
Definition base_holdsb self p (x : string) : bool :=
  _is_valid_pos self p.1 p.2 &&
  bool_decide (lookup2 (board self) p.1 p.2 = Some x).

Lemma base_holdsb_ext self self' p x :
  board self' = board self → size self' = size self →
  base_holdsb self' p x = base_holdsb self p x.
Proof. intros Hb Hs. unfold base_holdsb, _is_valid_pos. by rewrite Hb Hs. Qed.

Lemma base_pattern_spec self r1 c1 r2 c2 x y :
  base_wf self →
  pattern self r1 c1 r2 c2 x y
  = Ok (base_holdsb self (r1, c1) x && base_holdsb self (r2, c2) y).
Proof.
  intros Hwf. unfold pattern, base_holdsb. simpl.
  destruct (_is_valid_pos self r1 c1) eqn:E1; [|done].
  destruct (_is_valid_pos self r2 c2) eqn:E2; cbn [andb];
    [|by rewrite andb_false_r].
  destruct (base_grid_get_valid self r1 c1 Hwf E1) as (a & La & ->).
  destruct (base_grid_get_valid self r2 c2 Hwf E2) as (b & Lb & ->).
  rewrite La Lb. simpl.
  assert (bool_decide (Some a = Some x) = bool_decide (a = x)) as ->.
  { apply bool_decide_ext. naive_solver. }
  assert (bool_decide (Some b = Some y) = bool_decide (b = y)) as ->.
  { apply bool_decide_ext. naive_solver. }
  by repeat case_bool_decide.
Qed.

(** One sequence offered to the list of a state [(points, board)]. *)
Definition base_record sq st : Z * SOSBoard :=
  (st.1 + (add_sequence st.2 sq).1, (add_sequence st.2 sq).2).

Definition base_record_all (sqs : list sequence) st : Z * SOSBoard :=
  foldl (λ st sq, base_record sq st) st sqs.

Lemma base_record_board sq st :
  board (base_record sq st).2 = board st.2 ∧
  size (base_record sq st).2 = size st.2.
Proof. unfold base_record, add_sequence. by case_bool_decide. Qed.

Lemma base_record_all_board sqs st :
  board (base_record_all sqs st).2 = board st.2 ∧
  size (base_record_all sqs st).2 = size st.2.
Proof.
  revert st. induction sqs as [|sq sqs IH]; intros st; [done|].
  simpl. destruct (IH (base_record sq st)) as [-> ->].
  apply base_record_board.
Qed.

Lemma base_record_all_app sqs1 sqs2 st :
  base_record_all (sqs1 ++ sqs2) st
  = base_record_all sqs2 (base_record_all sqs1 st).
Proof. apply foldl_app. Qed.

(** [if cond: points += check(...)] for a check that tests a pattern. *)
Lemma add_points_spec (cond : bool) (p1 p2 : pos) (x y : string) sq check st :
  base_wf st.2 →
  (∀ self, check self =
     (ok ← pattern self p1.1 p1.2 p2.1 p2.2 x y;
      Ok (if (ok : bool) then add_sequence self sq else (0, self)))) →
  add_points cond check st
  = Ok (if cond && base_holdsb st.2 p1 x && base_holdsb st.2 p2 y
        then base_record sq st else st).
Proof.
  intros Hwf Hcheck. unfold add_points. destruct cond; [|done].
  rewrite Hcheck base_pattern_spec //. cbn [mbind res_bind andb].
  destruct p1 as [r1 c1], p2 as [r2 c2]. simpl.
  destruct (base_holdsb st.2 (r1, c1) x && base_holdsb st.2 (r2, c2) y).
  - unfold base_record. by destruct (add_sequence st.2 sq).
  - destruct st as [k self]. simpl. f_equal. f_equal. lia.
Qed.

(** The sequences that the three checks of direction [d] offer at
    [(row, col)], the cell holding [letter]. *)
Definition base_candidates self (letter : string) row col d : list sequence :=
  (if bool_decide (letter = "O")
      && base_holdsb self (row - d.1, col - d.2) "S"
      && base_holdsb self (row + d.1, col + d.2) "S"
   then [middle_seq row col d] else []) ++
  (if bool_decide (letter = "S")
      && base_holdsb self (row + d.1, col + d.2) "O"
      && base_holdsb self (row + 2 * d.1, col + 2 * d.2) "S"
   then [first_seq row col d] else []) ++
  (if bool_decide (letter = "S")
      && base_holdsb self (row - d.1, col - d.2) "O"
      && base_holdsb self (row - 2 * d.1, col - 2 * d.2) "S"
   then [last_seq row col d] else []).

Lemma base_candidates_ext self self' letter row col d :
  board self' = board self → size self' = size self →
  base_candidates self' letter row col d = base_candidates self letter row col d.
Proof.
  intros Hb Hs. unfold base_candidates.
  by rewrite !(base_holdsb_ext self self').
Qed.

Lemma base_wf_ext self self' :
  board self' = board self → size self' = size self →
  base_wf self → base_wf self'.
Proof. unfold base_wf. by intros -> ->. Qed.

Lemma base_record_if (c : bool) sq st :
  (if c then base_record sq st else st)
  = base_record_all (if c then [sq] else []) st.
Proof. by destruct c. Qed.

Lemma base_wf_record_all sqs st : base_wf st.2 → base_wf (base_record_all sqs st).2.
Proof.
  intros Hwf. destruct (base_record_all_board sqs st) as [Hb Hs].
  by apply (base_wf_ext st.2).
Qed.

Lemma base_holdsb_record_all sqs st p x :
  base_holdsb (base_record_all sqs st).2 p x = base_holdsb st.2 p x.
Proof.
  destruct (base_record_all_board sqs st) as [Hb Hs]. by apply base_holdsb_ext.
Qed.

Lemma base_direction_spec (letter : string) row col d st :
  base_wf st.2 →
  (st ← add_points (bool_decide (letter = "O"))
         (fun self => _check_sos_middle self row col d.1 d.2) st;
   st ← add_points (bool_decide (letter = "S"))
         (fun self => _check_sos_start self row col d.1 d.2) st;
   add_points (bool_decide (letter = "S"))
         (fun self => _check_sos_end self row col d.1 d.2) st)
  = Ok (base_record_all (base_candidates st.2 letter row col d) st).
Proof.
  intros Hwf.
  rewrite (add_points_spec _ (row - d.1, col - d.2) (row + d.1, col + d.2)
             "S" "S" (middle_seq row col d) _ st Hwf (λ _, eq_refl)).
  rewrite base_record_if. cbn [mbind res_bind].
  rewrite (add_points_spec _ (row + d.1, col + d.2)
             (row + 2 * d.1, col + 2 * d.2)
             "O" "S" (first_seq row col d) _ _
             (base_wf_record_all _ st Hwf) (λ _, eq_refl)).
  rewrite base_record_if. cbn [mbind res_bind].
  rewrite (add_points_spec _ (row - d.1, col - d.2)
             (row - 2 * d.1, col - 2 * d.2)
             "O" "S" (last_seq row col d) _ _
             (base_wf_record_all _ _ (base_wf_record_all _ st Hwf))
             (λ _, eq_refl)).
  rewrite base_record_if. rewrite !base_holdsb_record_all.
  unfold base_candidates. by rewrite !base_record_all_app.
Qed.

Lemma base_formations_loop (letter : string) row col ds st :
  base_wf st.2 →
  for_each ds
    (fun d st =>
       st ← add_points (bool_decide (letter = "O"))
              (fun self => _check_sos_middle self row col d.1 d.2) st;
       st ← add_points (bool_decide (letter = "S"))
              (fun self => _check_sos_start self row col d.1 d.2) st;
       add_points (bool_decide (letter = "S"))
              (fun self => _check_sos_end self row col d.1 d.2) st)
    st
  = Ok (base_record_all (ds ≫= base_candidates st.2 letter row col) st).
Proof.
  revert st. induction ds as [|d ds IH]; intros st Hwf; [done|].
  cbn [for_each]. rewrite base_direction_spec //. cbn [mbind res_bind].
  set (st1 := base_record_all _ st).
  destruct (base_record_all_board (base_candidates st.2 letter row col d) st)
    as [Hb Hs]. fold st1 in Hb, Hs.
  rewrite IH; [|by apply (base_wf_ext st.2)].
  f_equal.
  change ((d :: ds) ≫= base_candidates st.2 letter row col)
    with (base_candidates st.2 letter row col d
          ++ (ds ≫= base_candidates st.2 letter row col)).
  rewrite base_record_all_app. fold st1. f_equal.
  apply list_bind_ext; [|done]. intros d'. by apply base_candidates_ext.
Qed.

Lemma base_record_all_spec sqs st :
  ∃ news,
    base_record_all sqs st =
      (st.1 + Z.of_nat (length news),
       mkBoard (size st.2) (board st.2) (sos_sequences st.2 ++ news)) ∧
    (NoDup (sos_sequences st.2) → NoDup (sos_sequences st.2 ++ news)) ∧
    (∀ sq, sq ∈ sos_sequences st.2 ++ news ↔
           sq ∈ sos_sequences st.2 ∨ sq ∈ sqs).
Proof.
  revert st. induction sqs as [|sq sqs IH]; intros [k self].
  - exists []. simpl. rewrite app_nil_r Z.add_0_r. destruct self.
    split_and!; [done..|]. intros sq. rewrite elem_of_nil. tauto.
  - simpl. unfold base_record at 1, add_sequence. simpl. case_bool_decide as Hin.
    + destruct (IH (k + 0, self)) as (news & E & Hnd & Hmem). simpl in *.
      exists news. rewrite E. split_and!; [f_equal; lia|done|].
      intros sq'. rewrite Hmem elem_of_cons. split; [tauto|].
      intros [?|[->|?]]; auto.
    + destruct (IH (k + (0 + 1), set_sos_sequences self (sos_sequences self ++ [sq])))
        as (news & E & Hnd & Hmem). simpl in *.
      exists (sq :: news). rewrite E. rewrite -!app_assoc /= in Hnd, Hmem |- *.
      split_and!.
      * f_equal. lia.
      * intros H. apply Hnd. apply NoDup_app. split_and!; [done| |].
        -- intros x Hx ->%list_elem_of_singleton. done.
        -- apply NoDup_singleton.
      * intros sq'. rewrite Hmem elem_of_app list_elem_of_singleton elem_of_cons.
        tauto.
Qed.

Lemma check_sos_formations_spec self row col (letter : string) :
  base_wf self → _is_valid_pos self row col = true →
  lookup2 (board self) row col = Some letter →
  check_sos_formations self row col
  = Ok (base_record_all (directions ≫= base_candidates self letter row col)
                        (0, self)).
Proof.
  intros Hwf Hv Hl. unfold check_sos_formations.
  destruct (base_grid_get_valid self row col Hwf Hv) as (c & Hc & ->).
  assert (c = letter) as -> by congruence. cbn [mbind res_bind].
  by apply (base_formations_loop letter row col directions (0, self)).
Qed.

(** [sq] reads S-O-S on the board. *)
Definition base_readsb self sq : bool :=
  match sq with
  | [p0; p1; p2] =>
      base_holdsb self p0 "S" && base_holdsb self p1 "O" && base_holdsb self p2 "S"
  | _ => false
  end.

(** [sq] is an S-O-S line of the board: three cells in a row along one of
    the four directions of the base board. *)
Definition base_is_sos self sq : Prop :=
  ∃ r c d, d ∈ directions ∧ sq = first_seq r c d ∧ base_readsb self sq = true.

Lemma elem_of_base_candidates self (letter : string) row col d sq :
  (∀ x, base_holdsb self (row, col) x = bool_decide (letter = x)) →
  sq ∈ base_candidates self letter row col d ↔
  base_readsb self sq = true ∧
  (sq = first_seq row col d ∨ sq = middle_seq row col d ∨ sq = last_seq row col d).
Proof.
  intros Hcell. unfold base_candidates.
  rewrite !elem_of_app !elem_of_if_singleton.
  assert (base_readsb self (middle_seq row col d) =
          bool_decide (letter = "O")
          && base_holdsb self (row - d.1, col - d.2) "S"
          && base_holdsb self (row + d.1, col + d.2) "S") as <-.
  { unfold base_readsb, middle_seq. rewrite Hcell.
    by destruct (bool_decide _), (base_holdsb _ _ _), (base_holdsb _ _ _). }
  assert (base_readsb self (first_seq row col d) =
          bool_decide (letter = "S")
          && base_holdsb self (row + d.1, col + d.2) "O"
          && base_holdsb self (row + 2 * d.1, col + 2 * d.2) "S") as <-.
  { unfold base_readsb, first_seq. by rewrite Hcell. }
  assert (base_readsb self (last_seq row col d) =
          bool_decide (letter = "S")
          && base_holdsb self (row - d.1, col - d.2) "O"
          && base_holdsb self (row - 2 * d.1, col - 2 * d.2) "S") as <-.
  { unfold base_readsb, last_seq. rewrite Hcell.
    by destruct (bool_decide _), (base_holdsb _ _ _), (base_holdsb _ _ _). }
  split.
  - intros [[H ->]|[[H ->]|[H ->]]]; auto.
  - intros [H [->|[->| ->]]]; auto.
Qed.

Lemma elem_of_base_proposals self (letter : string) row col sq :
  (∀ x, base_holdsb self (row, col) x = bool_decide (letter = x)) →
  sq ∈ directions ≫= base_candidates self letter row col ↔
  base_is_sos self sq ∧ (row, col) ∈ sq.
Proof.
  intros Hcell. rewrite list_elem_of_bind. split.
  - intros (d & Hc & Hd). apply elem_of_base_candidates in Hc as [Hr Hsq]; [|done].
    split.
    + destruct Hsq as [->| [->| ->]].
      * by exists row, col, d.
      * exists (row - d.1), (col - d.2), d. by rewrite -middle_seq_first.
      * exists (row - 2 * d.1), (col - 2 * d.2), d. by rewrite -last_seq_first.
    + destruct Hsq as [->| [->| ->]];
        unfold first_seq, middle_seq, last_seq; set_solver.
  - intros [(r & c & d & Hd & -> & Hr) Hin]. exists d. split; [|done].
    apply elem_of_base_candidates; [done|]. split; [done|].
    unfold first_seq in Hin.
    rewrite !elem_of_cons elem_of_nil in Hin.
    destruct Hin as [Hin|[Hin|[Hin|[]]]]; simplify_eq.
    + by left.
    + right; left. rewrite middle_seq_first. unfold first_seq. seq_eq.
    + right; right. rewrite last_seq_first. unfold first_seq. seq_eq.
Qed.

Lemma base_is_valid_move_cases self row col :
  base_wf self →
  is_valid_move self row col = Ok true ∨ is_valid_move self row col = Ok false.
Proof.
  intros Hwf. unfold is_valid_move.
  change ((0 <=? row) && (row <? size self) && (0 <=? col) && (col <? size self))
    with (_is_valid_pos self row col).
  destruct (_is_valid_pos self row col) eqn:Hp; [|by right].
  destruct (base_grid_get_valid self row col Hwf Hp) as (c & _ & ->). simpl.
  case_bool_decide; [by left|by right].
Qed.

(** [make_move] on a valid position, exactly. *)
Lemma base_make_move_exact self row col (letter : string) :
  base_wf self → is_valid_move self row col = Ok true →
  ∃ news,
    let g := upd2 (board self) row col letter in
    make_move self row col letter =
      Ok (Z.of_nat (length news),
          mkBoard (size self) g (sos_sequences self ++ news)) ∧
    (NoDup (sos_sequences self) → NoDup (sos_sequences self ++ news)) ∧
    (∀ sq, sq ∈ sos_sequences self ++ news ↔
           sq ∈ sos_sequences self ∨
           sq ∈ directions ≫= base_candidates (set_board self g) letter row col).
Proof.
  intros Hwf Hv. unfold make_move. rewrite Hv /=.
  apply base_is_valid_move_true in Hv as [Hv Hnone]; [|done].
  destruct (proj1 (base_is_valid_pos_spec _ _ _) Hv) as [Hr Hc].
  rewrite (grid_set_upd2 (size self)) //=.
  set (self1 := set_board self (upd2 (board self) row col letter)).
  rewrite (check_sos_formations_spec self1 row col letter);
    [|by apply wf_grid_upd2|done|by apply (lookup2_upd2_eq (size self))].
  destruct (base_record_all_spec
              (directions ≫= base_candidates self1 letter row col) (0, self1))
    as (news & E & Hnd & Hmem).
  exists news. rewrite E. simpl. done.
Qed.

(** ** The invariant of reachable base boards *)

Record base_inv self : Prop := mk_base_inv {
  base_inv_wf : base_wf self;
  base_inv_nodup : NoDup (sos_sequences self);
  base_inv_sos : ∀ sq, sq ∈ sos_sequences self ↔ base_is_sos self sq
}.

Lemma base_readsb_agree self self' sq :
  (∀ p x, p ∈ sq → base_holdsb self' p x = base_holdsb self p x) →
  base_readsb self' sq = base_readsb self sq.
Proof.
  intros H. unfold base_readsb. destruct sq as [|p0 [|p1 [|p2 [|]]]]; try done.
  rewrite !H //; set_solver.
Qed.

Lemma base_readsb_holds self sq p :
  base_readsb self sq = true → p ∈ sq →
  base_holdsb self p "S" = true ∨ base_holdsb self p "O" = true.
Proof.
  unfold base_readsb. destruct sq as [|p0 [|p1 [|p2 [|]]]]; try done.
  rewrite !elem_of_cons elem_of_nil.
  destruct (base_holdsb self p0 "S") eqn:E0; [|done].
  destruct (base_holdsb self p1 "O") eqn:E1; [|done].
  destruct (base_holdsb self p2 "S") eqn:E2; [|done].
  intros _ [->|[->|[->|[]]]]; auto.
Qed.

Lemma base_inv_new n : base_inv (new n).
Proof.
  split; [apply base_wf_new|constructor|].
  intros sq. split; [by intros ?%elem_of_nil|].
  intros (r & c & d & _ & -> & H). exfalso.
  assert (base_holdsb (new n) (r, c) "S" = false) as Hfree.
  { unfold base_holdsb. destruct (_is_valid_pos _ _ _); [|done]. simpl.
    apply bool_decide_eq_false_2. unfold lookup2, new. cbn [board].
    intros (line & Hl & Hc)%bind_Some.
    apply list_lookup_fmap_Some in Hl as (i & -> & _).
    by apply list_lookup_fmap_Some in Hc as (j & ? & _). }
  unfold base_readsb, first_seq in H. by rewrite Hfree in H.
Qed.

(** What a placement changes in the cells. *)
Lemma base_holdsb_placed self row col (letter : string) :
  base_wf self → _is_valid_pos self row col = true →
  let self1 := set_board self (upd2 (board self) row col letter) in
  (∀ x, base_holdsb self1 (row, col) x = bool_decide (letter = x)) ∧
  (∀ p x, p ≠ (row, col) → base_holdsb self1 p x = base_holdsb self p x).
Proof.
  intros Hwf Hv. simpl.
  destruct (proj1 (base_is_valid_pos_spec _ _ _) Hv) as [Hr Hc]. split.
  - intros x. unfold base_holdsb. simpl.
    change (_is_valid_pos (set_board self _) row col)
      with (_is_valid_pos self row col).
    rewrite Hv (lookup2_upd2_eq (size self)) //=.
    apply bool_decide_ext. split; [by intros [= ->]|by intros ->].
  - intros p x Hne. unfold base_holdsb. simpl.
    change (_is_valid_pos (set_board self _) p.1 p.2)
      with (_is_valid_pos self p.1 p.2).
    destruct (_is_valid_pos self p.1 p.2) eqn:Hp; [|done]. simpl.
    apply base_is_valid_pos_spec in Hp.
    rewrite lookup2_upd2_ne; [done|lia..|]. by destruct p.
Qed.

Lemma base_holdsb_empty self row col x :
  lookup2 (board self) row col = Some "" → x ≠ "" →
  base_holdsb self (row, col) x = false.
Proof.
  intros Hl Hx. unfold base_holdsb. simpl. rewrite Hl.
  rewrite bool_decide_eq_false_2; [|congruence]. apply andb_false_r.
Qed.

(** A line of the board does not pass through an empty cell. *)
Lemma base_is_sos_not_empty self sq row col :
  lookup2 (board self) row col = Some "" → base_is_sos self sq →
  (row, col) ∉ sq.
Proof.
  intros Hl (r & c & d & _ & -> & Hr) Hin.
  destruct (base_readsb_holds _ _ _ Hr Hin) as [H|H];
    rewrite base_holdsb_empty // in H.
Qed.

Lemma base_inv_make_move self row col letter k self' :
  base_inv self → make_move self row col letter = Ok (k, self') →
  base_inv self'.
Proof.
  intros [Hwf Hnd Hsos] Hm.
  destruct (base_is_valid_move_cases self row col Hwf) as [Hv|Hv];
    [|rewrite base_make_move_invalid // in Hm; by injection Hm as <- <-].
  destruct (base_make_move_exact self row col letter Hwf Hv)
    as (news & E & Hnd' & Hmem). simpl in E, Hmem.
  rewrite E in Hm. injection Hm as <- <-.
  apply base_is_valid_move_true in Hv as [Hv Hnone]; [|done].
  destruct (base_holdsb_placed self row col letter Hwf Hv) as [Heq Hne].
  simpl in Heq, Hne.
  set (self1 := set_board self (upd2 (board self) row col letter)) in *.
  set (self' := mkBoard _ _ _).
  assert (∀ sq, base_is_sos self' sq ↔ base_is_sos self1 sq) as Hsame.
  { intros sq. unfold base_is_sos.
    by setoid_rewrite (base_readsb_agree self1 self' sq
                         (λ p x _, base_holdsb_ext self1 self' p x eq_refl eq_refl)). }
  split.
  - by apply wf_grid_upd2.
  - by apply Hnd'.
  - intros sq. cbn [sos_sequences self'].
    rewrite Hmem Hsos Hsame elem_of_base_proposals //.
    assert ((row, col) ∉ sq → base_readsb self1 sq = base_readsb self sq) as Hagree.
    { intros Hnin. apply base_readsb_agree. intros p x Hp. apply Hne.
      by intros ->. }
    split.
    + intros [Hs|[Hs _]]; [|done].
      pose proof (base_is_sos_not_empty _ _ _ _ Hnone Hs) as Hnin.
      destruct Hs as (r & c & d & Hd & -> & Hr). exists r, c, d.
      split_and!; [done..|]. by rewrite Hagree.
    + intros Hs. destruct (decide ((row, col) ∈ sq)) as [Hin|Hnin]; [by right|].
      left. destruct Hs as (r & c & d & Hd & -> & Hr). exists r, c, d.
      split_and!; [done..|]. by rewrite -Hagree.
Qed.

Lemma base_reachable_inv self : base_reachable self → base_inv self.
Proof.
  induction 1 as [n|self row col letter k self' _ IH Hm].
  - apply base_inv_new.
  - by eapply base_inv_make_move.
Qed.

Lemma base_get_cell_holdsb self row col x :
  base_wf self →
  get_cell self row col = Ok (Some x) ↔ base_holdsb self (row, col) x = true.
Proof.
  intros Hwf. unfold get_cell, base_holdsb. simpl.
  destruct (_is_valid_pos self row col) eqn:Hv; [|by split].
  destruct (base_grid_get_valid self row col Hwf Hv) as (c & L & ->).
  rewrite L /= bool_decide_eq_true. split; by intros [= ->].
Qed.

End base_lines.

(** * The free-letter player's win check against the board's scoring *)

Section free_letter_wins.
Import Base AIPlayer.
Implicit Types (self : SOSBoard) (row col : Z) (sq : sequence) (d : Z * Z).
Implicit Types (p q : pos) (w : World SOSBoard).

(** On every base board reached from a new one by [make_move] calls, the
    recorded sequences are exactly the S-O-S lines of the grid: a list of
    three positions is in [sos_sequences] if and only if the positions
    follow one another along one of the four scan directions and
    [get_cell] reads ['S'], ['O'], ['S'] on them; no list is recorded
    twice. *)
Theorem base_sequences_are_the_lines self :
  base_reachable self →
  NoDup (sos_sequences self) ∧
  ∀ sq, sq ∈ sos_sequences self ↔
    ∃ r c dr dc,
      (dr, dc) ∈ Base.directions ∧
      sq = [(r, c); (r + dr, c + dc); (r + 2 * dr, c + 2 * dc)] ∧
      get_cell self r c = Ok (Some "S") ∧
      get_cell self (r + dr) (c + dc) = Ok (Some "O") ∧
      get_cell self (r + 2 * dr) (c + 2 * dc) = Ok (Some "S").
Proof.
  intros [Hwf Hnd Hsos]%base_reachable_inv. split; [done|].
  intros sq. rewrite Hsos. unfold base_is_sos, first_seq, base_readsb.
  setoid_rewrite base_get_cell_holdsb; [|done..]. split.
  - intros (r & c & [dr dc] & Hd & -> & Hr). exists r, c, dr, dc. simpl in *.
    apply andb_true_iff in Hr as [[? ?]%andb_true_iff ?]. done.
  - intros (r & c & dr & dc & Hd & -> & H0 & H1 & H2).
    exists r, c, (dr, dc). simpl. by rewrite H0 H1 H2.
Qed.

Lemma base_sequences_are_the_lines_witness :
  NoDup (sos_sequences base_two_s) ∧
  ∀ sq, sq ∈ sos_sequences base_two_s ↔
    ∃ r c dr dc,
      (dr, dc) ∈ Base.directions ∧
      sq = [(r, c); (r + dr, c + dc); (r + 2 * dr, c + 2 * dc)] ∧
      get_cell base_two_s r c = Ok (Some "S") ∧
      get_cell base_two_s (r + dr) (c + dc) = Ok (Some "O") ∧
      get_cell base_two_s (r + 2 * dr) (c + 2 * dc) = Ok (Some "S").
Proof.
  apply (base_sequences_are_the_lines base_two_s).
  eapply (base_reach_make_move _ 2 3 "S" 0).
  - eapply (base_reach_make_move _ 2 1 "S" 0); [apply (base_reach_new 5)|].
    reflexivity.
  - reflexivity.
Defined.

Lemma _valid_and_equals_spec self row col expected :
  base_wf self →
  _valid_and_equals self row col expected
  = Ok (base_holdsb self (row, col) expected).
Proof.
  intros Hwf. unfold _valid_and_equals, get_cell, base_holdsb. simpl.
  destruct (_is_valid_pos self row col) eqn:Hv; [|done].
  destruct (base_grid_get_valid self row col Hwf Hv) as (c & L & ->).
  simpl. by rewrite L.
Qed.

(** Placing [letter] at [(row, col)] completes a line along [d]. *)
Definition wins self (letter : string) row col d : bool :=
  bool_decide (letter = "O")
    && base_holdsb self (row - d.1, col - d.2) "S"
    && base_holdsb self (row + d.1, col + d.2) "S"
  || bool_decide (letter = "S")
    && base_holdsb self (row + d.1, col + d.2) "O"
    && base_holdsb self (row + 2 * d.1, col + 2 * d.2) "S"
  || bool_decide (letter = "S")
    && base_holdsb self (row - d.1, col - d.2) "O"
    && base_holdsb self (row - 2 * d.1, col - 2 * d.2) "S".

Lemma _check_sos_pattern_spec self row col letter dr dc :
  base_wf self →
  _check_sos_pattern self row col letter dr dc
  = Ok (wins self letter row col (dr, dc)).
Proof.
  intros Hwf. unfold _check_sos_pattern, wins, and_then.
  rewrite !_valid_and_equals_spec //. simpl.
  case_bool_decide as HS.
  - rewrite (bool_decide_eq_false_2 (letter = "O")); [|by subst]. simpl.
    destruct (base_holdsb self (row + dr, col + dc) "O"),
      (base_holdsb self (row + 2 * dr, col + 2 * dc) "S"),
      (base_holdsb self (row - dr, col - dc) "O"),
      (base_holdsb self (row - 2 * dr, col - 2 * dc) "S"); done.
  - case_bool_decide as HO; simpl.
    + destruct (base_holdsb self (row - dr, col - dc) "S"),
        (base_holdsb self (row + dr, col + dc) "S"); done.
    + done.
Qed.

Lemma any_direction_spec ds (check : Z → Z → res bool) (f : Z * Z → bool) :
  (∀ d, check d.1 d.2 = Ok (f d)) →
  any_direction ds check = Ok (existsb f ds).
Proof.
  intros Hc. induction ds as [|d ds IH]; [done|].
  simpl. rewrite Hc. simpl. by destruct (f d).
Qed.

Lemma _can_win_here_spec self row col letter :
  base_wf self →
  _can_win_here self row col letter
  = Ok (existsb (wins self letter row col) Base.directions).
Proof.
  intros Hwf. unfold _can_win_here.
  apply (any_direction_spec _ _ (wins self letter row col)).
  intros [dr dc]. by apply _check_sos_pattern_spec.
Qed.

(** The points of a placement: what [make_move] returns. *)
Definition score self p (letter : string) : Z :=
  match make_move self p.1 p.2 letter with
  | Ok (k, _) => k
  | Raise _ => 0
  end.

Lemma wins_iff_candidates self row col (letter : string) d :
  base_wf self → _is_valid_pos self row col = true → d ∈ Base.directions →
  wins self letter row col d = true ↔
  ∃ sq, sq ∈ base_candidates
               (set_board self (upd2 (board self) row col letter))
               letter row col d.
Proof.
  intros Hwf Hv Hd.
  destruct (base_holdsb_placed self row col letter Hwf Hv) as [_ Hne].
  simpl in Hne. unfold wins, base_candidates.
  assert (d.1 ≠ 0 ∨ d.2 ≠ 0) as Hd0.
  { unfold Base.directions in Hd. rewrite !elem_of_cons elem_of_nil in Hd.
    destruct Hd as [->|[->|[->|[->|[]]]]]; simpl; lia. }
  rewrite !Hne; try (intros [= ? ?]; lia).
  destruct (_ && _ && _); [split; [eexists; by left|done]|].
  destruct (_ && _ && _); [split; [eexists; by left|done]|].
  destruct (_ && _ && _); [split; [eexists; by left|done]|].
  simpl. split; [done|]. by intros [sq ?%elem_of_nil].
Qed.

Lemma score_spec self row col letter :
  base_inv self → is_valid_move self row col = Ok true →
  ∃ k self',
    make_move self row col letter = Ok (k, self') ∧
    score self (row, col) letter = k ∧ 0 ≤ k ∧
    (0 < k ↔ existsb (wins self letter row col) Base.directions = true).
Proof.
  intros [Hwf Hnd Hsos] Hv.
  destruct (base_make_move_exact self row col letter Hwf Hv)
    as (news & E & Hnd' & Hmem). simpl in E, Hmem.
  set (self1 := set_board self (upd2 (board self) row col letter)) in *.
  eexists _, _. split; [exact E|]. unfold score. cbn [fst snd]. rewrite E.
  split; [done|]. split; [lia|].
  apply base_is_valid_move_true in Hv as [Hv Hnone]; [|done].
  destruct (base_holdsb_placed self row col letter Hwf Hv) as [Heq _].
  simpl in Heq. fold self1 in Heq.
  specialize (Hnd' Hnd). apply NoDup_app in Hnd' as (_ & Hdisj & _).
  assert (∀ sq, sq ∈ news ↔
                sq ∈ Base.directions ≫= base_candidates self1 letter row col)
    as Hnews.
  { intros sq. split.
    - intros Hin.
      destruct (proj1 (Hmem sq)) as [Hold|Hc]; [apply elem_of_app; by right| |done].
      by destruct (Hdisj sq).
    - intros Hc.
      destruct (proj1 (elem_of_app _ _ _) (proj2 (Hmem sq) (or_intror Hc)))
        as [Hold|Hin]; [|done].
      apply elem_of_base_proposals in Hc as [_ Hrc]; [|done].
      apply Hsos in Hold. by destruct (base_is_sos_not_empty _ _ _ _ Hnone Hold). }
  rewrite existsb_exists. split.
  - intros Hk. destruct news as [|sq news']; [simpl in Hk; lia|].
    assert (sq ∈ sq :: news') as Hsq by by left.
    apply Hnews, list_elem_of_bind in Hsq as (d & Hc & Hd).
    exists d. split; [by apply list_elem_of_In|].
    apply wins_iff_candidates; [done..|]. by exists sq.
  - intros (d & Hd%list_elem_of_In & Hw).
    apply wins_iff_candidates in Hw as [sq Hc]; [|done..].
    assert (sq ∈ news) as Hin.
    { apply Hnews, list_elem_of_bind. by exists d. }
    destruct news; [by apply elem_of_nil in Hin|]. simpl. lia.
Qed.

(** On every base board reached from a new one by [make_move] calls and
    every valid position, the win check of the free-letter player agrees
    with the scoring of the board: [_can_win_here] answers [True] exactly
    when [make_move] with that letter on that position would return a
    positive number, and [_should_block_here] answers [True] exactly when
    ['S'] or ['O'] would. *)
Theorem can_win_here_iff_move_scores self row col :
  base_reachable self → is_valid_move self row col = Ok true →
  (∀ letter, ∃ k self',
     make_move self row col letter = Ok (k, self') ∧ 0 ≤ k ∧
     _can_win_here self row col letter = Ok (bool_decide (0 < k))) ∧
  (∃ kS bS kO bO,
     make_move self row col "S" = Ok (kS, bS) ∧
     make_move self row col "O" = Ok (kO, bO) ∧
     _should_block_here self row col = Ok (bool_decide (0 < kS ∨ 0 < kO))).
Proof.
  intros Hinv%base_reachable_inv Hv. pose proof (base_inv_wf _ Hinv) as Hwf.
  assert (∀ letter, ∃ k self',
            make_move self row col letter = Ok (k, self') ∧ 0 ≤ k ∧
            _can_win_here self row col letter = Ok (bool_decide (0 < k)))
    as Hcan.
  { intros letter.
    destruct (score_spec self row col letter Hinv Hv)
      as (k & self' & E & _ & Hk & Hiff).
    exists k, self'. split_and!; [done..|].
    rewrite _can_win_here_spec //. f_equal.
    destruct (existsb _ _); case_bool_decide; naive_solver. }
  split; [done|].
  destruct (Hcan "S") as (kS & bS & ES & _ & HS).
  destruct (Hcan "O") as (kO & bO & EO & _ & HO).
  exists kS, bS, kO, bO. split_and!; [done..|].
  unfold _should_block_here. rewrite HS /=.
  destruct (decide (0 < kS)) as [H1|H1].
  - rewrite !bool_decide_eq_true_2; [done|by left|done].
  - rewrite (bool_decide_eq_false_2 (0 < kS)) // HO. f_equal.
    apply bool_decide_ext. naive_solver.
Qed.

Lemma can_win_here_iff_move_scores_witness :
  (∀ letter, ∃ k self',
     make_move base_two_s 2 2 letter = Ok (k, self') ∧ 0 ≤ k ∧
     _can_win_here base_two_s 2 2 letter = Ok (bool_decide (0 < k))) ∧
  (∃ kS bS kO bO,
     make_move base_two_s 2 2 "S" = Ok (kS, bS) ∧
     make_move base_two_s 2 2 "O" = Ok (kO, bO) ∧
     _should_block_here base_two_s 2 2 = Ok (bool_decide (0 < kS ∨ 0 < kO))).
Proof.
  apply (can_win_here_iff_move_scores base_two_s 2 2).
  - eapply (base_reach_make_move _ 2 3 "S" 0).
    + eapply (base_reach_make_move _ 2 1 "S" 0); [apply (base_reach_new 5)|].
      reflexivity.
    + reflexivity.
  - reflexivity.
Defined.

Lemma _can_win_here_score self p letter :
  base_inv self → is_valid_move self p.1 p.2 = Ok true →
  _can_win_here self p.1 p.2 letter = Ok (bool_decide (0 < score self p letter)).
Proof.
  intros Hinv Hv. pose proof (base_inv_wf _ Hinv) as Hwf.
  destruct (score_spec self p.1 p.2 letter Hinv Hv)
    as (k & self' & _ & Hs & _ & Hiff).
  destruct p as [row col]. cbn [fst snd] in *.
  rewrite Hs _can_win_here_spec //. f_equal.
  destruct (existsb (wins self letter row col) Base.directions); symmetry.
  - apply bool_decide_eq_true_2. by apply Hiff.
  - apply bool_decide_eq_false_2. by intros Hk%Hiff.
Qed.

Lemma returns_ext {B A} (m m' : M B A) (w : World B) Q :
  m w = m' w → returns m' w Q → returns m w Q.
Proof. unfold returns. by intros ->. Qed.

(** The win check finds the first cell of its list that scores, with
    ['S'] tried before ['O'], and only reads the board. *)
Lemma scan_win_first b bd w l1 p l2 (letter : string) :
  base_inv bd → objs w !! b = Some bd →
  (∀ q, q ∈ l1 ++ [p] → is_valid_move bd q.1 q.2 = Ok true) →
  (∀ q, q ∈ l1 → score bd q "S" ≤ 0 ∧ score bd q "O" ≤ 0) →
  (0 < score bd p "S" ∧ letter = "S" ∨
   score bd p "S" ≤ 0 ∧ 0 < score bd p "O" ∧ letter = "O") →
  returns (scan_win b (l1 ++ p :: l2)) w
    (λ r w', objs w' = objs w ∧ rng w' = rng w ∧ r = Some (p.1, p.2, letter)).
Proof.
  intros Hinv. revert w.
  induction l1 as [|q l1 IH]; intros w Hb Hvalid Hnone Hp.
  - cbn [app scan_win first_return]. apply returns_bind, returns_bind.
    apply (returns_read b _ bd (bool_decide (0 < score bd p "S"))); [done| |].
    { apply _can_win_here_score; [done|]. apply Hvalid. by left. }
    destruct Hp as [[HS ->]|(HS & HO & ->)].
    + rewrite bool_decide_eq_true_2 //. by apply returns_ret, returns_ret.
    + rewrite bool_decide_eq_false_2; [|lia]. apply returns_bind.
      apply (returns_read b _ bd (bool_decide (0 < score bd p "O"))); [done| |].
      { apply _can_win_here_score; [done|]. apply Hvalid. by left. }
      rewrite bool_decide_eq_true_2 //. by apply returns_ret, returns_ret.
  - cbn [app scan_win first_return]. apply returns_bind, returns_bind.
    destruct (Hnone q) as [HS HO]; [by left|].
    apply (returns_read b _ bd (bool_decide (0 < score bd q "S"))); [done| |].
    { apply _can_win_here_score; [done|]. apply Hvalid. by left. }
    rewrite bool_decide_eq_false_2; [|lia]. apply returns_bind.
    apply (returns_read b _ bd (bool_decide (0 < score bd q "O"))); [done| |].
    { apply _can_win_here_score; [done|]. apply Hvalid. by left. }
    rewrite bool_decide_eq_false_2; [|lia]. apply returns_ret.
    eapply returns_mono.
    + apply IH; [done| | |done].
      * intros q' Hq'. apply Hvalid. by right.
      * intros q' Hq'. apply Hnone. by right.
    + intros r w' (Ho & Hr & ->). done.
Qed.

(** On every base board reached from a new one by [make_move] calls:
    if, among the first three cells that [get_empty_cells] lists, [p] is
    the first on which placing ['S'] or ['O'] would score, then [get_move]
    returns [p], whatever the difficulty, with ['S'] if ['S'] scores there
    and with ['O'] otherwise; the board is not changed and no random draw
    is consumed. *)
Theorem get_move_takes_first_win
    (difficulty : string) b bd w cells l1 p l2 (letter : string) :
  base_reachable bd → objs w !! b = Some bd →
  get_empty_cells bd = Ok cells →
  take 3 cells = l1 ++ p :: l2 →
  (∀ q, q ∈ l1 → score bd q "S" ≤ 0 ∧ score bd q "O" ≤ 0) →
  (0 < score bd p "S" ∧ letter = "S" ∨
   score bd p "S" ≤ 0 ∧ 0 < score bd p "O" ∧ letter = "O") →
  returns (get_move difficulty b) w
    (λ m w', objs w' = objs w ∧ rng w' = rng w ∧
             m = (Some p.1, Some p.2, Some letter)).
Proof.
  intros Hinv%base_reachable_inv Hb Hcells Htake Hnone Hp.
  pose proof (base_inv_wf _ Hinv) as Hwf.
  assert (cells = base_empty_cells bd) as Ecells.
  { rewrite base_get_empty_cells_spec // in Hcells. by injection Hcells. }
  unfold get_move. apply returns_bind, (returns_read b _ bd cells); [done..|].
  destruct cells as [|p0 rest] eqn:Ec; [by destruct l1|]. rewrite -Ec in Htake |- *.
  apply returns_bind.
  apply (returns_ext _ _ _ _ (win_loop_prefix b cells 0 (tick w) ltac:(lia))).
  change (Z.to_nat (3 - 0)) with 3%nat. rewrite Htake.
  eapply returns_mono.
  - apply (scan_win_first b bd (tick w) l1 p l2 letter); [done..| |done|done].
    intros q Hq. apply elem_of_base_empty_cells; [done|].
    rewrite -Ecells -Ec. apply (subseteq_take 3).
    rewrite Htake. rewrite (assoc_L (++) l1 [p] l2). apply elem_of_app. by left.
  - intros r w' (Ho & Hr & ->). cbn [or_else]. by apply returns_ret.
Qed.

(** A base board with ['S'] at [(0,0)] and [(0,2)]. *)
Definition base_top_row : SOSBoard :=
  mkBoard 5
    [["S"; ""; "S"; ""; ""];
     [""; ""; ""; ""; ""];
     [""; ""; ""; ""; ""];
     [""; ""; ""; ""; ""];
     [""; ""; ""; ""; ""]]
    [].

Lemma base_top_row_reachable : base_reachable base_top_row.
Proof.
  eapply (base_reach_make_move _ 0 2 "S" 0).
  - eapply (base_reach_make_move _ 0 0 "S" 0); [apply (base_reach_new 5)|].
    reflexivity.
  - reflexivity.
Qed.

Lemma get_move_takes_first_win_witness :
  returns (get_move "medium" 0)
    (mkWorld [base_top_row] [] 0)
    (λ m w', objs w' = [base_top_row] ∧ rng w' = [] ∧
             m = (Some (0, 1).1, Some (0, 1).2, Some "O")).
Proof.
  apply (get_move_takes_first_win "medium" 0%nat base_top_row
           (mkWorld [base_top_row] [] 0) (base_empty_cells base_top_row)
           [] (0, 1) [(0, 3); (0, 4)] "O").
  - apply base_top_row_reachable.
  - reflexivity.
  - reflexivity.
  - vm_compute. reflexivity.
  - intros q Hq. by apply elem_of_nil in Hq.
  - right. vm_compute. by split_and!.
Defined.

End free_letter_wins.

(** * The fixed-letter player: what the scoring and blocking stages pick *)

Section store_exact.
Context {B : Type}.
Implicit Types (w : World B).

Lemma returns_draw_next w k rest (Q : Z → World B → Prop) :
  rng w = k :: rest → Q k (mkWorld (objs w) rest (calls w)) → returns draw w Q.
Proof.
  intros E H. exists k, (mkWorld (objs w) rest (calls w)). split; [|done].
  unfold draw. by rewrite E.
Qed.

Lemma returns_random_random_next w k rest (Q : Z → World B → Prop) :
  rng w = k :: rest → Q (k `mod` 2 ^ 53) (mkWorld (objs w) rest (calls w)) →
  returns random_random w Q.
Proof.
  intros E H. apply returns_bind, (returns_draw_next w k rest); [done|].
  by apply returns_ret.
Qed.

(** The objects of [w] are kept and no draw is consumed. *)
Definition quiet w w' : Prop := keeps w w' ∧ rng w' = rng w.

Lemma quiet_refl w : quiet w w.
Proof. split; [apply keeps_refl|done]. Qed.

Lemma quiet_trans w1 w2 w3 : quiet w1 w2 → quiet w2 w3 → quiet w1 w3.
Proof.
  intros [K1 R1] [K2 R2]. split; [by eapply keeps_trans|congruence].
Qed.

Lemma quiet_tick w : quiet w (tick w).
Proof. split; [exact (keeps_refl w)|done]. Qed.

(** A loop whose body may return, when each run of the body computes
    [f]: the first value that [f] gives. *)
Lemma returns_first_return_exact {A R} (l : list A)
    (body : A → M B (option R)) (f : A → option R) w (P : World B → Prop) :
  P w →
  (∀ x w, x ∈ l → P w → returns (body x) w (λ r w', r = f x ∧ P w')) →
  returns (first_return l body) w (λ r w', r = head (omap f l) ∧ P w').
Proof.
  revert w. induction l as [|x l IH]; intros w Hp Hbody.
  - by apply returns_ret.
  - cbn [first_return]. apply returns_bind.
    eapply returns_mono; [apply Hbody; [by left|done]|].
    intros r w' [-> Hp']. cbn [omap list_omap]. destruct (f x) as [v|].
    + by apply returns_ret.
    + apply IH; [done|]. intros y w'' Hy. apply Hbody. by right.
Qed.

Lemma head_omap_first {A R} (f : A → option R) (l1 : list A) x l2 v :
  (∀ y, y ∈ l1 → f y = None) → f x = Some v →
  head (omap f (l1 ++ x :: l2)) = Some v.
Proof.
  intros Hnone Hx. induction l1 as [|y l1 IH]; cbn [app omap list_omap].
  - by rewrite Hx.
  - rewrite Hnone; [|by left]. apply IH. intros z Hz. apply Hnone. by right.
Qed.

Lemma head_omap_none {A R} (f : A → option R) (l : list A) :
  (∀ y, y ∈ l → f y = None) → head (omap f l) = None.
Proof.
  intros Hnone. induction l as [|y l IH]; [done|]. cbn [omap list_omap].
  rewrite Hnone; [|by left]. apply IH. intros z Hz. apply Hnone. by right.
Qed.

End store_exact.

Section smart_stages.
Import Enhanced EnhancedAI.
Implicit Types (bd : SOSBoard) (w : World SOSBoard) (p q : pos).

(** [make_move] tried on a fresh copy of the board at [b]. *)
Lemma returns_trial {C} b bd (l name : string) p
    (k : Z → M SOSBoard C) w Q :
  wf bd → objs w !! b = Some bd →
  (∀ w1, quiet w w1 → returns (k (gain bd p l name)) w1 Q) →
  returns (t ← copy_board b;
           x ← call t (fun self => make_move self p.1 p.2 l name);
           k x) w Q.
Proof.
  intros Hwf Hb Hk.
  destruct (make_move_total bd p.1 p.2 l name Hwf) as [Hm _].
  unfold gain in Hk.
  destruct (make_move_result bd p.1 p.2 l name) as [g bd'].
  apply returns_bind, (returns_copy_board b bd); [done|].
  apply returns_bind, (returns_call _ _ bd g bd'); [|done|].
  - simpl. by rewrite lookup_app_r // Nat.sub_diag.
  - apply Hk. split; [|done]. simpl. rewrite insert_app_r_alt // Nat.sub_diag.
    by apply prefix_app_r.
Qed.

(** One round of the loop of [_find_sos_move] on [(best_move, max_sos)]. *)
Definition keep_score bd (st : option (Z * Z * string) * Z) p
  : option (Z * Z * string) * Z :=
  if st.2 <? gain bd p letter ""
  then (Some (p.1, p.2, letter), gain bd p letter "")
  else st.

(** What [_find_sos_move] returns on the cells [l]. *)
Definition best_score_move bd (l : list pos) : option (Z * Z * string) :=
  let st := foldl (keep_score bd) (None, 0) l in
  if 0 <? st.2 then st.1 else None.

Lemma keep_score_first_maximum bd (l : list pos) :
  (foldl (keep_score bd) (None, 0) l = (None, 0) ∧
   ∀ q, q ∈ l → gain bd q letter "" ≤ 0) ∨
  ∃ l1 p l2,
    l = l1 ++ p :: l2 ∧
    foldl (keep_score bd) (None, 0) l
      = (Some (p.1, p.2, letter), gain bd p letter "") ∧
    0 < gain bd p letter "" ∧
    (∀ q, q ∈ l1 → gain bd q letter "" < gain bd p letter "") ∧
    (∀ q, q ∈ l2 → gain bd q letter "" ≤ gain bd p letter "").
Proof.
  induction l as [|x l IH] using rev_ind.
  - left. split; [done|]. by intros q ?%elem_of_nil.
  - rewrite foldl_app. cbn [foldl].
    destruct IH as [[E Hall]|(l1 & p & l2 & El & E & Hpos & H1 & H2)];
      rewrite E; unfold keep_score; cbn [fst snd].
    + destruct (0 <? gain bd x letter "") eqn:Hlt.
      * apply Z.ltb_lt in Hlt. right. exists l, x, [].
        split_and!; [done..| |by intros q ?%elem_of_nil].
        intros q Hq. specialize (Hall q Hq). lia.
      * apply Z.ltb_ge in Hlt. left. split; [done|].
        intros q [Hq| ->%list_elem_of_singleton]%elem_of_app; [by apply Hall|done].
    + right. destruct (gain bd p letter "" <? gain bd x letter "") eqn:Hlt.
      * apply Z.ltb_lt in Hlt. exists l, x, [].
        split_and!; [done|done|lia| |by intros q ?%elem_of_nil].
        intros q Hq. rewrite El in Hq.
        apply elem_of_app in Hq as [Hq|[->|Hq]%elem_of_cons].
        -- specialize (H1 q Hq). lia.
        -- done.
        -- specialize (H2 q Hq). lia.
      * apply Z.ltb_ge in Hlt. exists l1, p, (l2 ++ [x]).
        split_and!; [by rewrite El -app_assoc|done..|].
        intros q [Hq| ->%list_elem_of_singleton]%elem_of_app; [by apply H2|done].
Qed.

Lemma _find_sos_move_exact b bd w :
  wf bd → objs w !! b = Some bd →
  returns (_find_sos_move b) w
    (λ r w', quiet w w' ∧ r = best_score_move bd (empty_cells bd)).
Proof.
  intros Hwf Hb.
  apply returns_bind, (returns_read b _ bd (empty_cells bd));
    [done|by apply get_empty_cells_spec|].
  apply returns_bind. eapply returns_mono.
  - apply (returns_for_eachM_fold _ _ (keep_score bd) _ _ (quiet w));
      [apply quiet_tick|].
    intros p st w1 _ Hq.
    apply (returns_trial b bd letter "" p); [done|by eapply keeps_lookup; [apply Hq|]|].
    intros w2 Hq2. apply returns_ret. split; [done|]. by eapply quiet_trans.
  - intros st w1 [-> Hq]. by apply returns_ret.
Qed.

(** What [_find_blocking_move] returns on the cells [l]. *)
Definition first_threat bd (l : list pos) : option (Z * Z * string) :=
  head (omap (λ p, if 0 <? gain bd p "S" "" then Some (p.1, p.2, letter)
                   else None) l).

Lemma _find_blocking_move_exact b bd w :
  wf bd → objs w !! b = Some bd →
  returns (_find_blocking_move b) w
    (λ r w', quiet w w' ∧ r = first_threat bd (empty_cells bd)).
Proof.
  intros Hwf Hb.
  apply returns_bind, (returns_read b _ bd (empty_cells bd));
    [done|by apply get_empty_cells_spec|].
  eapply returns_mono.
  - apply (returns_first_return_exact _ _
             (λ p, if 0 <? gain bd p "S" "" then Some (p.1, p.2, letter)
                   else None) _ (quiet w)); [apply quiet_tick|].
    intros p w1 _ Hq.
    apply (returns_trial b bd "S" "" p); [done|by eapply keeps_lookup; [apply Hq|]|].
    intros w2 Hq2. apply returns_ret. split; [done|]. by eapply quiet_trans.
  - intros r w1 [-> Hq]. done.
Qed.

(** The two stages that open the considered play of the medium and of
    the hard player. *)
Lemma smart_opening_spec b bd w (rest : M SOSBoard move) :
  wf bd → objs w !! b = Some bd →
  returns
    (sos_move ← _find_sos_move b;
     or_else sos_move (
       blocking_move ← _find_blocking_move b;
       or_else blocking_move rest)) w
    (λ m w',
       ∀ v, (best_score_move bd (empty_cells bd) = Some v ∨
             best_score_move bd (empty_cells bd) = None ∧
             first_threat bd (empty_cells bd) = Some v) →
            quiet w w' ∧ m = some_move v) ∨
  (best_score_move bd (empty_cells bd) = None ∧
   first_threat bd (empty_cells bd) = None).
Proof.
  intros Hwf Hb.
  destruct (best_score_move bd (empty_cells bd)) as [v1|] eqn:E1.
  - left. apply returns_bind. eapply returns_mono;
      [by apply _find_sos_move_exact|].
    intros r w1 [Hq ->]. rewrite E1. cbn [or_else]. apply returns_ret.
    intros v [[= <-]|[? _]]; done.
  - destruct (first_threat bd (empty_cells bd)) as [v2|] eqn:E2; [|by right].
    left. apply returns_bind. eapply returns_mono;
      [by apply _find_sos_move_exact|].
    intros r w1 [Hq ->]. rewrite E1. cbn [or_else]. apply returns_bind.
    eapply returns_mono;
      [apply _find_blocking_move_exact; [done|by eapply keeps_lookup; [apply Hq|]]|].
    intros r2 w2 [Hq2 ->]. rewrite E2. cbn [or_else]. apply returns_ret.
    intros v [[=]|[_ [= <-]]]. split; [by eapply quiet_trans|done].
Qed.

(** The draw below which a difficulty plays at random. *)
Definition random_below (difficulty : Difficulty) : option Z :=
  match difficulty with
  | EASY => None
  | MEDIUM => Some float_0_7
  | HARD => Some float_0_8
  end.

Lemma get_move_considered difficulty b bd w k rest threshold v :
  wf bd → objs w !! b = Some bd → rng w = k :: rest →
  random_below difficulty = Some threshold → threshold ≤ k `mod` 2 ^ 53 →
  (best_score_move bd (empty_cells bd) = Some v ∨
   best_score_move bd (empty_cells bd) = None ∧
   first_threat bd (empty_cells bd) = Some v) →
  v.2 = letter →
  returns (get_move difficulty b) w
    (λ m w', keeps w w' ∧ rng w' = rest ∧
             m = (Some v.1.1, Some v.1.2, Some letter)).
Proof.
  intros Hwf Hb Hrng Hthr Hk Hv Hletter.
  set (w1 := mkWorld (objs w) rest (calls w)).
  assert (∀ (tail : M SOSBoard move) (thr : Z),
            thr ≤ k `mod` 2 ^ 53 →
            returns
              (r ← random_random;
               if r <? thr then _get_random_move b
               else
                 sos_move ← _find_sos_move b;
                 or_else sos_move (
                   blocking_move ← _find_blocking_move b;
                   or_else blocking_move tail)) w
              (λ m w', quiet w1 w' ∧ m = some_move v)) as Htier.
  { intros tail thr Hthr'. apply returns_bind.
    apply (returns_random_random_next w k rest); [done|]. fold w1.
    replace (k `mod` 2 ^ 53 <? thr) with false
      by (symmetry; apply Z.ltb_ge; lia).
    destruct (smart_opening_spec b bd w1 tail Hwf Hb) as [H|[H1 H2]].
    - eapply returns_mono; [exact H|]. intros m w' Hm. by apply Hm.
    - destruct Hv as [Hv|[_ Hv]]; congruence. }
  unfold get_move. apply returns_bind.
  eapply returns_mono.
  { destruct difficulty; [done| |]; injection Hthr as <-; by apply Htier. }
  intros m w' [[Hkeep Hr] ->]. apply returns_bind. simpl.
  apply returns_ret, returns_ret. split_and!; [done|done|].
  by rewrite -Hletter.
Qed.

(** When the medium or the hard player does not move at random (its
    draw is at least 0.7, at least 0.8 for the hard player) and some empty
    cell scores with ['O'], [get_move] returns, among the empty cells in
    the order of [get_empty_cells], the first one on which ['O'] scores
    the most; the board is not changed and one draw is consumed. *)
Theorem get_move_takes_best_score difficulty b bd w k rest threshold q :
  wf bd → objs w !! b = Some bd → rng w = k :: rest →
  random_below difficulty = Some threshold → threshold ≤ k `mod` 2 ^ 53 →
  is_valid_move bd q.1 q.2 = Ok true → 0 < gain bd q "O" "" →
  returns (get_move difficulty b) w
    (λ m w',
       keeps w w' ∧ rng w' = rest ∧
       ∃ l1 p l2,
         get_empty_cells bd = Ok (l1 ++ p :: l2) ∧
         m = (Some p.1, Some p.2, Some "O") ∧
         0 < gain bd p "O" "" ∧
         (∀ q, q ∈ l1 → gain bd q "O" "" < gain bd p "O" "") ∧
         (∀ q, q ∈ l2 → gain bd q "O" "" ≤ gain bd p "O" "")).
Proof.
  intros Hwf Hb Hrng Hthr Hk Hq Hgain.
  apply elem_of_empty_cells in Hq; [|done].
  destruct (keep_score_first_maximum bd (empty_cells bd))
    as [[_ Hall]|(l1 & p & l2 & El & E & Hpos & H1 & H2)].
  { specialize (Hall q Hq). unfold letter in Hall. lia. }
  eapply returns_mono.
  - apply (get_move_considered difficulty b bd w k rest threshold
             (p.1, p.2, letter)); [done..| |done].
    left. unfold best_score_move. rewrite E. cbn [fst snd].
    by rewrite (proj2 (Z.ltb_lt _ _) Hpos).
  - intros m w' (Hkeep & Hr & ->). split_and!; [done..|].
    exists l1, p, l2. rewrite get_empty_cells_spec // El. done.
Qed.

Lemma get_move_takes_best_score_witness :
  returns (get_move HARD 0)
    (mkWorld [enhanced_two_s] [float_0_8] 0)
    (λ m w',
       keeps (mkWorld [enhanced_two_s] [float_0_8] 0) w' ∧ rng w' = [] ∧
       ∃ l1 p l2,
         get_empty_cells enhanced_two_s = Ok (l1 ++ p :: l2) ∧
         m = (Some p.1, Some p.2, Some "O") ∧
         0 < gain enhanced_two_s p "O" "" ∧
         (∀ q, q ∈ l1 → gain enhanced_two_s q "O" ""
                        < gain enhanced_two_s p "O" "") ∧
         (∀ q, q ∈ l2 → gain enhanced_two_s q "O" ""
                        ≤ gain enhanced_two_s p "O" "")).
Proof.
  apply (get_move_takes_best_score HARD 0%nat enhanced_two_s
           (mkWorld [enhanced_two_s] [float_0_8] 0) float_0_8 [] float_0_8
           (2, 2)).
  - apply reachable_wf, enhanced_two_s_reachable.
  - reflexivity.
  - reflexivity.
  - reflexivity.
  - vm_compute. discriminate.
  - reflexivity.
  - vm_compute. reflexivity.
Defined.

(** When the medium or the hard player does not move at random, no empty
    cell scores with ['O'], and [p] is the first empty cell, in the order
    of [get_empty_cells], on which an ['S'] of the opponent would score,
    [get_move] returns [p] with ['O']: the player blocks the first threat.
    The board is not changed and one draw is consumed. *)
Theorem get_move_blocks_first_threat difficulty b bd w k rest threshold l1 p l2 :
  wf bd → objs w !! b = Some bd → rng w = k :: rest →
  random_below difficulty = Some threshold → threshold ≤ k `mod` 2 ^ 53 →
  get_empty_cells bd = Ok (l1 ++ p :: l2) →
  (∀ q, q ∈ l1 ++ p :: l2 → gain bd q "O" "" ≤ 0) →
  (∀ q, q ∈ l1 → gain bd q "S" "" ≤ 0) →
  0 < gain bd p "S" "" →
  returns (get_move difficulty b) w
    (λ m w', keeps w w' ∧ rng w' = rest ∧ m = (Some p.1, Some p.2, Some "O")).
Proof.
  intros Hwf Hb Hrng Hthr Hk Hcells Hnone Hsafe Hthreat.
  rewrite get_empty_cells_spec // in Hcells. injection Hcells as Hcells.
  apply (get_move_considered difficulty b bd w k rest threshold
           (p.1, p.2, letter)); [done..| |done].
  right. split.
  - unfold best_score_move.
    destruct (keep_score_first_maximum bd (empty_cells bd))
      as [[-> _]|(l1' & p' & l2' & El & E & Hpos & _)]; [done|].
    exfalso. specialize (Hnone p'). unfold letter in Hpos.
    rewrite -Hcells El in Hnone. specialize (Hnone ltac:(set_solver)). lia.
  - unfold first_threat. rewrite Hcells. apply head_omap_first.
    + intros y Hy. specialize (Hsafe y Hy).
      by rewrite (proj2 (Z.ltb_ge _ _) Hsafe).
    + by rewrite (proj2 (Z.ltb_lt _ _) Hthreat).
Qed.

(** A board with ['S'] at [(0,0)] and ['O'] at [(0,1)]: an ['S'] at
    [(0,2)] would complete the line. *)
Definition enhanced_threat : SOSBoard :=
  board_after (play (new 5) [(0, 0, "S"); (0, 1, "O")]).

Lemma get_move_blocks_first_threat_witness :
  returns (get_move MEDIUM 0)
    (mkWorld [enhanced_threat] [float_0_7] 0)
    (λ m w',
       keeps (mkWorld [enhanced_threat] [float_0_7] 0) w' ∧ rng w' = [] ∧
       m = (Some (0, 2).1, Some (0, 2).2, Some "O")).
Proof.
  apply (get_move_blocks_first_threat MEDIUM 0%nat enhanced_threat
           (mkWorld [enhanced_threat] [float_0_7] 0) float_0_7 [] float_0_7
           [] (0, 2) (drop 1 (empty_cells enhanced_threat))).
  - apply reachable_wf, board_after_play_reachable.
  - reflexivity.
  - reflexivity.
  - reflexivity.
  - vm_compute. discriminate.
  - vm_compute. reflexivity.
  - apply Forall_forall.
    evaluate ([] ++ (0, 2) :: drop 1 (empty_cells enhanced_threat)) El.
    rewrite El.
    repeat (constructor; [vm_compute; discriminate|]). constructor.
  - intros q Hq. by apply elem_of_nil in Hq.
  - vm_compute. reflexivity.
Defined.

End smart_stages.

(** * The free-letter player: how far each stage looks *)

Section free_letter_reach.
Import Base AIPlayer.
Implicit Types (bd : SOSBoard) (w : World SOSBoard) (p q : pos).

(** [center = board.size // 2] *)
Definition center bd : Z := size bd `div` 2.



















End free_letter_reach.
